(** * AWM: schema diffing, migration execution, locking and rollback

    A shallow embedding of the Appwrite migration tool (the [AWMImproved]
    class of the CLI and the [AppwriteLockManager] / [AppwriteStateStore]
    classes of [lib/appwrite.js]) together with the properties its design
    document states about them.

    Conventions of the embedding:
    - a JavaScript string is a [string]: a sequence of code units below 256;
    - a value that may be [undefined] or [null] where the code tests it for
      truthiness is a [jsstr];
    - instants ([Date] objects and their ISO renderings) are milliseconds
      since the epoch, in [Z];
    - the md5 digest is the field of the class [Crypto]; the other services
      the code talks to (the wall clock, the [appwrite] command line, the
      index endpoint, the UUID source, the operator at the prompt) are the
      fields of the class [Env]. *)

From Stdlib Require Import ZArith Lia Ascii String List Bool.
From stdpp Require Import base option list strings gmap.

Open Scope string_scope.
Open Scope list_scope.

(** ** JavaScript string primitives *)

Module Js.

Definition code (c : ascii) : nat := nat_of_ascii c.

Definition between (lo hi : nat) (c : ascii) : bool :=
  Nat.leb lo (code c) && Nat.leb (code c) hi.

(** [[0-9]], [[A-Z]], [[a-z]] *)
Definition isDigit (c : ascii) : bool := between 48 57 c.
Definition isUpper (c : ascii) : bool := between 65 90 c.
Definition isLower (c : ascii) : bool := between 97 122 c.

(** [[a-zA-Z0-9]] *)
Definition isAlnum (c : ascii) : bool := isLower c || isUpper c || isDigit c.

(** [[a-zA-Z0-9._-]] *)
Definition isKeyChar (c : ascii) : bool :=
  isAlnum c || Ascii.eqb c "." || Ascii.eqb c "_" || Ascii.eqb c "-".

(** [\s] restricted to code units below 256: TAB, LF, VT, FF, CR, SPACE
    and NO-BREAK SPACE. *)
Definition isSpace (c : ascii) : bool :=
  between 9 13 c || Nat.eqb (code c) 32 || Nat.eqb (code c) 160.

(** [String.prototype.toLowerCase] on one code unit below 256. *)
Definition lowerChar (c : ascii) : ascii :=
  if isUpper c then ascii_of_nat (code c + 32)
  else if between 192 222 c && negb (Nat.eqb (code c) 215)
       then ascii_of_nat (code c + 32)
  else c.

(** [String.prototype.toUpperCase] on one code unit below 256 whose
    upper-case form is one such unit again; U+00B5, U+00DF and U+00FF, whose
    upper-case forms are not, are left as they are. *)
Definition upperChar (c : ascii) : ascii :=
  if isLower c then ascii_of_nat (code c - 32)
  else if between 224 254 c && negb (Nat.eqb (code c) 247)
       then ascii_of_nat (code c - 32)
  else c.

Fixpoint map (f : ascii -> ascii) (s : string) : string :=
  match s with
  | EmptyString => EmptyString
  | String c s' => String (f c) (map f s')
  end.

Definition toLowerCase (s : string) : string := map lowerChar s.

Fixpoint dropWhile (p : ascii -> bool) (s : string) : string :=
  match s with
  | EmptyString => EmptyString
  | String c s' => if p c then dropWhile p s' else s
  end.

Fixpoint rev_append (s acc : string) : string :=
  match s with
  | EmptyString => acc
  | String c s' => rev_append s' (String c acc)
  end.

Definition rev (s : string) : string := rev_append s EmptyString.

(** [String.prototype.trim] *)
Definition trim (s : string) : string :=
  rev (dropWhile isSpace (rev (dropWhile isSpace s))).

(** [s.split(sep)] for a one-character separator: never the empty list. *)
Fixpoint split (sep : ascii) (s : string) : list string :=
  match s with
  | EmptyString => [EmptyString]
  | String c s' =>
      if Ascii.eqb c sep then EmptyString :: split sep s'
      else match split sep s' with
           | h :: t => String c h :: t
           | [] => [String c EmptyString]
           end
  end.

(** [s.slice(0, n)] *)
Fixpoint take (n : nat) (s : string) : string :=
  match n, s with
  | S n', String c s' => String c (take n' s')
  | _, _ => EmptyString
  end.

Fixpoint forallb (p : ascii -> bool) (s : string) : bool :=
  match s with
  | EmptyString => true
  | String c s' => p c && forallb p s'
  end.

Fixpoint existsb (p : ascii -> bool) (s : string) : bool :=
  match s with
  | EmptyString => false
  | String c s' => p c || existsb p s'
  end.

(** [s.includes(needle)] *)
Fixpoint includes (needle s : string) : bool :=
  String.prefix needle s ||
  match s with
  | EmptyString => false
  | String _ s' => includes needle s'
  end.

(** [parts.join(sep)] *)
Fixpoint join (sep : string) (parts : list string) : string :=
  match parts with
  | [] => EmptyString
  | [p] => p
  | p :: rest => p +:+ sep +:+ join sep rest
  end.

Definition isEmpty (s : string) : bool :=
  match s with EmptyString => true | _ => false end.

(** A string-valued slot that may also hold [undefined] or [null]. *)
Inductive jsstr : Type :=
| Undefined
| Null
| Str (s : string).

(** Truthiness: [undefined], [null] and the empty string are falsy. *)
Definition truthy (v : jsstr) : bool :=
  match v with
  | Str s => negb (isEmpty s)
  | _ => false
  end.

(** [v || d] for a string default [d]. *)
Definition orElse (v : jsstr) (d : string) : string :=
  match v with
  | Str s => if isEmpty s then d else s
  | _ => d
  end.

(** [a === b] *)
Definition strictEq (a b : jsstr) : bool :=
  match a, b with
  | Undefined, Undefined => true
  | Null, Null => true
  | Str x, Str y => String.eqb x y
  | _, _ => false
  end.

(** [o || d] for an optional string [o]. *)
Definition optOr (o : option string) (d : string) : string :=
  match o with
  | Some s => if isEmpty s then d else s
  | None => d
  end.

(** [arr[i] = x] on an array of nullable entries: an index past the end
    extends the array, the skipped slots reading as absent. *)
Definition arraySet {A} (i : nat) (x : option A) (l : list (option A))
  : list (option A) :=
  if Nat.ltb i (List.length l) then <[i := x]> l
  else l ++ replicate (i - List.length l) None ++ [x].

End Js.

Import Js.

(** ** The services around the tool *)

Class Crypto := {
  (** [crypto.createHash('md5').update(s).digest('hex')] *)
  md5hex : string -> string
}.

(** ** Identifier helpers of [AWMImproved] *)

Section Identifiers.
Context `{Crypto}.

(** [.replace(/^[^a-zA-Z0-9]+/, '')] *)
Definition stripLeading (s : string) : string :=
  dropWhile (fun c => negb (isAlnum c)) s.

(** [.replace(/[^a-zA-Z0-9._-]/g, '_')] *)
Definition replaceDisallowed (s : string) : string :=
  Js.map (fun c => if isKeyChar c then c else "_"%char) s.

Definition sanitizeIndexKey (key : jsstr) : string :=
  let cleaned :=
    orElse (Str (replaceDisallowed (stripLeading (orElse key "")))) "idx_hash" in
  if Nat.leb (String.length cleaned) 36 then cleaned
  else
    let hash := take 28 (md5hex cleaned) in
    "idx_" +:+ hash.

(** [.replace(/([a-z0-9])([A-Z])/g, '$1-$2')]: [prev] tells whether the
    preceding code unit is free to open a match and is in [[a-z0-9]]. *)
Fixpoint hyphenate (prev : bool) (s : string) : string :=
  match s with
  | EmptyString => EmptyString
  | String c s' =>
      if prev && isUpper c then String "-" (String c (hyphenate false s'))
      else String c (hyphenate (isLower c || isDigit c) s')
  end.

(** [.replace(/[\s_]+/g, '-')]: [inRun] tells whether the preceding code
    unit already belongs to the run being replaced. *)
Fixpoint collapseSeparators (inRun : bool) (s : string) : string :=
  match s with
  | EmptyString => EmptyString
  | String c s' =>
      if isSpace c || Ascii.eqb c "_" then
        if inRun then collapseSeparators true s'
        else String "-" (collapseSeparators true s')
      else String c (collapseSeparators false s')
  end.

Definition toKebabCase (str : string) : string :=
  toLowerCase (collapseSeparators false (hyphenate false str)).

(** One iteration of the token loop of [parseIndexFields]. *)
Definition parseIndexFields_step
    (acc : list string * list (option string)) (token : string)
  : list string * list (option string) :=
  let '(fields, orders) := acc in
  let lower := toLowerCase token in
  if (String.eqb lower "asc" || String.eqb lower "desc")
     && negb (Nat.eqb (List.length fields) 0)
  then (fields,
        arraySet (List.length fields - 1)
                 (Some (if String.eqb lower "desc" then "DESC" else "ASC"))
                 orders)
  else (fields ++ [token], orders ++ [None]).

(** [fieldString.split(',').map(token => token.trim()).filter(Boolean)] *)
Definition indexTokens (fieldString : string) : list string :=
  List.filter (fun t => negb (isEmpty t))
              (List.map trim (split "," fieldString)).

Definition parseIndexTokens (tokens : list string)
  : list string * list (option string) :=
  fold_left parseIndexFields_step tokens ([], []).

Definition parseIndexFields (fieldString : string)
  : list string * list (option string) :=
  parseIndexTokens (indexTokens fieldString).

End Identifiers.

(** ** The parsed schema and the remote state *)

(** The object built by [parseRelationshipDecorator]: the keys the tool
    reads, each absent unless the decorator gave it. *)
Record Relationship := {
  rel_to : option string;
  rel_type : option string;
  rel_twoWayKey : option string;
  rel_onDelete : option string
}.

(** A normalised default: what [normalizeDefaultValue] returns besides
    [undefined].  The differ only carries the value along; numbers are kept
    as integers. *)
Inductive DefaultValue : Type :=
| DefaultBool (b : bool)
| DefaultNumber (n : Z)
| DefaultString (s : string).

Record Decorators := {
  dec_size : option Z;
  dec_required : bool;
  dec_unique : bool;
  dec_default : option DefaultValue;
  dec_relationship : option Relationship
}.

Record Attribute := {
  attr_type : string;
  attr_array : bool;
  attr_required : bool;
  attr_size : option Z;
  attr_default : option DefaultValue;
  attr_decorators : option Decorators
}.

Record Index := {
  idx_name : option string;
  idx_attributes : option (list string);
  idx_fields : option (list string);
  idx_type : option string;
  idx_orders : option (list (option string))
}.

(** [attributes] is a JavaScript object: the list is what [Object.entries]
    enumerates, in its order. *)
Record Collection := {
  coll_name : option string;
  coll_attributes : list (string * Attribute);
  coll_indexes : list Index
}.

Record Schema := {
  collections : list (string * Collection)
}.

(** What [parseSchema] pushes for an [@@index([...], second)] line, from
    the two groups its pattern captures: the bracketed list and the optional
    second argument. *)
Definition indexFromMatch (bracketed : string) (second : option string) : Index :=
  let '(fields, orders) := parseIndexFields bracketed in
  let type := trim (optOr second "key") in
  let lower := toLowerCase type in
  if String.eqb lower "asc" || String.eqb lower "desc" then
    {| idx_name := None; idx_attributes := Some fields; idx_fields := None;
       idx_type := Some "key";
       idx_orders :=
         Some (if Nat.ltb 0 (List.length fields)
               then arraySet 0 (Some lower) orders else orders) |}
  else
    {| idx_name := None; idx_attributes := Some fields; idx_fields := None;
       idx_type := Some type; idx_orders := Some orders |}.

(** What [parseSchema] pushes for an [@@unique([...])] line. *)
Definition uniqueFromMatch (bracketed : string) : Index :=
  let '(fields, orders) := parseIndexFields bracketed in
  {| idx_name := None; idx_attributes := Some fields; idx_fields := None;
     idx_type := Some "unique"; idx_orders := Some orders |}.

Record RemoteAttr := { ra_key : string; ra_type : string }.
Record RemoteIndex := { ri_key : string }.

(** One value of the map returned by [AppwriteSchemaInspector.describe]. *)
Record RemoteColl := {
  rc_attributes : list RemoteAttr;
  rc_indexes : list RemoteIndex
}.

Record CollectionCreate := {
  cc_id : string;
  cc_name : string;
  cc_attributes : list (string * Attribute);
  cc_indexes : list Index
}.

Record AttributeCreate := {
  ac_collection_id : string;
  ac_key : string;
  ac_type : string;
  ac_array : bool;
  ac_required : bool;
  ac_size : option Z;
  ac_default : option DefaultValue
}.

Record IndexCreate := {
  ic_collection_id : string;
  ic_key : string;
  ic_type : string;
  ic_attributes : list string;
  ic_orders : list (option string)
}.

Record ChangeSet := {
  cs_collections : list CollectionCreate;
  cs_attributes : list AttributeCreate;
  cs_indexes : list IndexCreate
}.

Record RelationshipCreate := {
  rc_collection : string;
  rc_key : string;
  rc_to_collection : string;
  rc_type : string;
  rc_two_way_key : option string;
  rc_on_delete : string
}.

(** What a history record keeps of a change set. *)
Record CollectionRef := { cref_id : string; cref_name : string }.
Record EntityRef := { ref_collection_id : string; ref_key : string }.

Record CompactChanges := {
  cp_collections : list CollectionRef;
  cp_attributes : list EntityRef;
  cp_indexes : list EntityRef
}.

(** ** Change calculation *)

Section Differ.
Context `{Crypto}.

(** [attr.decorators?.relationship] *)
Definition relationshipOf (attr : Attribute) : option Relationship :=
  match attr_decorators attr with
  | Some d => dec_relationship d
  | None => None
  end.

(** [map.has(k)] *)
Definition mapHas {V} (m : gmap string V) (k : string) : bool :=
  match m !! k with Some _ => true | None => false end.

(** The [Map] filled by [for (const attr of ...) remoteAttributes.set(attr.key, attr)]. *)
Definition remoteAttributeMap (attrs : list RemoteAttr) : gmap string RemoteAttr :=
  fold_left (fun m a => <[ra_key a := a]> m) attrs ∅.

Definition remoteIndexMap (idxs : list RemoteIndex) : gmap string RemoteIndex :=
  fold_left (fun m i => <[ri_key i := i]> m) idxs ∅.

Definition pushCollection (changes : ChangeSet) (c : CollectionCreate) : ChangeSet :=
  {| cs_collections := cs_collections changes ++ [c];
     cs_attributes := cs_attributes changes;
     cs_indexes := cs_indexes changes |}.

Definition pushAttribute (changes : ChangeSet) (a : AttributeCreate) : ChangeSet :=
  {| cs_collections := cs_collections changes;
     cs_attributes := cs_attributes changes ++ [a];
     cs_indexes := cs_indexes changes |}.

Definition pushIndex (changes : ChangeSet) (i : IndexCreate) : ChangeSet :=
  {| cs_collections := cs_collections changes;
     cs_attributes := cs_attributes changes;
     cs_indexes := cs_indexes changes ++ [i] |}.

Definition attributeCreate (collId attrName : string) (attr : Attribute)
  : AttributeCreate :=
  {| ac_collection_id := collId;
     ac_key := attrName;
     ac_type := attr_type attr;
     ac_array := attr_array attr;
     ac_required := attr_required attr;
     ac_size := attr_size attr;
     ac_default := attr_default attr |}.

(** Body of the loop over [Object.entries(coll.attributes)]. *)
Definition diffAttribute (collId : string)
    (remoteAttributes : gmap string RemoteAttr)
    (changes : ChangeSet) (entry : string * Attribute) : ChangeSet :=
  let '(attrName, attr) := entry in
  match relationshipOf attr with
  | Some _ => changes
  | None =>
      if negb (mapHas remoteAttributes attrName)
      then pushAttribute changes (attributeCreate collId attrName attr)
      else changes
  end.

(** [index.attributes || index.fields || []] *)
Definition indexColumns (index : Index) : list string :=
  match idx_attributes index with
  | Some l => l
  | None => match idx_fields index with Some l => l | None => [] end
  end.

Definition indexRawKey (index : Index) : string :=
  optOr (idx_name index) ("idx_" +:+ join "_" (indexColumns index)).

Definition indexCreate (collId : string) (index : Index) : IndexCreate :=
  {| ic_collection_id := collId;
     ic_key := sanitizeIndexKey (Str (indexRawKey index));
     ic_type := optOr (idx_type index) "key";
     ic_attributes := indexColumns index;
     ic_orders := default [] (idx_orders index) |}.

(** Body of the loop over [coll.indexes]. *)
Definition diffIndex (collId : string)
    (remoteIndexes : gmap string RemoteIndex)
    (changes : ChangeSet) (index : Index) : ChangeSet :=
  let key := sanitizeIndexKey (Str (indexRawKey index)) in
  if negb (mapHas remoteIndexes key)
  then pushIndex changes (indexCreate collId index)
  else changes.

Definition collectionCreate (name : string) (coll : Collection)
  : CollectionCreate :=
  {| cc_id := toKebabCase name;
     cc_name := optOr (coll_name coll) name;
     cc_attributes := coll_attributes coll;
     cc_indexes := coll_indexes coll |}.

(** Body of the loop over [Object.entries(schema.collections)]. *)
Definition diffCollection (remote : gmap string RemoteColl)
    (changes : ChangeSet) (entry : string * Collection) : ChangeSet :=
  let '(name, coll) := entry in
  let collId := toKebabCase name in
  match remote !! collId with
  | None => pushCollection changes (collectionCreate name coll)
  | Some remoteColl =>
      let remoteAttributes := remoteAttributeMap (rc_attributes remoteColl) in
      let changes1 :=
        fold_left (diffAttribute collId remoteAttributes)
                  (coll_attributes coll) changes in
      let remoteIndexes := remoteIndexMap (rc_indexes remoteColl) in
      fold_left (diffIndex collId remoteIndexes) (coll_indexes coll) changes1
  end.

Definition emptyChanges : ChangeSet :=
  {| cs_collections := []; cs_attributes := []; cs_indexes := [] |}.

(** [calculateChanges] once [describe()] has answered [remote]. *)
Definition calculateChanges (schema : Schema) (remote : gmap string RemoteColl)
  : ChangeSet :=
  fold_left (diffCollection remote) (collections schema) emptyChanges.

(** [new Set(attrs.filter(a => a.type === 'relationship').map(a => a.key))] *)
Definition remoteRelationshipKeys (remoteColl : option RemoteColl) : gset string :=
  list_to_set
    (List.map ra_key
       (List.filter (fun a => String.eqb (ra_type a) "relationship")
          (match remoteColl with Some rc => rc_attributes rc | None => [] end))).

Definition relationshipCreate (collId attrName : string) (attr : Attribute)
    (rel : Relationship) : RelationshipCreate :=
  {| rc_collection := collId;
     rc_key := attrName;
     rc_to_collection := toKebabCase (optOr (rel_to rel) (attr_type attr));
     rc_type := optOr (rel_type rel) "many-to-one";
     rc_two_way_key := rel_twoWayKey rel;
     rc_on_delete := optOr (rel_onDelete rel) "restrict" |}.

Definition pendingAttribute (collId : string) (keys : gset string)
    (pending : list RelationshipCreate) (entry : string * Attribute)
  : list RelationshipCreate :=
  let '(attrName, attr) := entry in
  match relationshipOf attr with
  | None => pending
  | Some rel =>
      if bool_decide (attrName ∈ keys) then pending
      else pending ++ [relationshipCreate collId attrName attr rel]
  end.

Definition pendingCollection (remote : gmap string RemoteColl)
    (pending : list RelationshipCreate) (entry : string * Collection)
  : list RelationshipCreate :=
  let '(name, coll) := entry in
  let collId := toKebabCase name in
  let keys := remoteRelationshipKeys (remote !! collId) in
  fold_left (pendingAttribute collId keys) (coll_attributes coll) pending.

(** [calculateRelationships] once [describe()] has answered [remote]. *)
Definition calculateRelationships (schema : Schema)
    (remote : gmap string RemoteColl) : list RelationshipCreate :=
  fold_left (pendingCollection remote) (collections schema) [].

(** [compactChanges]: what a history record keeps of a change set. *)
Definition compactChanges (changes : ChangeSet) : CompactChanges :=
  {| cp_collections :=
       List.map (fun c => {| cref_id := cc_id c; cref_name := cc_name c |})
                (cs_collections changes);
     cp_attributes :=
       List.map (fun a => {| ref_collection_id := ac_collection_id a;
                             ref_key := ac_key a |})
                (cs_attributes changes);
     cp_indexes :=
       List.map (fun i => {| ref_collection_id := ic_collection_id i;
                             ref_key := sanitizeIndexKey (Str (ic_key i)) |})
                (cs_indexes changes) |}.

End Differ.

(** ** Errors, documents and the world the tool runs in *)

(** What the code throws and catches.  [AppwriteError] comes from
    [AppwriteClient.request], [ExecError] from [execSync] (exit status and
    standard error of the command), [PlainError] is [new Error(message)],
    [LockHeldError] is the contention error of [acquire], whose message names
    the lock, its holder and the instant it was taken, and [RangeError] is
    what [Date.prototype.toISOString] throws on an invalid date. *)
Inductive Error : Type :=
| AppwriteError (status : Z) (message : string)
| ExecError (status : Z) (stderr : string)
| PlainError (message : string)
| LockHeldError (lockId holder : string) (since : Z)
| RangeError (message : string).

(** [error.status] *)
Definition errorStatus (e : Error) : option Z :=
  match e with
  | AppwriteError st _ => Some st
  | ExecError st _ => Some st
  | _ => None
  end.

(** [error.stderr?.toString()?.includes(needle)] as a condition *)
Definition stderrIncludes (needle : string) (e : Error) : bool :=
  match e with
  | ExecError _ err => includes needle err
  | _ => false
  end.

(** The outcome of running a piece of the tool: a value, a thrown error, or
    [Diverge] when the embedding ran out of fuel on a call that had not
    returned yet. *)
Inductive Result (A : Type) : Type :=
| Ok (a : A)
| Throw (e : Error)
| Diverge.
Arguments Ok {A} a.
Arguments Throw {A} e.
Arguments Diverge {A}.

(** A document of the [awm_locks] collection. *)
Record LockDoc := {
  lock_id : string;
  lock_owner : jsstr;
  lock_status : string;
  lock_created_at : Z;
  lock_expires_at : option Z
}.

Record RelationshipRef := {
  rr_collection : string;
  rr_key : string;
  rr_to_collection : string;
  rr_type : string;
  rr_twoWayKey : option string
}.

(** The payload of a history record; the tag is its [type] field.  Payloads
    are stored as JSON text and parsed back on reading; the embedding keeps
    the value. *)
Inductive Payload : Type :=
| ApplyPayload (databaseId : string) (checksum : string) (changes : CompactChanges)
| RelationshipsPayload (databaseId : string) (relationships : list RelationshipRef).

(** A document of the [awm_state] collection; [doc_id] is its [$id]. *)
Record StateDoc := {
  doc_id : string;
  doc_record_type : string;
  doc_record_id : string;
  doc_status : option string;
  doc_payload : option Payload;
  doc_created_at : Z;
  doc_updated_at : Z
}.

Inductive AttrKind : Type :=
| KString | KInteger | KFloat | KBoolean | KDatetime | KEmail | KUrl.

(** The [appwrite databases ...] command lines the tool runs, by the values
    spliced into them. *)
Inductive Command : Type :=
| CreateCollection (dbId collId name : string)
| CreateAttribute (kind : AttrKind) (dbId collId key : string)
                  (size : option Z) (required array : bool)
| CreateRelationshipAttribute (dbId collId relatedId type key : string)
                              (twoWayKey : option string) (onDelete : string)
| DeleteIndex (dbId collId key : string)
| DeleteAttribute (dbId collId key : string)
| DeleteCollection (dbId collId : string).

(** The body of the POST that [AppwriteClient.ensureIndex] sends. *)
Record IndexRequest := {
  ir_databaseId : string;
  ir_collectionId : string;
  ir_key : string;
  ir_type : string;
  ir_attributes : list string;
  ir_orders : list string
}.

Inductive Call : Type :=
| CliCall (c : Command)
| IndexCall (r : IndexRequest).

(** The remote database and the terminal, as one run of the tool sees them:
    the two internal collections ([lockDocs] by document id, [stateDocs] most
    recently created first, which is the order [latestHistory] asks for),
    what [describe()] answers, how often the clock and the UUID source were
    read, the commands and index requests issued so far (oldest first) and
    the lines printed (colour codes and glyphs left out). *)
Record World := {
  lockDocs : gmap string LockDoc;
  stateDocs : list StateDoc;
  remote : gmap string RemoteColl;
  clockReads : nat;
  uuidDraws : nat;
  calls : list Call;
  console : list string
}.

(** The services whose answers the tool does not control. *)
Class Env := {
  (** the n-th reading of the wall clock, [new Date()] *)
  clock : nat -> Z;
  (** the n-th [crypto.randomUUID()] *)
  randomUUID : nat -> string;
  (** [execSync(cmd)]: [None] when the command exits with 0, else its exit
      status and standard error; the answer may depend on what ran before *)
  execSync : list Call -> Command -> option (Z * string);
  (** the index endpoint: [None] for an OK response, else the status and
      message of the failure *)
  postIndex : list Call -> IndexRequest -> option (Z * string);
  (** [JSON.stringify] of a change set *)
  jsonOfChanges : ChangeSet -> string;
  (** what the operator types at a prompt *)
  promptAnswer : string -> jsstr
}.

(** The fields of the [AWMImproved] instance that the operations read. *)
Record Config := {
  appwriteProject : jsstr;
  appwriteKey : jsstr;
  databaseId : jsstr;
  lockOwner : string;
  force : bool;
  dryRun : bool;
  debug : bool;
  nonInteractive : bool;
  (** the schema file, read and parsed; [None] when it cannot be read *)
  schemaFile : option Schema
}.

(** ** Stateful computations *)

Definition M (A : Type) : Type := World -> Result A * World.

Definition ret {A} (a : A) : M A := fun w => (Ok a, w).

Definition bind {A B} (m : M A) (k : A -> M B) : M B :=
  fun w =>
    match m w with
    | (Ok a, w') => k a w'
    | (Throw e, w') => (Throw e, w')
    | (Diverge, w') => (Diverge, w')
    end.

Definition throw {A} (e : Error) : M A := fun w => (Throw e, w).

(** [try { m } catch (error) { handler(error) }] *)
Definition tryCatch {A} (m : M A) (handler : Error -> M A) : M A :=
  fun w =>
    match m w with
    | (Throw e, w') => handler e w'
    | other => other
    end.

(** [try { m } finally { cleanup }]: the cleanup runs whether [m] returned or
    threw, and an error thrown by the cleanup replaces the outcome of [m]. *)
Definition tryFinally {A} (m : M A) (cleanup : M unit) : M A :=
  fun w =>
    match m w with
    | (Diverge, w') => (Diverge, w')
    | (r, w') =>
        match cleanup w' with
        | (Ok _, w'') => (r, w'')
        | (Throw e, w'') => (Throw e, w'')
        | (Diverge, w'') => (Diverge, w'')
        end
    end.

Declare Scope awm_scope.
Delimit Scope awm_scope with awm.
Notation "x ← y ; z" := (bind y (fun x => z))
  (at level 20, y at level 100, z at level 200, only parsing) : awm_scope.
Notation "x ;; z" := (bind x (fun _ => z))
  (at level 100, z at level 200, only parsing, right associativity) : awm_scope.
Open Scope awm_scope.

(** [for (const x of xs) { body(x) }] *)
Fixpoint forEach {A} (xs : list A) (body : A -> M unit) : M unit :=
  match xs with
  | [] => ret tt
  | x :: rest => body x ;; forEach rest body
  end.

Definition setLockDocs (f : gmap string LockDoc -> gmap string LockDoc) (w : World)
  : World :=
  {| lockDocs := f (lockDocs w); stateDocs := stateDocs w; remote := remote w;
     clockReads := clockReads w; uuidDraws := uuidDraws w; calls := calls w;
     console := console w |}.

Definition setStateDocs (f : list StateDoc -> list StateDoc) (w : World) : World :=
  {| lockDocs := lockDocs w; stateDocs := f (stateDocs w); remote := remote w;
     clockReads := clockReads w; uuidDraws := uuidDraws w; calls := calls w;
     console := console w |}.

Definition tickClock (w : World) : World :=
  {| lockDocs := lockDocs w; stateDocs := stateDocs w; remote := remote w;
     clockReads := S (clockReads w); uuidDraws := uuidDraws w; calls := calls w;
     console := console w |}.

Definition tickUUID (w : World) : World :=
  {| lockDocs := lockDocs w; stateDocs := stateDocs w; remote := remote w;
     clockReads := clockReads w; uuidDraws := S (uuidDraws w); calls := calls w;
     console := console w |}.

Definition addCall (c : Call) (w : World) : World :=
  {| lockDocs := lockDocs w; stateDocs := stateDocs w; remote := remote w;
     clockReads := clockReads w; uuidDraws := uuidDraws w; calls := calls w ++ [c];
     console := console w |}.

Definition addLine (line : string) (w : World) : World :=
  {| lockDocs := lockDocs w; stateDocs := stateDocs w; remote := remote w;
     clockReads := clockReads w; uuidDraws := uuidDraws w; calls := calls w;
     console := console w ++ [line] |}.

(** [console.log(line)] *)
Definition log (line : string) : M unit := fun w => (Ok tt, addLine line w).

(** A template literal renders [undefined] and [null] by name. *)
Definition render (v : jsstr) : string :=
  match v with
  | Undefined => "undefined"
  | Null => "null"
  | Str s => s
  end.

Section Services.
Context `{Env}.

(** [new Date()] *)
Definition newDate : M Z :=
  fun w => (Ok (clock (clockReads w)), tickClock w).

(** [execSync(cmd, { stdio: 'pipe' })] *)
Definition runCommand (c : Command) : M unit :=
  fun w =>
    match execSync (calls w) c with
    | None => (Ok tt, addCall (CliCall c) w)
    | Some (st, err) => (Throw (ExecError st err), addCall (CliCall c) w)
    end.

(** [AppwriteClient.request] for the index endpoint *)
Definition requestIndex (r : IndexRequest) : M unit :=
  fun w =>
    match postIndex (calls w) r with
    | None => (Ok tt, addCall (IndexCall r) w)
    | Some (st, msg) => (Throw (AppwriteError st msg), addCall (IndexCall r) w)
    end.

(** [AppwriteClient.ensureIndex]: a 409 answer is swallowed. *)
Definition ensureIndex (r : IndexRequest) : M unit :=
  tryCatch (requestIndex r)
    (fun error =>
       if negb (bool_decide (errorStatus error = Some 409%Z)) then throw error
       else ret tt).

End Services.

(** ** The lock manager ([AppwriteLockManager]) *)

Record AcquireOptions := {
  opt_owner : jsstr;
  opt_ttlSeconds : option Z;
  opt_force : bool
}.

(** The time values a [Date] holds lie within 8.64e15 milliseconds of the
    epoch: [new Date(t)] for a [t] beyond that is an invalid date. *)
Definition maxTime : Z := 8640000000000000.

Definition inDateRange (t : Z) : bool :=
  Z.leb (- maxTime) t && Z.leb t maxTime.

(** [expiresAt ? expiresAt.toISOString() : null] for [expiresAt] either
    [null] or [new Date(t)]: a date, valid or not, is truthy, and
    [toISOString] throws a [RangeError] on an invalid one.  Instants are kept
    as time values; the text of a valid date stands for its time value. *)
Definition isoOfExpiry (expiresAt : option Z) : M (option Z) :=
  match expiresAt with
  | None => ret None
  | Some t =>
      if inDateRange t then ret (Some t)
      else throw (RangeError "Invalid time value")
  end.

Section LockManager.
Context `{Crypto} `{Env}.

(** [_docId(lockId)] *)
Definition lockDocId (lockId : string) : string := md5hex ("lock:" +:+ lockId).

(** The documents endpoint of the lock collection: creating under an id in
    use answers 409, reading, patching or deleting an id not in use
    answers 404. *)
Definition createLockDocument (documentId : string) (data : LockDoc) : M unit :=
  fun w =>
    match lockDocs w !! documentId with
    | Some _ => (Throw (AppwriteError 409 "document already exists"), w)
    | None => (Ok tt, setLockDocs (insert documentId data) w)
    end.

Definition requestLockDocument (documentId : string) : M LockDoc :=
  fun w =>
    match lockDocs w !! documentId with
    | Some d => (Ok d, w)
    | None => (Throw (AppwriteError 404 "document not found"), w)
    end.

Definition updateLockDocument (documentId : string) (patch : LockDoc -> LockDoc)
  : M unit :=
  fun w =>
    match lockDocs w !! documentId with
    | Some d => (Ok tt, setLockDocs (insert documentId (patch d)) w)
    | None => (Throw (AppwriteError 404 "document not found"), w)
    end.

Definition requestDeleteLockDocument (documentId : string) : M unit :=
  fun w =>
    match lockDocs w !! documentId with
    | Some _ => (Ok tt, setLockDocs (delete documentId) w)
    | None => (Throw (AppwriteError 404 "document not found"), w)
    end.

(** [AppwriteClient.getDocument]: a 404 answer reads as [null]. *)
Definition getLockDocument (documentId : string) : M (option LockDoc) :=
  tryCatch (d ← requestLockDocument documentId; ret (Some d))
    (fun error =>
       if bool_decide (errorStatus error = Some 404%Z) then ret None
       else throw error).

(** [AppwriteClient.deleteDocument]: a 404 answer is swallowed. *)
Definition deleteLockDocument (documentId : string) : M unit :=
  tryCatch (requestDeleteLockDocument documentId)
    (fun error =>
       if negb (bool_decide (errorStatus error = Some 404%Z)) then throw error
       else ret tt).

(** [existing.expires_at && new Date(existing.expires_at) < new Date()]:
    the clock is read only when an expiry is recorded. *)
Definition isExpired (existing : LockDoc) : M bool :=
  match lock_expires_at existing with
  | None => ret false
  | Some expiry => current ← newDate; ret (Z.ltb expiry current)
  end.

(** [AppwriteLockManager.acquire].  [now] is [new Date()], a valid date,
    whose [toISOString] returns; [expiresAt] is [new Date] of a sum that can
    leave the range of a [Date].  The data of the record are computed inside
    the [try], before the request is sent: the [RangeError] of an invalid
    [expiresAt] has no status, so the [catch] throws it on. *)
Fixpoint acquire (fuel : nat) (lockId : string) (opts : AcquireOptions) : M unit :=
  let owner := match opt_owner opts with Undefined => Str "unknown" | o => o end in
  let ttlSeconds := default 600%Z (opt_ttlSeconds opts) in
  let force := opt_force opts in
  let documentId := lockDocId lockId in
  now ← newDate;
  let expiresAt :=
    if Z.eqb ttlSeconds 0 then None else Some (now + ttlSeconds * 1000)%Z in
  created ←
    tryCatch
      (expires_at ← isoOfExpiry expiresAt;
       createLockDocument documentId
         {| lock_id := lockId; lock_owner := owner; lock_status := "locked";
            lock_created_at := now; lock_expires_at := expires_at |};;
       ret true)
      (fun error =>
         if negb (bool_decide (errorStatus error = Some 409%Z)) then throw error
         else ret false);
  if created : bool then ret tt
  else
    existing ← getLockDocument documentId;
    match existing with
    | None =>
        match fuel with
        | O => fun w => (Diverge, w)
        | S fuel' =>
            acquire fuel' lockId
              {| opt_owner := owner; opt_ttlSeconds := Some ttlSeconds;
                 opt_force := force |}
        end
    | Some existing =>
        expired ← isExpired existing;
        let sameOwner := strictEq (lock_owner existing) owner in
        if negb force && negb expired && negb sameOwner then
          throw (LockHeldError lockId (orElse (lock_owner existing) "unknown")
                               (lock_created_at existing))
        else
          expires_at ← isoOfExpiry expiresAt;
          updateLockDocument documentId
            (fun d =>
               {| lock_id := lock_id d; lock_owner := owner;
                  lock_status := "locked"; lock_created_at := now;
                  lock_expires_at := expires_at |})
    end.

Definition release (lockId : string) (owner : jsstr) : M unit :=
  let documentId := lockDocId lockId in
  existing ← getLockDocument documentId;
  match existing with
  | None => ret tt
  | Some existing =>
      if truthy owner && truthy (lock_owner existing)
         && negb (strictEq (lock_owner existing) owner)
      then throw (PlainError ("Cannot release lock '" +:+ lockId +:+ "' held by "
                              +:+ render (lock_owner existing)))
      else deleteLockDocument documentId
  end.

(** [AWMImproved.withLock] *)
Definition withLock {A} (fuel : nat) (cfg : Config) (lockId : string) (fn : M A)
  : M A :=
  if negb (truthy (appwriteProject cfg)) || negb (truthy (appwriteKey cfg)) then
    throw (PlainError "Appwrite credentials are required for this operation")
  else
    acquire fuel lockId
      {| opt_owner := Str (lockOwner cfg); opt_ttlSeconds := None;
         opt_force := force cfg |};;
    tryFinally fn (release lockId (Str (lockOwner cfg))).

End LockManager.

(** ** The state store ([AppwriteStateStore]) *)

Section StateStore.
Context `{Crypto} `{Env}.

(** [_docId(type, recordId)] *)
Definition stateDocId (type recordId : string) : string :=
  md5hex (type +:+ ":" +:+ recordId).

Definition findDoc (documentId : string) (docs : list StateDoc) : option StateDoc :=
  List.find (fun d => String.eqb (doc_id d) documentId) docs.

(** The documents endpoint of the state collection. *)
Definition createStateDocument (data : StateDoc) : M unit :=
  fun w =>
    match findDoc (doc_id data) (stateDocs w) with
    | Some _ => (Throw (AppwriteError 409 "document already exists"), w)
    | None => (Ok tt, setStateDocs (cons data) w)
    end.

Definition updateStateDocument (documentId : string) (patch : StateDoc -> StateDoc)
  : M unit :=
  fun w =>
    match findDoc documentId (stateDocs w) with
    | Some _ =>
        (Ok tt,
         setStateDocs
           (List.map (fun d => if String.eqb (doc_id d) documentId then patch d else d))
           w)
    | None => (Throw (AppwriteError 404 "document not found"), w)
    end.

Definition requestDeleteStateDocument (documentId : string) : M unit :=
  fun w =>
    match findDoc documentId (stateDocs w) with
    | Some _ =>
        (Ok tt,
         setStateDocs
           (List.filter (fun d => negb (String.eqb (doc_id d) documentId))) w)
    | None => (Throw (AppwriteError 404 "document not found"), w)
    end.

Definition deleteStateDocument (documentId : string) : M unit :=
  tryCatch (requestDeleteStateDocument documentId)
    (fun error =>
       if negb (bool_decide (errorStatus error = Some 404%Z)) then throw error
       else ret tt).

Definition listStateDocuments : M (list StateDoc) :=
  fun w => (Ok (stateDocs w), w).

(** [.replace(/-/g, '')] *)
Fixpoint removeDashes (s : string) : string :=
  match s with
  | EmptyString => EmptyString
  | String c s' =>
      if Ascii.eqb c "-" then removeDashes s' else String c (removeDashes s')
  end.

Definition drawUUID : M string :=
  fun w => (Ok (randomUUID (uuidDraws w)), tickUUID w).

Definition recordHistory (payload : Payload) (status : string) : M string :=
  uuid ← drawUUID;
  let recordId := removeDashes uuid in
  now ← newDate;
  let documentId := stateDocId "history" recordId in
  createStateDocument
    {| doc_id := documentId; doc_record_type := "history";
       doc_record_id := recordId; doc_status := Some status;
       doc_payload := Some payload; doc_created_at := now;
       doc_updated_at := now |};;
  ret recordId.

Definition updateHistoryStatus (recordId status : string) : M unit :=
  let documentId := stateDocId "history" recordId in
  now ← newDate;
  updateStateDocument documentId
    (fun d =>
       {| doc_id := doc_id d; doc_record_type := doc_record_type d;
          doc_record_id := doc_record_id d; doc_status := Some status;
          doc_payload := doc_payload d; doc_created_at := doc_created_at d;
          doc_updated_at := now |}).

Definition isHistoryWithStatus (status : string) (item : StateDoc) : bool :=
  String.eqb (doc_record_type item) "history"
  && (isEmpty status || bool_decide (doc_status item = Some status)).

Definition latestHistory (status : string) : M (option StateDoc) :=
  docs ← listStateDocuments;
  ret (List.find (isHistoryWithStatus status) docs).

(** [AppwriteStateStore.reset] *)
Definition resetState : M unit :=
  docs ← listStateDocuments;
  forEach docs (fun doc => deleteStateDocument (doc_id doc)).

End StateStore.

(** ** The top-level operations of [AWMImproved] *)

Section Operations.
Context `{Crypto} `{Env}.

Definition ensureConfig (cfg : Config) : M unit :=
  if negb (truthy (appwriteProject cfg)) then
    throw (PlainError "APPWRITE_PROJECT_ID is required")
  else if negb (truthy (appwriteKey cfg)) then
    throw (PlainError "APPWRITE_API_KEY is required")
  else if negb (truthy (databaseId cfg)) then
    throw (PlainError "APPWRITE_DATABASE_ID is required")
  else ret tt.

(** [this.parseSchema(fs.readFileSync(this.schemaFile, 'utf8'))] *)
Definition readSchema (cfg : Config) : M Schema :=
  match schemaFile cfg with
  | Some schema => ret schema
  | None => throw (PlainError "ENOENT: no such file or directory")
  end.

(** [this.schemaInspector.describe()] *)
Definition describe : M (gmap string RemoteColl) :=
  fun w => (Ok (remote w), w).

Definition generateChecksum (changes : ChangeSet) : string :=
  md5hex (jsonOfChanges changes).

(** The [switch] of [buildAttributeCommand]. *)
Definition attrKindOf (type : string) : option AttrKind :=
  let t := toLowerCase type in
  if String.eqb t "string" then Some KString
  else if String.eqb t "integer" || String.eqb t "int" then Some KInteger
  else if String.eqb t "float" || String.eqb t "double" then Some KFloat
  else if String.eqb t "boolean" || String.eqb t "bool" then Some KBoolean
  else if String.eqb t "datetime" then Some KDatetime
  else if String.eqb t "email" then Some KEmail
  else if String.eqb t "url" then Some KUrl
  else None.

(** [attr.size || 255] is spliced into the string command only. *)
Definition buildAttributeCommand (dbId : string) (attr : AttributeCreate)
  : M Command :=
  let size :=
    match ac_size attr with
    | Some n => if Z.eqb n 0 then 255%Z else n
    | None => 255%Z
    end in
  match attrKindOf (ac_type attr) with
  | Some KString =>
      ret (CreateAttribute KString dbId (ac_collection_id attr) (ac_key attr)
                           (Some size) (ac_required attr) (ac_array attr))
  | Some kind =>
      ret (CreateAttribute kind dbId (ac_collection_id attr) (ac_key attr)
                           None (ac_required attr) (ac_array attr))
  | None => throw (PlainError ("Unsupported attribute type: " +:+ ac_type attr))
  end.

(** [(idx.orders || []).filter(Boolean)] *)
Definition truthyOrders (orders : list (option string)) : list string :=
  omap (fun o => match o with
                 | Some s => if isEmpty s then None else Some s
                 | None => None
                 end) orders.

Definition createCollectionStep (dbId : string) (coll : CollectionCreate) : M unit :=
  tryCatch
    (runCommand (CreateCollection dbId (cc_id coll) (cc_name coll));;
     log ("Created collection " +:+ cc_name coll))
    (fun error =>
       if stderrIncludes "already exists" error then
         log ("Collection already exists: " +:+ cc_name coll)
       else throw error).

Definition createAttributeStep (dbId : string) (attr : AttributeCreate) : M unit :=
  tryCatch
    (cmd ← buildAttributeCommand dbId attr;
     runCommand cmd;;
     log ("Created attribute " +:+ ac_collection_id attr +:+ "." +:+ ac_key attr))
    (fun error =>
       if stderrIncludes "already exists" error then
         log ("Attribute already exists: " +:+ ac_collection_id attr +:+ "."
              +:+ ac_key attr)
       else throw error).

Definition createIndexStep (cfg : Config) (dbId : string) (idx : IndexCreate)
  : M unit :=
  tryCatch
    (let indexKey := sanitizeIndexKey (Str (ic_key idx)) in
     (if debug cfg then
        log ("creating index " +:+ ic_collection_id idx +:+ "." +:+ indexKey
             +:+ " (" +:+ ic_type idx +:+ ")")
      else ret tt);;
     ensureIndex
       {| ir_databaseId := dbId; ir_collectionId := ic_collection_id idx;
          ir_key := indexKey; ir_type := orElse (Str (ic_type idx)) "key";
          ir_attributes := ic_attributes idx;
          ir_orders := truthyOrders (ic_orders idx) |};;
     log ("Created index " +:+ ic_collection_id idx +:+ "." +:+ indexKey))
    (fun error =>
       if bool_decide (errorStatus error = Some 409%Z) then
         log ("Index already exists: " +:+ ic_collection_id idx +:+ "."
              +:+ ic_key idx)
       else throw error).

Definition applyChanges (cfg : Config) (changes : ChangeSet) : M unit :=
  let dbId := render (databaseId cfg) in
  forEach (cs_collections changes) (createCollectionStep dbId);;
  forEach (cs_attributes changes) (createAttributeStep dbId);;
  forEach (cs_indexes changes) (createIndexStep cfg dbId).

Definition applyBody (cfg : Config) : M unit :=
  schema ← readSchema cfg;
  remoteState ← describe;
  let changes := calculateChanges schema remoteState in
  if Nat.eqb (List.length (cs_collections changes)) 0
     && Nat.eqb (List.length (cs_attributes changes)) 0
     && Nat.eqb (List.length (cs_indexes changes)) 0
  then log "Nothing to apply."
  else if dryRun cfg then log "Dry run - skipping apply"
  else
    log "Applying schema changes...";;
    applyChanges cfg changes;;
    let checksum := generateChecksum changes in
    recordHistory
      (ApplyPayload (render (databaseId cfg)) checksum (compactChanges changes))
      "applied";;
    log "Apply completed".

Definition apply (fuel : nat) (cfg : Config) : M unit :=
  ensureConfig cfg;;
  withLock fuel cfg "schema-apply" (applyBody cfg).

(** [part.charAt(0).toUpperCase() + part.slice(1)] *)
Definition capitalize (part : string) : string :=
  match part with
  | EmptyString => EmptyString
  | String c rest => String (upperChar c) rest
  end.

(** [relType]: the declared type in camel case, [many-to-one] as
    [manyToOne]. *)
Definition relationshipTypeArg (type : string) : string :=
  match split "-" type with
  | [] => EmptyString
  | first :: rest => join "" (toLowerCase first :: List.map capitalize rest)
  end.

Definition createRelationshipStep (dbId : string) (rel : RelationshipCreate)
  : M unit :=
  tryCatch
    (runCommand
       (CreateRelationshipAttribute dbId (rc_collection rel) (rc_to_collection rel)
          (relationshipTypeArg (orElse (Str (rc_type rel)) "many-to-one"))
          (rc_key rel)
          (match rc_two_way_key rel with
           | Some k => if isEmpty k then None else Some k
           | None => None
           end)
          (orElse (Str (rc_on_delete rel)) "restrict"));;
     log ("Relationship " +:+ rc_collection rel +:+ "." +:+ rc_key rel))
    (fun error =>
       if stderrIncludes "already exists" error then
         log ("Relationship already exists: " +:+ rc_collection rel +:+ "."
              +:+ rc_key rel)
       else throw error).

Definition relationshipRef (rel : RelationshipCreate) : RelationshipRef :=
  {| rr_collection := rc_collection rel;
     rr_key := rc_key rel;
     rr_to_collection := rc_to_collection rel;
     rr_type := rc_type rel;
     rr_twoWayKey :=
       match rc_two_way_key rel with
       | Some k => if isEmpty k then None else Some k
       | None => None
       end |}.

Definition relationshipsBody (cfg : Config) : M unit :=
  schema ← readSchema cfg;
  remoteState ← describe;
  let relationships := calculateRelationships schema remoteState in
  if Nat.eqb (List.length relationships) 0 then
    log "No relationship changes needed."
  else if dryRun cfg then log "Dry run - skipping relationships"
  else
    log "Applying relationship attributes...";;
    forEach relationships (createRelationshipStep (render (databaseId cfg)));;
    recordHistory
      (RelationshipsPayload (render (databaseId cfg))
                            (List.map relationshipRef relationships))
      "applied";;
    log "Relationships applied".

Definition applyRelationships (fuel : nat) (cfg : Config) : M unit :=
  ensureConfig cfg;;
  withLock fuel cfg "schema-relationships" (relationshipsBody cfg).

Definition entityLabel (e : EntityRef) : string :=
  ref_collection_id e +:+ "." +:+ ref_key e.

Definition deleteIndexStep (dbId : string) (idx : EntityRef) : M unit :=
  tryCatch
    (runCommand (DeleteIndex dbId (ref_collection_id idx) (ref_key idx));;
     log ("- index " +:+ entityLabel idx))
    (fun _ => log ("index already removed: " +:+ entityLabel idx)).

Definition deleteAttributeStep (dbId : string) (attr : EntityRef) : M unit :=
  tryCatch
    (runCommand (DeleteAttribute dbId (ref_collection_id attr) (ref_key attr));;
     log ("- attribute " +:+ entityLabel attr))
    (fun _ => log ("attribute already removed: " +:+ entityLabel attr)).

Definition deleteCollectionStep (dbId : string) (coll : CollectionRef) : M unit :=
  tryCatch
    (runCommand (DeleteCollection dbId (cref_id coll));;
     log ("- collection " +:+ cref_id coll))
    (fun _ => log ("collection already removed: " +:+ cref_id coll)).

Definition rollbackBody (cfg : Config) : M unit :=
  history ← latestHistory "applied";
  match history with
  | None => log "No applied migrations found to roll back."
  | Some history =>
      match doc_payload history with
      | Some (ApplyPayload _ _ changes) =>
          if dryRun cfg then
            log "Dry run - rollback would remove:";;
            forEach (cp_collections changes)
                    (fun coll => log ("- collection " +:+ cref_id coll));;
            forEach (cp_attributes changes)
                    (fun attr => log ("- attribute " +:+ entityLabel attr));;
            forEach (cp_indexes changes)
                    (fun idx => log ("- index " +:+ entityLabel idx))
          else
            let dbId := render (databaseId cfg) in
            log "Rolling back last apply...";;
            forEach (cp_indexes changes) (deleteIndexStep dbId);;
            forEach (cp_attributes changes) (deleteAttributeStep dbId);;
            forEach (cp_collections changes) (deleteCollectionStep dbId);;
            updateHistoryStatus (doc_record_id history) "rolled_back";;
            log "Rollback complete"
      | _ => log "Latest history entry is not an apply run. Nothing to roll back."
      end
  end.

Definition rollback (fuel : nat) (cfg : Config) : M unit :=
  ensureConfig cfg;;
  withLock fuel cfg "schema-rollback" (rollbackBody cfg).

(** [this.prompt(question)] *)
Definition prompt (question : string) : M jsstr :=
  fun w => (Ok (promptAnswer question), w).

Definition resetBody (cfg : Config) : M unit :=
  proceed ←
    (if negb (nonInteractive cfg) then
       confirmed ← prompt "This will clear migration history. Continue? (y/N): ";
       let answer := toLowerCase (orElse confirmed "") in
       if negb (String.eqb answer "y" || String.eqb answer "yes") then
         log "Reset cancelled.";; ret false
       else ret true
     else ret true);
  if proceed : bool then resetState;; log "State cleared" else ret tt.

Definition reset (fuel : nat) (cfg : Config) : M unit :=
  ensureConfig cfg;;
  withLock fuel cfg "schema-reset" (resetBody cfg).

(** The mutating commands among the cases of the [switch] in [run()]. *)
Inductive Operation : Type :=
| OpApply | OpRelationships | OpRollback | OpReset.

Definition run (fuel : nat) (cfg : Config) (command : Operation) : M unit :=
  match command with
  | OpApply => apply fuel cfg
  | OpRelationships => applyRelationships fuel cfg
  | OpRollback => rollback fuel cfg
  | OpReset => reset fuel cfg
  end.

End Operations.

(** ** The keyed records of the state store and the read-only command *)

(** What [getRecord] and [listRecords] hand out for a document. *)
Record RecordView := {
  rv_id : string;
  rv_status : option string;
  rv_payload : option Payload;
  rv_documentId : string;
  rv_createdAt : Z;
  rv_updatedAt : Z
}.

(** [a || b || null] on optional strings: the first one that is there and
    not empty. *)
Definition firstTruthy (a b : option string) : option string :=
  match a with
  | Some s => if isEmpty s then
                match b with
                | Some t => if isEmpty t then None else Some t
                | None => None
                end
              else Some s
  | None =>
      match b with
      | Some t => if isEmpty t then None else Some t
      | None => None
      end
  end.

Section Records.
Context `{Crypto} `{Env}.

Definition requestStateDocument (documentId : string) : M StateDoc :=
  fun w =>
    match findDoc documentId (stateDocs w) with
    | Some d => (Ok d, w)
    | None => (Throw (AppwriteError 404 "document not found"), w)
    end.

(** [AppwriteClient.getDocument] on the state collection. *)
Definition getStateDocument (documentId : string) : M (option StateDoc) :=
  tryCatch (d ← requestStateDocument documentId; ret (Some d))
    (fun error =>
       if bool_decide (errorStatus error = Some 404%Z) then ret None
       else throw error).

Definition upsertRecord (type recordId : string) (payload : option Payload)
    (status : option string) : M unit :=
  let documentId := stateDocId type recordId in
  existing ← getStateDocument documentId;
  now ← newDate;
  let newStatus :=
    firstTruthy status (match existing with
                        | Some d => doc_status d
                        | None => None
                        end) in
  match existing with
  | Some _ =>
      updateStateDocument documentId
        (fun d =>
           {| doc_id := doc_id d; doc_record_type := type;
              doc_record_id := recordId; doc_status := newStatus;
              doc_payload := payload; doc_created_at := doc_created_at d;
              doc_updated_at := now |})
  | None =>
      createStateDocument
        {| doc_id := documentId; doc_record_type := type;
           doc_record_id := recordId; doc_status := newStatus;
           doc_payload := payload; doc_created_at := now;
           doc_updated_at := now |}
  end.

Definition deleteRecord (type recordId : string) : M unit :=
  deleteStateDocument (stateDocId type recordId).

Definition recordView (doc : StateDoc) : RecordView :=
  {| rv_id := doc_record_id doc;
     rv_status := firstTruthy (doc_status doc) None;
     rv_payload := doc_payload doc;
     rv_documentId := doc_id doc;
     rv_createdAt := doc_created_at doc;
     rv_updatedAt := doc_updated_at doc |}.

Definition listRecords (type : string) : M (list RecordView) :=
  docs ← listStateDocuments;
  ret (List.map recordView
         (List.filter (fun doc => String.eqb (doc_record_type doc) type) docs)).

Definition getRecord (type recordId : string) : M (option RecordView) :=
  doc ← getStateDocument (stateDocId type recordId);
  match doc with
  | None => ret None
  | Some doc => ret (Some (recordView doc))
  end.

Definition countRecords (type : string) : M nat :=
  docs ← listRecords type;
  ret (List.length docs).

(** [for (const x of xs) console.log(line(x))] under its [if (xs.length)]
    guard, the heading first. *)
Definition logSection {A} (heading : string) (xs : list A) (line : A -> string)
  : M unit :=
  if Nat.eqb (List.length xs) 0 then ret tt
  else log heading;; forEach xs (fun x => log (line x)).

(** [plan()]; blank lines and glyphs of the printed text are left out. *)
Definition plan (cfg : Config) : M unit :=
  ensureConfig cfg;;
  schema ← readSchema cfg;
  remoteState ← describe;
  let changes := calculateChanges schema remoteState in
  remoteAgain ← describe;
  let relationships := calculateRelationships schema remoteAgain in
  if Nat.eqb (List.length (cs_collections changes)) 0
     && Nat.eqb (List.length (cs_attributes changes)) 0
     && Nat.eqb (List.length (cs_indexes changes)) 0
     && Nat.eqb (List.length relationships) 0
  then log "Schema is already in sync."
  else
    log "Planned changes:";;
    logSection "Collections:" (cs_collections changes)
      (fun coll => "+ " +:+ cc_name coll +:+ " (" +:+ cc_id coll +:+ ")");;
    logSection "Attributes:" (cs_attributes changes)
      (fun attr => "+ " +:+ ac_collection_id attr +:+ "." +:+ ac_key attr +:+ " ("
                   +:+ ac_type attr +:+ (if ac_array attr then "[]" else "") +:+ ")");;
    logSection "Indexes:" (cs_indexes changes)
      (fun idx => "+ " +:+ ic_collection_id idx +:+ "." +:+ ic_key idx);;
    logSection "Relationships:" relationships
      (fun rel => "+ " +:+ rc_collection rel +:+ "." +:+ rc_key rel +:+ "  "
                  +:+ rc_to_collection rel +:+ " (" +:+ rc_type rel +:+ ")");;
    (if dryRun cfg then log "Dry run - no changes scheduled" else ret tt).

End Records.

(** ** The relationship decorator *)

(** A quote character of either kind, single or double. *)
Definition isQuote (c : ascii) : bool := Nat.eqb (code c) 39 || Nat.eqb (code c) 34.

(** The [replace] that drops every quote character. *)
Fixpoint removeQuotes (s : string) : string :=
  match s with
  | EmptyString => EmptyString
  | String c s' => if isQuote c then removeQuotes s' else String c (removeQuotes s')
  end.

(** [const [key, value] = part.split(':').map(x => x.trim())], the value
    with its quote characters dropped: what follows a second colon is not
    read, and a part without colon has no value. *)
Definition relationshipPart (part : string) : string * option string :=
  match List.map trim (split ":" part) with
  | key :: value :: _ => (key, Some (removeQuotes value))
  | [key] => (key, None)
  | [] => ("undefined", None)
  end.

(** [rel[key] = value] on an object literal, for a value that is a string or
    [undefined]: the key [__proto__] is the one that sets no property. *)
Definition setProperty (rel : gmap string (option string)) (key : string)
    (value : option string) : gmap string (option string) :=
  if String.eqb key "__proto__" then rel else <[key := value]> rel.

(** [parseRelationshipDecorator(params)], [params] being what stands
    between the parentheses of [@relationship(...)]. *)
Definition parseRelationshipDecorator (params : string)
  : gmap string (option string) :=
  if isEmpty params then ∅
  else
    fold_left
      (fun rel part =>
         let '(key, value) := relationshipPart part in setProperty rel key value)
      (List.map trim (split "," params)) ∅.

(** ** Vocabulary of the properties *)

(** A token that reads [asc] or [desc], in any letter case. *)
Definition isOrderToken (token : string) : bool :=
  let lower := toLowerCase token in
  String.eqb lower "asc" || String.eqb lower "desc".

(** The order such a token stands for. *)
Definition orderName (token : string) : string :=
  if String.eqb (toLowerCase token) "desc" then "DESC" else "ASC".

(** The tokens that name fields: the first token whatever it reads, and
    every later token that is not an order word. *)
Definition fieldTokens (tokens : list string) : list string :=
  match tokens with
  | [] => []
  | first :: rest => first :: List.filter (fun t => negb (isOrderToken t)) rest
  end.

(** Whether a token list is empty or starts with a field name. *)
Definition startsWithField (tokens : list string) : Prop :=
  match tokens with
  | [] => True
  | t :: _ => isOrderToken t = false
  end.

(** What [describe()] lists as the attributes of a collection; nothing when
    the collection is not there. *)
Definition remoteAttributesOf (remote : gmap string RemoteColl) (collId : string)
  : list RemoteAttr :=
  match remote !! collId with
  | Some rc => rc_attributes rc
  | None => []
  end.

(** The declared collection is not in the remote state. *)
Definition isAbsent `{Crypto} (remote : gmap string RemoteColl)
    (entry : string * Collection) : bool :=
  match remote !! toKebabCase entry.1 with
  | Some _ => false
  | None => true
  end.

(** What one round of the attribute loop contributes. *)
Definition attributeDelta (collId : string) (rc : RemoteColl)
    (entry : string * Attribute) : list AttributeCreate :=
  match relationshipOf entry.2 with
  | Some _ => []
  | None =>
      if mapHas (remoteAttributeMap (rc_attributes rc)) entry.1 then []
      else [attributeCreate collId entry.1 entry.2]
  end.

(** What one round of the index loop contributes. *)
Definition indexDelta `{Crypto} (collId : string) (rc : RemoteColl)
    (index : Index) : list IndexCreate :=
  if mapHas (remoteIndexMap (rc_indexes rc))
            (sanitizeIndexKey (Str (indexRawKey index)))
  then []
  else [indexCreate collId index].

(** What one round of the relationship loop contributes. *)
Definition relationshipDelta `{Crypto} (collId : string) (keys : gset string)
    (entry : string * Attribute) : list RelationshipCreate :=
  match relationshipOf entry.2 with
  | None => []
  | Some rel =>
      if bool_decide (entry.1 ∈ keys) then []
      else [relationshipCreate collId entry.1 entry.2 rel]
  end.

(** The remote collection has an attribute of type [relationship] under
    this key. *)
Definition hasRemoteRelationship (remote : gmap string RemoteColl)
    (collId key : string) : Prop :=
  exists a, In a (remoteAttributesOf remote collId)
            /\ ra_type a = "relationship" /\ ra_key a = key.

(** The owner, expiry and document that [acquire] writes. *)
Definition acquireOwner (opts : AcquireOptions) : jsstr :=
  match opt_owner opts with
  | Undefined => Str "unknown"
  | o => o
  end.

Definition acquireExpiry (opts : AcquireOptions) (now : Z) : option Z :=
  let ttlSeconds := default 600%Z (opt_ttlSeconds opts) in
  if Z.eqb ttlSeconds 0 then None else Some (now + ttlSeconds * 1000)%Z.

(** The expiry, when there is one, is an instant a [Date] can hold. *)
Definition expiryInRange (expiresAt : option Z) : bool :=
  match expiresAt with
  | Some t => inDateRange t
  | None => true
  end.

Definition lockedDoc (lockId : string) (owner : jsstr) (now : Z)
    (expiry : option Z) (previous : option LockDoc) : LockDoc :=
  {| lock_id := match previous with Some d => lock_id d | None => lockId end;
     lock_owner := owner;
     lock_status := "locked";
     lock_created_at := now;
     lock_expires_at := expiry |}.

(** A lock document is expired at an instant when it records an expiry
    that lies strictly before that instant. *)
Definition expiredAt (existing : LockDoc) (instant : Z) : bool :=
  match lock_expires_at existing with
  | Some expiry => Z.ltb expiry instant
  | None => false
  end.

(** The lock each mutating command takes, the options it passes to
    [acquire], and the work it wraps. *)
Definition lockIdOf (command : Operation) : string :=
  match command with
  | OpApply => "schema-apply"
  | OpRelationships => "schema-relationships"
  | OpRollback => "schema-rollback"
  | OpReset => "schema-reset"
  end.

Definition lockOptions (cfg : Config) : AcquireOptions :=
  {| opt_owner := Str (lockOwner cfg); opt_ttlSeconds := None;
     opt_force := force cfg |}.

Definition bodyOf `{Crypto} `{Env} (cfg : Config) (command : Operation) : M unit :=
  match command with
  | OpApply => applyBody cfg
  | OpRelationships => relationshipsBody cfg
  | OpRollback => rollbackBody cfg
  | OpReset => resetBody cfg
  end.

(** What [ensureConfig] asks for. *)
Definition isConfigured (cfg : Config) : bool :=
  truthy (appwriteProject cfg) && truthy (appwriteKey cfg)
  && truthy (databaseId cfg).

(** A computation that always returns or throws and leaves the lock
    collection as it found it. *)
Definition leavesLocksAlone {A} (m : M A) : Prop :=
  forall w, lockDocs (m w).2 = lockDocs w /\ (m w).1 <> Diverge.

(** The entities of a change set in the order [applyChanges] creates them. *)
Inductive Entity : Type :=
| CollectionEntity (c : CollectionCreate)
| AttributeEntity (a : AttributeCreate)
| IndexEntity (i : IndexCreate).

Definition entitiesOf (changes : ChangeSet) : list Entity :=
  List.map CollectionEntity (cs_collections changes)
  ++ List.map AttributeEntity (cs_attributes changes)
  ++ List.map IndexEntity (cs_indexes changes).

(** One round of the loop that creates the entity. *)
Definition createStep `{Crypto} `{Env} (cfg : Config) (e : Entity) : M unit :=
  match e with
  | CollectionEntity c => createCollectionStep (render (databaseId cfg)) c
  | AttributeEntity a => createAttributeStep (render (databaseId cfg)) a
  | IndexEntity i => createIndexStep cfg (render (databaseId cfg)) i
  end.

Definition indexRequestOf `{Crypto} (cfg : Config) (idx : IndexCreate)
  : IndexRequest :=
  {| ir_databaseId := render (databaseId cfg);
     ir_collectionId := ic_collection_id idx;
     ir_key := sanitizeIndexKey (Str (ic_key idx));
     ir_type := orElse (Str (ic_type idx)) "key";
     ir_attributes := ic_attributes idx;
     ir_orders := truthyOrders (ic_orders idx) |}.

(** The creation call issued for an entity; none for an attribute whose
    type has no creation command. *)
Definition callOf `{Crypto} (cfg : Config) (e : Entity) : option Call :=
  match e with
  | CollectionEntity c =>
      Some (CliCall (CreateCollection (render (databaseId cfg)) (cc_id c) (cc_name c)))
  | AttributeEntity a =>
      match attrKindOf (ac_type a) with
      | Some kind =>
          Some (CliCall
                  (CreateAttribute kind (render (databaseId cfg))
                     (ac_collection_id a) (ac_key a)
                     (match kind with
                      | KString =>
                          Some (match ac_size a with
                                | Some n => if Z.eqb n 0 then 255%Z else n
                                | None => 255%Z
                                end)
                      | _ => None
                      end)
                     (ac_required a) (ac_array a)))
      | None => None
      end
  | IndexEntity i => Some (IndexCall (indexRequestOf cfg i))
  end.

(** The error a call comes back with, given what was issued before it. *)
Definition failureOf `{Env} (issued : list Call) (c : Call) : option Error :=
  match c with
  | CliCall cmd =>
      match execSync issued cmd with
      | Some (st, err) => Some (ExecError st err)
      | None => None
      end
  | IndexCall r =>
      match postIndex issued r with
      | Some (st, msg) => Some (AppwriteError st msg)
      | None => None
      end
  end.

(** The failures that count as "already there": for the command line, a
    standard error that contains [already exists]; for the index endpoint,
    status 409. *)
Definition toleratedOnCreate (c : Call) (error : Error) : bool :=
  match c with
  | CliCall _ => stderrIncludes "already exists" error
  | IndexCall _ => bool_decide (errorStatus error = Some 409%Z)
  end.

Definition withForce (b : bool) (cfg : Config) : Config :=
  {| appwriteProject := appwriteProject cfg; appwriteKey := appwriteKey cfg;
     databaseId := databaseId cfg; lockOwner := lockOwner cfg; force := b;
     dryRun := dryRun cfg; debug := debug cfg;
     nonInteractive := nonInteractive cfg; schemaFile := schemaFile cfg |}.

(** The delete commands of a rollback, in the order they are issued. *)
Definition rollbackCalls (dbId : string) (changes : CompactChanges) : list Call :=
  List.map (fun idx => CliCall (DeleteIndex dbId (ref_collection_id idx) (ref_key idx)))
           (cp_indexes changes)
  ++ List.map (fun attr =>
                 CliCall (DeleteAttribute dbId (ref_collection_id attr) (ref_key attr)))
              (cp_attributes changes)
  ++ List.map (fun coll => CliCall (DeleteCollection dbId (cref_id coll)))
              (cp_collections changes).

(** A history document after [updateHistoryStatus]. *)
Definition withStatus (status : string) (updatedAt : Z) (d : StateDoc) : StateDoc :=
  {| doc_id := doc_id d; doc_record_type := doc_record_type d;
     doc_record_id := doc_record_id d; doc_status := Some status;
     doc_payload := doc_payload d; doc_created_at := doc_created_at d;
     doc_updated_at := updatedAt |}.

(** ** A sample run *)

(** A stand-in for the digest: the properties hold for every digest, the
    examples only need document ids that differ when their sources do. *)
Definition sampleCrypto : Crypto := {| md5hex := fun s => s |}.

(** A clock that advances by one millisecond per reading, a command line on
    which creating the collection [broken] is refused, creating the
    collection [users] finds it already there, deleting an index is denied
    and every other command succeeds, and an index endpoint that answers
    500 with the message [Index already exists] for the key [idx_taken] and
    accepts every other one. *)
Definition sampleEnv : Env :=
  {| clock := fun n => (1000 + Z.of_nat n)%Z;
     randomUUID := fun _ => "6f1c2a3b-0000-4000-8000-5d4e3f2a1b0c";
     execSync := fun _ cmd =>
       match cmd with
       | CreateCollection _ collId _ =>
           if String.eqb collId "broken" then Some (1%Z, "connection refused")
           else if String.eqb collId "users"
                then Some (1%Z, "Error: Collection already exists")
           else None
       | DeleteIndex _ _ _ => Some (1%Z, "permission denied")
       | _ => None
       end;
     postIndex := fun _ r =>
       if String.eqb (ir_key r) "idx_taken"
       then Some (500%Z, "Index already exists") else None;
     jsonOfChanges := fun _ => "{}";
     promptAnswer := fun _ => Str "y" |}.

Definition emptyWorld : World :=
  {| lockDocs := ∅; stateDocs := []; remote := ∅; clockReads := 0;
     uuidDraws := 0; calls := []; console := [] |}.

Definition aliceLock : LockDoc :=
  {| lock_id := "schema-apply"; lock_owner := Str "alice";
     lock_status := "locked"; lock_created_at := 0%Z;
     lock_expires_at := Some 1001%Z |}.

(** The lock [schema-apply] held by alice until instant 1001. *)
Definition heldWorld : World :=
  {| lockDocs := {[ "lock:schema-apply" := aliceLock ]}; stateDocs := [];
     remote := ∅; clockReads := 0; uuidDraws := 0; calls := []; console := [] |}.

Definition aliceOptions : AcquireOptions :=
  {| opt_owner := Str "alice"; opt_ttlSeconds := None; opt_force := false |}.

Definition bobOptions : AcquireOptions :=
  {| opt_owner := Str "bob"; opt_ttlSeconds := None; opt_force := false |}.

Definition sampleConfig : Config :=
  {| appwriteProject := Str "project"; appwriteKey := Str "key";
     databaseId := Str "main"; lockOwner := "runner-1"; force := true;
     dryRun := false; debug := false; nonInteractive := true;
     schemaFile := None |}.

Definition plainAttribute (type : string) : Attribute :=
  {| attr_type := type; attr_array := false; attr_required := false;
     attr_size := None; attr_default := None;
     attr_decorators :=
       Some {| dec_size := None; dec_required := false; dec_unique := false;
               dec_default := None; dec_relationship := None |} |}.

Definition authorRelationship : Relationship :=
  {| rel_to := Some "UserProfile"; rel_type := Some "many-to-one";
     rel_twoWayKey := None; rel_onDelete := None |}.

Definition authorAttribute : Attribute :=
  {| attr_type := "UserProfile"; attr_array := false; attr_required := false;
     attr_size := None; attr_default := None;
     attr_decorators :=
       Some {| dec_size := None; dec_required := false; dec_unique := false;
               dec_default := None; dec_relationship := Some authorRelationship |} |}.

Definition userProfileCollection : Collection :=
  {| coll_name := Some "UserProfile";
     coll_attributes := [("email", plainAttribute "String")];
     coll_indexes := [] |}.

Definition postCollection : Collection :=
  {| coll_name := Some "Post";
     coll_attributes :=
       [("title", plainAttribute "String"); ("body", plainAttribute "String");
        ("author", authorAttribute)];
     coll_indexes := [] |}.

(** Two declared collections, of which the remote database has [post] with
    its [title] attribute only. *)
Definition sampleSchema : Schema :=
  {| collections := [("UserProfile", userProfileCollection);
                     ("Post", postCollection)] |}.

Definition sampleRemote : gmap string RemoteColl :=
  {[ "post" := {| rc_attributes := [{| ra_key := "title"; ra_type := "string" |}];
                  rc_indexes := [] |} ]}.

Definition collectionOf (id name : string) : CollectionCreate :=
  {| cc_id := id; cc_name := name; cc_attributes := []; cc_indexes := [] |}.

Definition brokenFirst : ChangeSet :=
  {| cs_collections := [collectionOf "broken" "Broken"; collectionOf "posts" "Posts"];
     cs_attributes := []; cs_indexes := [] |}.

Definition takenIndex : ChangeSet :=
  {| cs_collections := []; cs_attributes := [];
     cs_indexes :=
       [{| ic_collection_id := "posts"; ic_key := "idx_taken"; ic_type := "key";
           ic_attributes := ["title"]; ic_orders := [None] |}] |}.

Definition usersFirst : ChangeSet :=
  {| cs_collections := [collectionOf "users" "Users"; collectionOf "posts" "Posts"];
     cs_attributes := []; cs_indexes := [] |}.

Definition recordedChanges : CompactChanges :=
  {| cp_collections := [{| cref_id := "posts"; cref_name := "Posts" |}];
     cp_attributes := [{| ref_collection_id := "posts"; ref_key := "title" |}];
     cp_indexes := [{| ref_collection_id := "posts"; ref_key := "idx_title" |}] |}.

Definition appliedEntry : StateDoc :=
  {| doc_id := "history:r1"; doc_record_type := "history";
     doc_record_id := "r1"; doc_status := Some "applied";
     doc_payload := Some (ApplyPayload "main" "c0ffee" recordedChanges);
     doc_created_at := 500%Z; doc_updated_at := 500%Z |}.

(** A database whose history holds one applied [apply] run. *)
Definition historyWorld : World :=
  {| lockDocs := ∅; stateDocs := [appliedEntry]; remote := ∅; clockReads := 0;
     uuidDraws := 0; calls := []; console := [] |}.

(** A digest rendered in hexadecimal, as [digest('hex')] renders it. *)
Definition hexCrypto : Crypto :=
  {| md5hex := fun _ => "d41d8cd98f00b204e9800998ecf8427e" |}.

(** What [@@index([title, desc])] declares. *)
Definition titleIndex : Index := indexFromMatch "title, desc" None.

(** The [Post] collection with an index on its title. *)
Definition indexedPost : Collection :=
  {| coll_name := Some "Post";
     coll_attributes := [("title", plainAttribute "String")];
     coll_indexes := [titleIndex] |}.

Definition indexedSchema : Schema := {| collections := [("Post", indexedPost)] |}.

(** The sample configuration with the sample schema in its schema file. *)
Definition scriptedConfig : Config :=
  {| appwriteProject := Str "project"; appwriteKey := Str "key";
     databaseId := Str "main"; lockOwner := "runner-1"; force := false;
     dryRun := false; debug := false; nonInteractive := true;
     schemaFile := Some sampleSchema |}.

(** The same under [--dry-run]. *)
Definition dryConfig : Config :=
  {| appwriteProject := Str "project"; appwriteKey := Str "key";
     databaseId := Str "main"; lockOwner := "runner-1"; force := false;
     dryRun := true; debug := false; nonInteractive := true;
     schemaFile := Some sampleSchema |}.

(** The sample database before any run. *)
Definition remoteWorld : World :=
  {| lockDocs := ∅; stateDocs := []; remote := sampleRemote; clockReads := 0;
     uuidDraws := 0; calls := []; console := [] |}.

(** The sample database with one applied [apply] run in its history. *)
Definition appliedWorld : World :=
  {| lockDocs := ∅; stateDocs := [appliedEntry]; remote := sampleRemote;
     clockReads := 0; uuidDraws := 0; calls := []; console := [] |}.

(** ** Vocabulary of the further properties *)

(** A code unit that [toKebabCase] replaces: white space or underscore. *)
Definition isSeparator (c : ascii) : bool := isSpace c || Ascii.eqb c "_".

Definition headChar (s : string) : option ascii :=
  match s with
  | EmptyString => None
  | String c _ => Some c
  end.

Fixpoint lastChar (s : string) : option ascii :=
  match s with
  | EmptyString => None
  | String c EmptyString => Some c
  | String _ rest => lastChar rest
  end.

(** [c] is there and passes the test. *)
Definition charIs (p : ascii -> bool) (c : option ascii) : bool :=
  match c with
  | Some x => p x
  | None => false
  end.

(** The digest is rendered with characters allowed in a key, as a
    hexadecimal rendering is. *)
Definition digestOfKeyChars `{Crypto} : Prop :=
  forall s, Js.forallb isKeyChar (md5hex s) = true.

(** The remote state has everything the first phase would create for one
    declared collection. *)
Definition collectionInSync `{Crypto} (remote : gmap string RemoteColl)
    (entry : string * Collection) : Prop :=
  exists rc,
    remote !! toKebabCase entry.1 = Some rc
    /\ (forall attrName attr,
          In (attrName, attr) (coll_attributes entry.2) ->
          relationshipOf attr = None ->
          In attrName (List.map ra_key (rc_attributes rc)))
    /\ (forall index,
          In index (coll_indexes entry.2) ->
          In (sanitizeIndexKey (Str (indexRawKey index)))
             (List.map ri_key (rc_indexes rc))).

(** A computation that leaves one aspect of the world as it found it,
    whatever its outcome. *)
Definition preserves {X A} (aspect : World -> X) (m : M A) : Prop :=
  forall w, aspect (m w).2 = aspect w.

(** A computation that keeps a property of the world. *)
Definition keeps {A} (inv : World -> Prop) (m : M A) : Prop :=
  forall w, inv w -> inv (m w).2.

(** No two documents of the state collection share an id. *)
Definition uniqueStateIds (w : World) : Prop :=
  NoDup (List.map doc_id (stateDocs w)).

(** The creation calls a change set asks for, in the order of
    [applyChanges]; an attribute whose type has no command asks for none. *)
Definition plannedCalls `{Crypto} (cfg : Config) (changes : ChangeSet) : list Call :=
  omap (callOf cfg) (entitiesOf changes).

(** A change set with nothing in it. *)
Definition isEmptyChanges (changes : ChangeSet) : bool :=
  Nat.eqb (List.length (cs_collections changes)) 0
  && Nat.eqb (List.length (cs_attributes changes)) 0
  && Nat.eqb (List.length (cs_indexes changes)) 0.

(** What the [reset] command takes as a go-ahead: the non-interactive flag,
    or [y] or [yes], in any letter case, typed at its prompt. *)
Definition resetConfirmed `{Env} (cfg : Config) : bool :=
  nonInteractive cfg
  || (let answer :=
        toLowerCase
          (orElse (promptAnswer "This will clear migration history. Continue? (y/N): ")
                  "") in
      String.eqb answer "y" || String.eqb answer "yes").

(** The commands that honour the dry-run flag. *)
Definition honoursDryRun (command : Operation) : bool :=
  match command with
  | OpReset => false
  | _ => true
  end.

(** The latest history entry in state [applied] is there and records an
    [apply] run. *)
Definition latestAppliedIsApply (docs : list StateDoc) : bool :=
  match List.find (isHistoryWithStatus "applied") docs with
  | Some h =>
      match doc_payload h with
      | Some (ApplyPayload _ _ _) => true
      | _ => false
      end
  | None => false
  end.

(** * Properties *)

(** ** Strings *)

Lemma append_cons (c : ascii) (a b : string) :
  String c a +:+ b = String c (a +:+ b).
Proof. reflexivity. Qed.

Lemma append_empty_l (b : string) : "" +:+ b = b.
Proof. reflexivity. Qed.

Lemma length_append (a b : string) :
  String.length (a +:+ b) = String.length a + String.length b.
Proof. induction a as [|c a IH]; simpl; [reflexivity | now rewrite IH]. Qed.

Lemma length_take (n : nat) (s : string) : String.length (take n s) <= n.
Proof.
  revert s; induction n as [|n IH]; intros [|c s]; simpl; try lia.
  specialize (IH s). lia.
Qed.

Lemma length_map_string (f : ascii -> ascii) (s : string) :
  String.length (Js.map f s) = String.length s.
Proof. induction s as [|c s IH]; simpl; [reflexivity | now rewrite IH]. Qed.

Lemma get_map_string (f : ascii -> ascii) (s : string) (i : nat) :
  String.get i (Js.map f s) = f <$> String.get i s.
Proof.
  revert i; induction s as [|c s IH]; intros [|i]; simpl; try reflexivity.
  apply IH.
Qed.

Lemma isEmpty_true (s : string) : isEmpty s = true <-> s = "".
Proof. destruct s; simpl; split; congruence. Qed.

Lemma isEmpty_map (f : ascii -> ascii) (s : string) :
  isEmpty (Js.map f s) = isEmpty s.
Proof. now destruct s. Qed.

(** [dropWhile] removes a prefix on which the test holds throughout and
    stops at the first code unit that fails it. *)
Lemma dropWhile_split (p : ascii -> bool) (s : string) :
  exists pre,
    s = pre +:+ dropWhile p s
    /\ Js.forallb p pre = true
    /\ match dropWhile p s with
       | String c _ => p c = false
       | EmptyString => True
       end.
Proof.
  induction s as [|c s (pre & Heq & Hall & Hhd)]; simpl.
  - exists ""; auto.
  - destruct (p c) eqn:Hc.
    + exists (String c pre); simpl. rewrite Hc, Hall.
      split; [now rewrite append_cons, <- Heq | auto].
    + exists ""; simpl. rewrite Hc. auto.
Qed.

Lemma replaceDisallowed_keyChars (s : string) :
  Js.forallb isKeyChar (replaceDisallowed s) = true.
Proof.
  induction s as [|c s IH]; [reflexivity|].
  change (isKeyChar (if isKeyChar c then c else "_"%char)
          && Js.forallb isKeyChar (replaceDisallowed s) = true).
  rewrite IH, andb_true_r. destruct (isKeyChar c) eqn:Hc; [exact Hc | reflexivity].
Qed.

Lemma existsb_false_head (p : ascii -> bool) (c : ascii) (s : string) :
  Js.existsb p (String c s) = false -> p c = false.
Proof. simpl. now intros [? ?]%orb_false_iff. Qed.

Lemma isAlnum_isKeyChar (c : ascii) : isAlnum c = true -> isKeyChar c = true.
Proof. unfold isKeyChar. now intros ->. Qed.

(** ** Index key sanitisation *)

Section SanitizeFacts.
Context `{Crypto}.

(** The key that is measured against the 36 character limit. *)
Lemma sanitizeIndexKey_unfold (key : jsstr) :
  sanitizeIndexKey key =
  let replaced := replaceDisallowed (stripLeading (orElse key "")) in
  let cleaned := if isEmpty replaced then "idx_hash" else replaced in
  if Nat.leb (String.length cleaned) 36 then cleaned
  else "idx_" +:+ take 28 (md5hex cleaned).
Proof. reflexivity. Qed.

Lemma sanitizeIndexKey_length (key : jsstr) :
  String.length (sanitizeIndexKey key) <= 36.
Proof.
  rewrite sanitizeIndexKey_unfold; cbv zeta.
  destruct (Nat.leb _ 36) eqn:Hle.
  - now apply Nat.leb_le.
  - rewrite length_append. simpl String.length at 1.
    pose proof (length_take 28 (md5hex
      (if isEmpty (replaceDisallowed (stripLeading (orElse key "")))
       then "idx_hash" else replaceDisallowed (stripLeading (orElse key ""))))).
    lia.
Qed.

Lemma sanitizeIndexKey_nonempty (key : jsstr) : sanitizeIndexKey key <> "".
Proof.
  rewrite sanitizeIndexKey_unfold; cbv zeta.
  destruct (Nat.leb _ 36); [|discriminate].
  destruct (isEmpty _) eqn:He; [discriminate|].
  intros Heq. rewrite Heq in He. discriminate.
Qed.

(** C8: for every raw key, [sanitizeIndexKey] removes the leading run of
    non-alphanumeric characters (and nothing else: what is left is empty
    or starts with an alphanumeric), replaces, position by position, each
    remaining character outside [[A-Za-z0-9._-]] by an underscore, and
    when the key so obtained (or the fallback key that stands in for an
    empty one) is longer than 36 characters returns [idx_] followed by the
    first 28 characters of the md5 digest of that key.  The result is a
    function of the key alone and never longer than 36 characters. *)
Theorem sanitizeIndexKey_spec (key : jsstr) :
  let raw := orElse key "" in
  let rest := stripLeading raw in
  let replaced := replaceDisallowed rest in
  let cleaned := if isEmpty replaced then "idx_hash" else replaced in
  (exists pre,
      raw = pre +:+ rest
      /\ Js.forallb (fun c => negb (isAlnum c)) pre = true
      /\ match rest with
         | String c _ => isAlnum c = true
         | EmptyString => True
         end)
  /\ String.length replaced = String.length rest
  /\ (forall i,
         String.get i replaced
         = (fun c => if isKeyChar c then c else "_"%char) <$> String.get i rest)
  /\ Js.forallb isKeyChar replaced = true
  /\ sanitizeIndexKey key
     = (if Nat.leb (String.length cleaned) 36 then cleaned
        else "idx_" +:+ take 28 (md5hex cleaned))
  /\ String.length (sanitizeIndexKey key) <= 36
  /\ (forall key', key' = key -> sanitizeIndexKey key' = sanitizeIndexKey key).
Proof.
  cbv zeta. repeat split.
  - destruct (dropWhile_split (fun c => negb (isAlnum c)) (orElse key ""))
      as (pre & Heq & Hall & Hhd).
    exists pre. repeat split; [exact Heq | exact Hall |].
    fold (stripLeading (orElse key "")) in Hhd.
    destruct (stripLeading (orElse key "")); [exact I|].
    now apply negb_false_iff.
  - apply length_map_string.
  - intros i. apply get_map_string.
  - apply replaceDisallowed_keyChars.
  - apply sanitizeIndexKey_length.
  - now intros key' ->.
Qed.

(** C10: a key that keeps no character of [[A-Za-z0-9._-]] once its
    leading non-alphanumeric run is removed (the empty string, [null],
    [undefined], pure punctuation) is sanitised to the fixed key
    [idx_hash]; no key is ever sanitised to the empty string. *)
Theorem sanitizeIndexKey_fallback (key : jsstr) :
  Js.existsb isKeyChar (stripLeading (orElse key "")) = false ->
  sanitizeIndexKey key = "idx_hash"
  /\ (forall key', sanitizeIndexKey key' <> "").
Proof.
  intros Hnone. split; [|apply sanitizeIndexKey_nonempty].
  destruct (dropWhile_split (fun c => negb (isAlnum c)) (orElse key ""))
    as (pre & _ & _ & Hhd).
  fold (stripLeading (orElse key "")) in Hhd.
  rewrite sanitizeIndexKey_unfold; cbv zeta.
  destruct (stripLeading (orElse key "")) as [|c rest]; [reflexivity|].
  apply existsb_false_head in Hnone.
  apply negb_false_iff, isAlnum_isKeyChar in Hhd. congruence.
Qed.

End SanitizeFacts.

(** ** Index field lists *)

Lemma fold_left_cons {A B} (f : A -> B -> A) (x : B) (l : list B) (a : A) :
  fold_left f (x :: l) a = fold_left f l (f a x).
Proof. reflexivity. Qed.

Lemma parseIndexFields_step_field (fields : list string)
    (orders : list (option string)) (token : string) :
  fields = [] \/ isOrderToken token = false ->
  parseIndexFields_step (fields, orders) token = (fields ++ [token], orders ++ [None]).
Proof.
  unfold parseIndexFields_step, isOrderToken. cbv zeta.
  intros [-> | ->]; [now rewrite andb_false_r | reflexivity].
Qed.

Lemma parseIndexFields_step_order (fields : list string)
    (orders : list (option string)) (token : string) :
  fields <> [] -> isOrderToken token = true ->
  parseIndexFields_step (fields, orders) token
  = (fields, arraySet (List.length fields - 1) (Some (orderName token)) orders).
Proof.
  unfold parseIndexFields_step, isOrderToken, orderName. cbv zeta.
  intros Hne ->. destruct fields; [contradiction | reflexivity].
Qed.

Lemma arraySet_in_range {A} (i : nat) (x : option A) (l : list (option A)) :
  i < List.length l -> arraySet i x l = <[i := x]> l.
Proof.
  intros Hlt. unfold arraySet.
  destruct (Nat.ltb_spec i (List.length l)); [reflexivity | lia].
Qed.

(** The two arrays grow together. *)
Lemma parseIndexFields_lengths (tokens : list string) (fields : list string)
    (orders : list (option string)) :
  List.length fields = List.length orders ->
  List.length (fold_left parseIndexFields_step tokens (fields, orders)).1
  = List.length (fold_left parseIndexFields_step tokens (fields, orders)).2.
Proof.
  revert fields orders.
  induction tokens as [|t tokens IH]; intros fields orders Hlen; [exact Hlen|].
  rewrite fold_left_cons.
  destruct (isOrderToken t) eqn:Ht; destruct fields as [|f fields].
  - rewrite parseIndexFields_step_field by auto. apply IH.
    rewrite !length_app. simpl in *. lia.
  - rewrite parseIndexFields_step_order by (auto; discriminate). apply IH.
    rewrite arraySet_in_range by (simpl in *; lia).
    now rewrite length_insert.
  - rewrite parseIndexFields_step_field by auto. apply IH.
    rewrite !length_app. simpl in *. lia.
  - rewrite parseIndexFields_step_field by auto. apply IH.
    rewrite !length_app. simpl in *. lia.
Qed.

(** Once a field is there, later order words add no field. *)
Lemma parseIndexFields_fields_from (tokens : list string) (fields : list string)
    (orders : list (option string)) :
  fields <> [] ->
  (fold_left parseIndexFields_step tokens (fields, orders)).1
  = fields ++ List.filter (fun t => negb (isOrderToken t)) tokens.
Proof.
  revert fields orders.
  induction tokens as [|t tokens IH]; intros fields orders Hne.
  - simpl. now rewrite app_nil_r.
  - rewrite fold_left_cons. simpl List.filter.
    destruct (isOrderToken t) eqn:Ht; simpl negb; cbv iota.
    + rewrite parseIndexFields_step_order by assumption. now apply IH.
    + rewrite parseIndexFields_step_field by auto.
      rewrite IH by (intros Heq; now apply app_eq_nil in Heq as [_ ?]).
      now rewrite <- app_assoc.
Qed.

Lemma parseIndexTokens_fields (tokens : list string) :
  (parseIndexTokens tokens).1 = fieldTokens tokens.
Proof.
  destruct tokens as [|t tokens]; [reflexivity|].
  unfold parseIndexTokens. rewrite fold_left_cons.
  rewrite parseIndexFields_step_field by auto.
  now rewrite parseIndexFields_fields_from.
Qed.

(** Orders of fields before the last one are final. *)
Lemma parseIndexFields_orders_before (tokens : list string) (fields : list string)
    (orders : list (option string)) (i : nat) :
  List.length fields = List.length orders ->
  S i < List.length fields ->
  (fold_left parseIndexFields_step tokens (fields, orders)).2 !! i = orders !! i.
Proof.
  revert fields orders.
  induction tokens as [|t tokens IH]; intros fields orders Hlen Hi; [reflexivity|].
  rewrite fold_left_cons.
  destruct (isOrderToken t) eqn:Ht.
  - rewrite parseIndexFields_step_order by (auto; intros ->; simpl in Hi; lia).
    rewrite arraySet_in_range by lia.
    rewrite IH; [| now rewrite length_insert | assumption].
    apply list_lookup_insert_ne. lia.
  - rewrite parseIndexFields_step_field by auto.
    rewrite IH; [| rewrite !length_app; simpl; lia | rewrite length_app; simpl; lia].
    apply lookup_app_l. lia.
Qed.

(** The order of the last field is final once another field follows. *)
Lemma parseIndexFields_orders_last (tokens : list string) (fields : list string)
    (orders : list (option string)) :
  List.length fields = List.length orders ->
  fields <> [] ->
  startsWithField tokens ->
  (fold_left parseIndexFields_step tokens (fields, orders)).2
    !! (List.length fields - 1)
  = orders !! (List.length fields - 1).
Proof.
  intros Hlen Hne Hstart.
  destruct tokens as [|t tokens]; [reflexivity|].
  simpl in Hstart. rewrite fold_left_cons.
  rewrite parseIndexFields_step_field by auto.
  assert (0 < List.length fields) by (destruct fields; [contradiction | simpl; lia]).
  rewrite parseIndexFields_orders_before;
    [| rewrite !length_app; simpl; lia | rewrite length_app; simpl; lia].
  apply lookup_app_l. lia.
Qed.

(** A run of order words after a field leaves the order its last word names. *)
Lemma parseIndexFields_run (run : list string) (fields : list string)
    (orders : list (option string)) :
  List.length fields = List.length orders ->
  fields <> [] ->
  Forall (fun t => isOrderToken t = true) run ->
  (fold_left parseIndexFields_step run (fields, orders)).1 = fields
  /\ (fold_left parseIndexFields_step run (fields, orders)).2
       !! (List.length fields - 1)
     = match last (orderName <$> run) with
       | Some o => Some (Some o)
       | None => orders !! (List.length fields - 1)
       end.
Proof.
  intros Hlen Hne Hrun. revert orders Hlen.
  induction Hrun as [|t run Ht Hrun IH]; intros orders Hlen; [now split|].
  assert (0 < List.length fields) by (destruct fields; [contradiction | simpl; lia]).
  rewrite fold_left_cons. rewrite parseIndexFields_step_order by assumption.
  rewrite arraySet_in_range by lia.
  destruct (IH (<[List.length fields - 1 := Some (orderName t)]> orders))
    as [Hf Ho]; [now rewrite length_insert|].
  split; [exact Hf|]. rewrite Ho. clear IH Hf Ho.
  destruct run as [|t' run].
  - simpl. apply list_lookup_insert_eq. lia.
  - rewrite !fmap_cons, last_cons_cons.
    destruct (last (orderName t' :: (orderName <$> run))) eqn:Hl; [reflexivity|].
    apply last_None in Hl. discriminate.
Qed.

(** C9, as the code has it: in the token list of an [@@index] or [@@unique]
    line, a token that reads [asc] or [desc] (in any letter case) and has a
    field before it is not added to the fields; it sets the order of the
    field just before it, the last such word winning.  Every other token,
    including an [asc] or [desc] that opens the list, becomes a field, in
    written order, and a field that no order word follows keeps a null
    order.  Here [f] is any token taken as a field, [run] the order words
    right after it and [post] what follows up to the end. *)
Theorem parseIndexFields_spec (fieldString : string)
    (pre : list string) (f : string) (run post : list string) :
  indexTokens fieldString = pre ++ f :: run ++ post ->
  pre = [] \/ isOrderToken f = false ->
  Forall (fun t => isOrderToken t = true) run ->
  startsWithField post ->
  let '(fields, orders) := parseIndexFields fieldString in
  fields = fieldTokens (indexTokens fieldString)
  /\ List.length orders = List.length fields
  /\ fields !! List.length (fieldTokens pre) = Some f
  /\ orders !! List.length (fieldTokens pre) = Some (last (orderName <$> run)).
Proof.
  intros Htokens Hfield Hrun Hpost.
  destruct (parseIndexFields fieldString) as [fields orders] eqn:Hparse.
  unfold parseIndexFields in Hparse.
  assert (Hfields : fields = fieldTokens (indexTokens fieldString)).
  { rewrite <- parseIndexTokens_fields, Hparse. reflexivity. }
  assert (Hlens : List.length orders = List.length fields).
  { pose proof (parseIndexFields_lengths (indexTokens fieldString) [] [] eq_refl) as Hl.
    unfold parseIndexTokens in Hparse. rewrite Hparse in Hl. simpl in Hl. lia. }
  split; [exact Hfields|]. split; [exact Hlens|].
  rewrite Htokens in Hparse. unfold parseIndexTokens in Hparse.
  rewrite fold_left_app in Hparse. rewrite ?fold_left_cons in Hparse.
  rewrite fold_left_app in Hparse.
  pose proof (parseIndexTokens_fields pre) as Hpre.
  pose proof (parseIndexFields_lengths pre [] [] eq_refl) as Hprelen.
  unfold parseIndexTokens in Hpre.
  destruct (fold_left parseIndexFields_step pre ([], [])) as [fs0 os0] eqn:Hfold0.
  simpl in Hpre, Hprelen. rewrite ?fold_left_cons in Hparse.
  assert (Hstep : parseIndexFields_step (fs0, os0) f = (fs0 ++ [f], os0 ++ [None])).
  { apply parseIndexFields_step_field. destruct Hfield as [-> | Hf]; [|now right].
    left. simpl in Hfold0. congruence. }
  rewrite Hstep in Hparse.
  assert (Hlen1 : List.length (fs0 ++ [f]) = List.length (os0 ++ [None]))
    by (rewrite !length_app; simpl; lia).
  assert (Hne1 : fs0 ++ [f] <> [])
    by (intros Heq; now apply app_eq_nil in Heq as [_ ?]).
  destruct (parseIndexFields_run run _ _ Hlen1 Hne1 Hrun) as [Hrunf Hruno].
  destruct (fold_left parseIndexFields_step run (fs0 ++ [f], os0 ++ [None]))
    as [fs1 os1] eqn:Hfold1.
  simpl in Hrunf, Hruno. subst fs1.
  assert (Hlen2 : List.length (fs0 ++ [f]) = List.length os1).
  { pose proof (parseIndexFields_lengths run _ _ Hlen1) as Hl.
    rewrite Hfold1 in Hl. exact Hl. }
  pose proof (parseIndexFields_orders_last post _ _ Hlen2 Hne1 Hpost) as Hlast.
  pose proof (parseIndexFields_fields_from post _ os1 Hne1) as Hpostf.
  rewrite Hparse in Hlast, Hpostf. simpl in Hlast, Hpostf.
  assert (Hidx : List.length (fs0 ++ [f]) - 1 = List.length (fieldTokens pre)).
  { rewrite length_app, <- Hpre. simpl. lia. }
  rewrite Hidx in Hlast, Hruno. split.
  - rewrite Hpostf, <- Hpre, <- app_assoc.
    rewrite lookup_app_r by lia. now rewrite Nat.sub_diag.
  - rewrite Hlast, Hruno.
    destruct (last (orderName <$> run)); [reflexivity|].
    rewrite <- Hpre, lookup_app_r by lia. now rewrite Hprelen, Nat.sub_diag.
Qed.

(** The fields of an [@@index] or [@@unique] entry are those of its token
    list, whatever the second argument. *)
Lemma indexFromMatch_fields (bracketed : string) (second : option string) :
  idx_attributes (indexFromMatch bracketed second)
  = Some (parseIndexFields bracketed).1
  /\ idx_attributes (uniqueFromMatch bracketed)
     = Some (parseIndexFields bracketed).1.
Proof.
  unfold indexFromMatch, uniqueFromMatch.
  destruct (parseIndexFields bracketed) as [fields orders]. cbv zeta.
  now destruct (String.eqb _ "asc" || String.eqb _ "desc").
Qed.

Example indexFromMatch_second_argument :
  indexFromMatch "name, age" (Some " DESC")
  = {| idx_name := None; idx_attributes := Some ["name"; "age"];
       idx_fields := None; idx_type := Some "key";
       idx_orders := Some [Some "desc"; None] |}.
Proof. reflexivity. Qed.

Example toKebabCase_mixed : toKebabCase "UserProfile_item  fooBAR" = "user-profile-item-foo-bar".
Proof. reflexivity. Qed.

Example relationshipTypeArg_camel : relationshipTypeArg "Many-to-one" = "manyToOne".
Proof. reflexivity. Qed.

(** ** Change calculation *)

Section DifferFacts.
Context `{Crypto}.

Lemma remoteAttributeMap_has_from (attrs : list RemoteAttr)
    (m : gmap string RemoteAttr) (k : string) :
  mapHas (fold_left (fun m a => <[ra_key a := a]> m) attrs m) k = true
  <-> In k (List.map ra_key attrs) \/ mapHas m k = true.
Proof.
  revert m. induction attrs as [|a attrs IH]; intros m; simpl.
  - tauto.
  - rewrite IH. unfold mapHas.
    destruct (decide (ra_key a = k)) as [->|Hne].
    + rewrite lookup_insert_eq. tauto.
    + rewrite lookup_insert_ne by assumption. tauto.
Qed.

(** The [Map] built from the remote attributes answers [has] for the keys
    of those attributes and for no other. *)
Lemma remoteAttributeMap_has (attrs : list RemoteAttr) (k : string) :
  mapHas (remoteAttributeMap attrs) k = true <-> In k (List.map ra_key attrs).
Proof.
  unfold remoteAttributeMap. rewrite remoteAttributeMap_has_from.
  unfold mapHas. rewrite lookup_empty. intuition discriminate.
Qed.

Lemma remoteAttributeMap_hasnt (attrs : list RemoteAttr) (k : string) :
  mapHas (remoteAttributeMap attrs) k = false <-> ~ In k (List.map ra_key attrs).
Proof.
  rewrite <- remoteAttributeMap_has. destruct (mapHas _ k); intuition congruence.
Qed.

(** A loop that only appends to one component of its accumulator. *)
Lemma fold_left_appends {S B C} (f : S -> B -> S) (proj : S -> list C)
    (delta : B -> list C) (l : list B) (a : S) :
  (forall a b, proj (f a b) = proj a ++ delta b) ->
  proj (fold_left f l a) = proj a ++ flat_map delta l.
Proof.
  intros Hstep. revert a. induction l as [|b l IH]; intros a; simpl.
  - now rewrite app_nil_r.
  - now rewrite IH, Hstep, <- app_assoc.
Qed.

Lemma fold_left_keeps {S B C} (f : S -> B -> S) (proj : S -> C)
    (l : list B) (a : S) :
  (forall a b, proj (f a b) = proj a) ->
  proj (fold_left f l a) = proj a.
Proof.
  intros Hstep. revert a. induction l as [|b l IH]; intros a; simpl; [reflexivity|].
  now rewrite IH, Hstep.
Qed.

Lemma flat_map_if {B C} (test : B -> bool) (make : B -> C) (l : list B) :
  flat_map (fun b => if test b then [make b] else []) l
  = List.map make (List.filter test l).
Proof.
  induction l as [|b l IH]; simpl; [reflexivity|].
  destruct (test b); simpl; now rewrite IH.
Qed.

Lemma diffAttribute_attributes (collId : string) (rc : RemoteColl)
    (changes : ChangeSet) (entry : string * Attribute) :
  cs_attributes (diffAttribute collId (remoteAttributeMap (rc_attributes rc))
                               changes entry)
  = cs_attributes changes ++ attributeDelta collId rc entry.
Proof.
  destruct entry as [attrName attr]. unfold diffAttribute, attributeDelta. simpl.
  destruct (relationshipOf attr); [now rewrite app_nil_r|].
  destruct (mapHas _ attrName); simpl; [now rewrite app_nil_r | reflexivity].
Qed.

Lemma diffAttribute_others (collId : string) (m : gmap string RemoteAttr)
    (changes : ChangeSet) (entry : string * Attribute) :
  cs_collections (diffAttribute collId m changes entry) = cs_collections changes
  /\ cs_indexes (diffAttribute collId m changes entry) = cs_indexes changes.
Proof.
  destruct entry as [attrName attr]. unfold diffAttribute.
  destruct (relationshipOf attr); [now split|].
  destruct (mapHas m attrName); simpl; now split.
Qed.

Lemma diffIndex_indexes (collId : string) (rc : RemoteColl)
    (changes : ChangeSet) (index : Index) :
  cs_indexes (diffIndex collId (remoteIndexMap (rc_indexes rc)) changes index)
  = cs_indexes changes ++ indexDelta collId rc index.
Proof.
  unfold diffIndex, indexDelta. cbv zeta.
  destruct (mapHas _ _); simpl; [now rewrite app_nil_r | reflexivity].
Qed.

Lemma diffIndex_others (collId : string) (m : gmap string RemoteIndex)
    (changes : ChangeSet) (index : Index) :
  cs_collections (diffIndex collId m changes index) = cs_collections changes
  /\ cs_attributes (diffIndex collId m changes index) = cs_attributes changes.
Proof.
  unfold diffIndex. cbv zeta. destruct (mapHas m _); simpl; now split.
Qed.

(** One round of the collection loop, component by component. *)
Lemma diffCollection_collections (remote : gmap string RemoteColl)
    (changes : ChangeSet) (entry : string * Collection) :
  cs_collections (diffCollection remote changes entry)
  = cs_collections changes
    ++ (if isAbsent remote entry then [collectionCreate entry.1 entry.2] else []).
Proof.
  destruct entry as [name coll]. unfold diffCollection, isAbsent. simpl.
  destruct (remote !! toKebabCase name) as [rc|]; [|reflexivity].
  rewrite app_nil_r.
  rewrite (fold_left_keeps _ cs_collections)
    by (intros; apply diffIndex_others).
  apply (fold_left_keeps _ cs_collections). intros; apply diffAttribute_others.
Qed.

Lemma diffCollection_attributes (remote : gmap string RemoteColl)
    (changes : ChangeSet) (entry : string * Collection) :
  cs_attributes (diffCollection remote changes entry)
  = cs_attributes changes
    ++ match remote !! toKebabCase entry.1 with
       | Some rc =>
           flat_map (attributeDelta (toKebabCase entry.1) rc)
                    (coll_attributes entry.2)
       | None => []
       end.
Proof.
  destruct entry as [name coll]. unfold diffCollection. simpl.
  destruct (remote !! toKebabCase name) as [rc|]; [|simpl; now rewrite app_nil_r].
  rewrite (fold_left_keeps _ cs_attributes)
    by (intros; apply diffIndex_others).
  apply fold_left_appends. intros; apply diffAttribute_attributes.
Qed.

Lemma diffCollection_indexes (remote : gmap string RemoteColl)
    (changes : ChangeSet) (entry : string * Collection) :
  cs_indexes (diffCollection remote changes entry)
  = cs_indexes changes
    ++ match remote !! toKebabCase entry.1 with
       | Some rc =>
           flat_map (indexDelta (toKebabCase entry.1) rc) (coll_indexes entry.2)
       | None => []
       end.
Proof.
  destruct entry as [name coll]. unfold diffCollection. simpl.
  destruct (remote !! toKebabCase name) as [rc|]; [|simpl; now rewrite app_nil_r].
  rewrite (fold_left_appends _ cs_indexes (indexDelta (toKebabCase name) rc))
    by (intros; apply diffIndex_indexes).
  f_equal. apply (fold_left_keeps _ cs_indexes). intros; apply diffAttribute_others.
Qed.

(** The collections of a change set: one entry per absent declared
    collection, in declaration order. *)
Lemma calculateChanges_collections (schema : Schema)
    (remote : gmap string RemoteColl) :
  cs_collections (calculateChanges schema remote)
  = List.map (fun entry => collectionCreate entry.1 entry.2)
             (List.filter (isAbsent remote) (collections schema)).
Proof.
  unfold calculateChanges.
  rewrite (fold_left_appends _ cs_collections
             (fun entry => if isAbsent remote entry
                           then [collectionCreate entry.1 entry.2] else []))
    by (intros; apply diffCollection_collections).
  simpl. apply flat_map_if.
Qed.

Lemma calculateChanges_attributes (schema : Schema)
    (remote : gmap string RemoteColl) :
  cs_attributes (calculateChanges schema remote)
  = flat_map
      (fun entry : string * Collection =>
         match remote !! toKebabCase entry.1 with
         | Some rc =>
             flat_map (attributeDelta (toKebabCase entry.1) rc)
                      (coll_attributes entry.2)
         | None => []
         end)
      (collections schema).
Proof.
  unfold calculateChanges.
  now rewrite (fold_left_appends _ cs_attributes _ _ _
                 (fun a b => diffCollection_attributes remote a b)).
Qed.

Lemma calculateChanges_indexes (schema : Schema)
    (remote : gmap string RemoteColl) :
  cs_indexes (calculateChanges schema remote)
  = flat_map
      (fun entry : string * Collection =>
         match remote !! toKebabCase entry.1 with
         | Some rc =>
             flat_map (indexDelta (toKebabCase entry.1) rc) (coll_indexes entry.2)
         | None => []
         end)
      (collections schema).
Proof.
  unfold calculateChanges.
  now rewrite (fold_left_appends _ cs_indexes _ _ _
                 (fun a b => diffCollection_indexes remote a b)).
Qed.

Lemma in_attributeDelta (collId : string) (rc : RemoteColl)
    (entry : string * Attribute) (x : AttributeCreate) :
  In x (attributeDelta collId rc entry)
  <-> relationshipOf entry.2 = None
      /\ ~ In entry.1 (List.map ra_key (rc_attributes rc))
      /\ x = attributeCreate collId entry.1 entry.2.
Proof.
  unfold attributeDelta. destruct (relationshipOf entry.2).
  - simpl. intuition discriminate.
  - destruct (mapHas _ entry.1) eqn:Hhas; simpl.
    + apply remoteAttributeMap_has in Hhas. tauto.
    + apply remoteAttributeMap_hasnt in Hhas. intuition (auto; congruence).
Qed.

(** Where an emitted attribute comes from. *)
Lemma in_calculateChanges_attributes (schema : Schema)
    (remote : gmap string RemoteColl) (x : AttributeCreate) :
  In x (cs_attributes (calculateChanges schema remote))
  <-> exists name coll rc attrName attr,
        In (name, coll) (collections schema)
        /\ remote !! toKebabCase name = Some rc
        /\ In (attrName, attr) (coll_attributes coll)
        /\ relationshipOf attr = None
        /\ ~ In attrName (List.map ra_key (rc_attributes rc))
        /\ x = attributeCreate (toKebabCase name) attrName attr.
Proof.
  rewrite calculateChanges_attributes, in_flat_map. split.
  - intros ([name coll] & Hin & Hx). simpl in Hx.
    destruct (remote !! toKebabCase name) as [rc|] eqn:Hrc; [|contradiction].
    apply in_flat_map in Hx as ([attrName attr] & Hattr & Hx).
    apply in_attributeDelta in Hx as (Hrel & Hnot & ->).
    exists name, coll, rc, attrName, attr. auto 10.
  - intros (name & coll & rc & attrName & attr & Hin & Hrc & Hattr & Hrel & Hnot & ->).
    exists (name, coll). split; [assumption|]. simpl. rewrite Hrc.
    apply in_flat_map. exists (attrName, attr). split; [assumption|].
    apply in_attributeDelta. auto.
Qed.

(** Where an emitted index comes from. *)
Lemma in_calculateChanges_indexes (schema : Schema)
    (remote : gmap string RemoteColl) (x : IndexCreate) :
  In x (cs_indexes (calculateChanges schema remote)) ->
  exists name coll rc index,
    In (name, coll) (collections schema)
    /\ remote !! toKebabCase name = Some rc
    /\ In index (coll_indexes coll)
    /\ x = indexCreate (toKebabCase name) index.
Proof.
  rewrite calculateChanges_indexes, in_flat_map.
  intros ([name coll] & Hin & Hx). simpl in Hx.
  destruct (remote !! toKebabCase name) as [rc|] eqn:Hrc; [|contradiction].
  apply in_flat_map in Hx as (index & Hidx & Hx).
  unfold indexDelta in Hx. destruct (mapHas _ _); [contradiction|].
  destruct Hx as [<-|[]]. exists name, coll, rc, index. auto.
Qed.

Lemma NoDup_map_eq {A B} (f : A -> B) (l : list A) (a b : A) :
  NoDup (List.map f l) -> In a l -> In b l -> f a = f b -> a = b.
Proof.
  induction l as [|x l IH]; simpl; [contradiction|].
  intros Hnd Ha Hb Heq. apply NoDup_cons in Hnd as [Hx Hnd].
  destruct Ha as [->|Ha], Hb as [->|Hb]; auto.
  - exfalso. apply Hx. rewrite list_elem_of_In, Heq. now apply in_map.
  - exfalso. apply Hx. rewrite list_elem_of_In, <- Heq. now apply in_map.
Qed.

(** C4: take any declared collection, by its place in the schema.  If its
    kebab-cased id is absent from the remote state, [calculateChanges] emits
    exactly one CollectionCreate for it: its id is the kebab-cased name, its
    name the collection's own name if it has one and the declared name
    otherwise, and it carries the declared attributes and indexes; it stands
    between those of the absent collections declared before and after it,
    and no attribute or index entry carries its id.  If the id is present,
    no CollectionCreate is emitted for it, and each of its declared
    attributes that has no relationship decorator and whose name is not the
    key of a remote attribute of that collection is emitted as an
    AttributeCreate: under the collection's id and the attribute's name,
    with the declared type, array and required flags, size and default. *)
Theorem calculateChanges_spec (schema : Schema) (remote : gmap string RemoteColl)
    (before : list (string * Collection)) (name : string) (coll : Collection)
    (after : list (string * Collection)) :
  collections schema = before ++ (name, coll) :: after ->
  let changes := calculateChanges schema remote in
  let collId := toKebabCase name in
  let created (entry : string * Collection) :=
    {| cc_id := toKebabCase entry.1;
       cc_name := match coll_name entry.2 with
                  | Some own => if isEmpty own then entry.1 else own
                  | None => entry.1
                  end;
       cc_attributes := coll_attributes entry.2;
       cc_indexes := coll_indexes entry.2 |} in
  let others l := List.map created (List.filter (isAbsent remote) l) in
  (remote !! collId = None ->
     cs_collections changes
     = others before ++ created (name, coll) :: others after
     /\ (forall x, In x (cs_attributes changes) -> ac_collection_id x <> collId)
     /\ (forall x, In x (cs_indexes changes) -> ic_collection_id x <> collId))
  /\ (forall rc, remote !! collId = Some rc ->
        cs_collections changes = others before ++ others after
        /\ forall attrName attr,
             In (attrName, attr) (coll_attributes coll) ->
             relationshipOf attr = None ->
             ~ In attrName (List.map ra_key (rc_attributes rc)) ->
             In {| ac_collection_id := collId;
                   ac_key := attrName;
                   ac_type := attr_type attr;
                   ac_array := attr_array attr;
                   ac_required := attr_required attr;
                   ac_size := attr_size attr;
                   ac_default := attr_default attr |}
                (cs_attributes changes)).
Proof.
  intros Hdecl. cbv zeta. split.
  - intros Habsent. split; [|split].
    + rewrite calculateChanges_collections, Hdecl, List.filter_app, List.map_app. simpl.
      unfold isAbsent at 2. simpl. now rewrite Habsent.
    + intros x Hx Hid.
      apply in_calculateChanges_attributes in Hx
        as (name' & coll' & rc & attrName & attr & _ & Hrc & _ & _ & _ & ->).
      simpl in Hid. rewrite Hid in Hrc. congruence.
    + intros x Hx Hid.
      apply in_calculateChanges_indexes in Hx
        as (name' & coll' & rc & index & _ & Hrc & _ & ->).
      simpl in Hid. rewrite Hid in Hrc. congruence.
  - intros rc Hpresent. split.
    + rewrite calculateChanges_collections, Hdecl, List.filter_app, List.map_app. simpl.
      unfold isAbsent at 2. simpl. now rewrite Hpresent.
    + intros attrName attr Hattr Hrel Hnot.
      apply in_calculateChanges_attributes.
      exists name, coll, rc, attrName, attr. repeat split; auto.
      rewrite Hdecl. apply in_or_app. right. now left.
Qed.

Lemma in_remoteRelationshipKeys (remote : gmap string RemoteColl)
    (collId key : string) :
  key ∈ remoteRelationshipKeys (remote !! collId)
  <-> hasRemoteRelationship remote collId key.
Proof.
  unfold remoteRelationshipKeys, hasRemoteRelationship, remoteAttributesOf.
  rewrite elem_of_list_to_set, list_elem_of_In, in_map_iff.
  split.
  - intros (a & Hkey & Ha). apply filter_In in Ha as [Ha Htype].
    apply String.eqb_eq in Htype. eauto.
  - intros (a & Ha & Htype & Hkey). exists a. split; [assumption|].
    apply filter_In. split; [assumption|]. now apply String.eqb_eq.
Qed.

Lemma pendingAttribute_delta (collId : string) (keys : gset string)
    (pending : list RelationshipCreate) (entry : string * Attribute) :
  pendingAttribute collId keys pending entry
  = pending ++ relationshipDelta collId keys entry.
Proof.
  destruct entry as [attrName attr]. unfold pendingAttribute, relationshipDelta.
  simpl. destruct (relationshipOf attr); [|now rewrite app_nil_r].
  destruct (bool_decide _); [now rewrite app_nil_r | reflexivity].
Qed.

Lemma calculateRelationships_flat (schema : Schema)
    (remote : gmap string RemoteColl) :
  calculateRelationships schema remote
  = flat_map
      (fun entry : string * Collection =>
         flat_map (relationshipDelta (toKebabCase entry.1)
                     (remoteRelationshipKeys (remote !! toKebabCase entry.1)))
                  (coll_attributes entry.2))
      (collections schema).
Proof.
  unfold calculateRelationships.
  rewrite (fold_left_appends _ (fun pending => pending)
             (fun entry : string * Collection =>
                flat_map (relationshipDelta (toKebabCase entry.1)
                            (remoteRelationshipKeys (remote !! toKebabCase entry.1)))
                         (coll_attributes entry.2))); [reflexivity|].
  intros pending [name coll]. unfold pendingCollection. simpl.
  apply (fold_left_appends _ (fun pending => pending)).
  intros; apply pendingAttribute_delta.
Qed.

(** Where a pending relationship comes from. *)
Lemma in_calculateRelationships (schema : Schema)
    (remote : gmap string RemoteColl) (x : RelationshipCreate) :
  In x (calculateRelationships schema remote)
  <-> exists name coll attrName attr rel,
        In (name, coll) (collections schema)
        /\ In (attrName, attr) (coll_attributes coll)
        /\ relationshipOf attr = Some rel
        /\ ~ hasRemoteRelationship remote (toKebabCase name) attrName
        /\ x = relationshipCreate (toKebabCase name) attrName attr rel.
Proof.
  rewrite calculateRelationships_flat, in_flat_map. split.
  - intros ([name coll] & Hin & Hx). simpl in Hx.
    apply in_flat_map in Hx as ([attrName attr] & Hattr & Hx).
    unfold relationshipDelta in Hx. simpl in Hx.
    destruct (relationshipOf attr) as [rel|] eqn:Hrel; [|contradiction].
    case_bool_decide as Hkey; [contradiction|]. destruct Hx as [<-|[]].
    rewrite in_remoteRelationshipKeys in Hkey.
    exists name, coll, attrName, attr, rel. auto.
  - intros (name & coll & attrName & attr & rel & Hin & Hattr & Hrel & Hnot & ->).
    exists (name, coll). split; [assumption|]. simpl.
    apply in_flat_map. exists (attrName, attr). split; [assumption|].
    unfold relationshipDelta. simpl. rewrite Hrel.
    rewrite <- in_remoteRelationshipKeys in Hnot.
    rewrite bool_decide_eq_false_2 by assumption. now left.
Qed.

(** C5: take any declared attribute that carries a relationship decorator.
    Every AttributeCreate that [calculateChanges] emits stems from a
    declared attribute without relationship decorator; when collection ids
    and attribute names are not declared twice, no emitted AttributeCreate
    names the relationship attribute.  [calculateRelationships] lists the
    attribute as pending exactly when the remote collection has no attribute
    of type [relationship] under the same key (which includes the case of a
    remote collection that is not there). *)
Theorem relationships_second_phase (schema : Schema)
    (remote : gmap string RemoteColl) (name : string) (coll : Collection)
    (attrName : string) (attr : Attribute) (rel : Relationship) :
  In (name, coll) (collections schema) ->
  In (attrName, attr) (coll_attributes coll) ->
  relationshipOf attr = Some rel ->
  (forall x, In x (cs_attributes (calculateChanges schema remote)) ->
     exists name' coll' attrName' attr',
       In (name', coll') (collections schema)
       /\ In (attrName', attr') (coll_attributes coll')
       /\ relationshipOf attr' = None
       /\ x = attributeCreate (toKebabCase name') attrName' attr')
  /\ (NoDup (List.map (fun entry : string * Collection => toKebabCase entry.1)
                      (collections schema)) ->
      NoDup (List.map fst (coll_attributes coll)) ->
      forall x, In x (cs_attributes (calculateChanges schema remote)) ->
                ~ (ac_collection_id x = toKebabCase name /\ ac_key x = attrName))
  /\ (In (relationshipCreate (toKebabCase name) attrName attr rel)
         (calculateRelationships schema remote)
      <-> ~ hasRemoteRelationship remote (toKebabCase name) attrName).
Proof.
  intros Hcoll Hattr Hrel. split; [|split].
  - intros x Hx.
    apply in_calculateChanges_attributes in Hx
      as (name' & coll' & rc & attrName' & attr' & ? & ? & ? & ? & ? & ?).
    exists name', coll', attrName', attr'. auto.
  - intros Hids Hkeys x Hx [Hid Hkey].
    apply in_calculateChanges_attributes in Hx
      as (name' & coll' & rc & attrName' & attr' & Hcoll' & _ & Hattr' & Hrel' & _ & ->).
    simpl in Hid, Hkey. subst attrName'.
    assert (Heq : (name', coll') = (name, coll))
      by (eapply (NoDup_map_eq (fun entry : string * Collection =>
                                  toKebabCase entry.1)); eauto).
    inversion Heq; subst name' coll'.
    assert (Heq' : (attrName, attr') = (attrName, attr))
      by (eapply (NoDup_map_eq fst); eauto).
    inversion Heq'; subst attr'. congruence.
  - rewrite in_calculateRelationships. split.
    + intros (name' & coll' & attrName' & attr' & rel' & _ & _ & _ & Hnot & Heq).
      unfold relationshipCreate in Heq. injection Heq as Hid Hkey _ _ _ _.
      now rewrite Hid, Hkey.
    + intros Hnot. exists name, coll, attrName, attr, rel. auto.
Qed.

End DifferFacts.



(** ** The lock manager *)

Section LockFacts.
Context `{Crypto} `{Env}.

Lemma acquire_eq (fuel : nat) (lockId : string) (opts : AcquireOptions) :
  acquire fuel lockId opts =
  (let owner := acquireOwner opts in
   let ttlSeconds := default 600%Z (opt_ttlSeconds opts) in
   let documentId := lockDocId lockId in
   now ← newDate;
   let expiresAt := acquireExpiry opts now in
   created ←
     tryCatch
       (expires_at ← isoOfExpiry expiresAt;
        createLockDocument documentId (lockedDoc lockId owner now expires_at None);;
        ret true)
       (fun error =>
          if negb (bool_decide (errorStatus error = Some 409%Z)) then throw error
          else ret false);
   if created : bool then ret tt
   else
     existing ← getLockDocument documentId;
     match existing with
     | None =>
         match fuel with
         | O => fun w => (Diverge, w)
         | S fuel' =>
             acquire fuel' lockId
               {| opt_owner := owner; opt_ttlSeconds := Some ttlSeconds;
                  opt_force := opt_force opts |}
         end
     | Some existing =>
         expired ← isExpired existing;
         let sameOwner := strictEq (lock_owner existing) owner in
         if negb (opt_force opts) && negb expired && negb sameOwner then
           throw (LockHeldError lockId (orElse (lock_owner existing) "unknown")
                                (lock_created_at existing))
         else
           expires_at ← isoOfExpiry expiresAt;
           updateLockDocument documentId
             (fun d => lockedDoc lockId owner now expires_at (Some d))
     end).
Proof. destruct fuel; reflexivity. Qed.

Lemma bind_run {A B} (m : M A) (k : A -> M B) (w w' : World) (r : Result A) :
  m w = (r, w') ->
  bind m k w = match r with
               | Ok a => k a w'
               | Throw e => (Throw e, w')
               | Diverge => (Diverge, w')
               end.
Proof. intros Hm. unfold bind. rewrite Hm. now destruct r. Qed.

Lemma newDate_run (w : World) :
  newDate w = (Ok (clock (clockReads w)), tickClock w).
Proof. reflexivity. Qed.

Lemma getLockDocument_run (documentId : string) (w : World) :
  getLockDocument documentId w = (Ok (lockDocs w !! documentId), w).
Proof.
  unfold getLockDocument, tryCatch, bind, requestLockDocument, ret.
  now destruct (lockDocs w !! documentId).
Qed.

Lemma setLockDocs_id (w : World) (m : gmap string LockDoc) :
  m = lockDocs w -> setLockDocs (fun _ => m) w = w.
Proof. intros ->. now destruct w. Qed.

Lemma deleteLockDocument_run (documentId : string) (w : World) :
  deleteLockDocument documentId w = (Ok tt, setLockDocs (delete documentId) w).
Proof.
  unfold deleteLockDocument, tryCatch, requestDeleteLockDocument.
  destruct (lockDocs w !! documentId) eqn:Hdoc; [reflexivity|]. simpl.
  unfold ret. f_equal. destruct w; unfold setLockDocs; simpl in *.
  now rewrite delete_id.
Qed.

Lemma isoOfExpiry_run (expiresAt : option Z) (w : World) :
  isoOfExpiry expiresAt w
  = (if expiryInRange expiresAt then Ok expiresAt
     else Throw (RangeError "Invalid time value"), w).
Proof.
  destruct expiresAt as [t|]; [|reflexivity]. simpl.
  now destruct (inDateRange t).
Qed.

Lemma tryCreate_free (lockId : string) (owner : jsstr) (now : Z)
    (expiresAt : option Z) (w : World) :
  expiryInRange expiresAt = true ->
  lockDocs w !! lockDocId lockId = None ->
  tryCatch (expires_at ← isoOfExpiry expiresAt;
            createLockDocument (lockDocId lockId)
              (lockedDoc lockId owner now expires_at None);;
            ret true)
    (fun error =>
       if negb (bool_decide (errorStatus error = Some 409%Z)) then throw error
       else ret false) w
  = (Ok true,
     setLockDocs (insert (lockDocId lockId) (lockedDoc lockId owner now expiresAt None))
                 w).
Proof.
  intros Hvalid Hfree. unfold tryCatch, bind.
  rewrite isoOfExpiry_run, Hvalid. unfold createLockDocument, ret.
  now rewrite Hfree.
Qed.

Lemma tryCreate_taken (lockId : string) (owner : jsstr) (now : Z)
    (expiresAt : option Z) (existing : LockDoc) (w : World) :
  expiryInRange expiresAt = true ->
  lockDocs w !! lockDocId lockId = Some existing ->
  tryCatch (expires_at ← isoOfExpiry expiresAt;
            createLockDocument (lockDocId lockId)
              (lockedDoc lockId owner now expires_at None);;
            ret true)
    (fun error =>
       if negb (bool_decide (errorStatus error = Some 409%Z)) then throw error
       else ret false) w
  = (Ok false, w).
Proof.
  intros Hvalid Htaken. unfold tryCatch, bind.
  rewrite isoOfExpiry_run, Hvalid. unfold createLockDocument, ret.
  now rewrite Htaken.
Qed.

Lemma tryCreate_invalid (lockId : string) (owner : jsstr) (now : Z)
    (expiresAt : option Z) (w : World) :
  expiryInRange expiresAt = false ->
  tryCatch (expires_at ← isoOfExpiry expiresAt;
            createLockDocument (lockDocId lockId)
              (lockedDoc lockId owner now expires_at None);;
            ret true)
    (fun error =>
       if negb (bool_decide (errorStatus error = Some 409%Z)) then throw error
       else ret false) w
  = (Throw (RangeError "Invalid time value"), w).
Proof.
  intros Hinvalid. unfold tryCatch, bind.
  now rewrite isoOfExpiry_run, Hinvalid.
Qed.

Lemma isExpired_run (existing : LockDoc) (w : World) :
  isExpired existing w
  = (Ok (expiredAt existing (clock (clockReads w))),
     match lock_expires_at existing with
     | Some _ => tickClock w
     | None => w
     end).
Proof.
  unfold isExpired, expiredAt. now destruct (lock_expires_at existing).
Qed.

Lemma updateLockDocument_run (documentId : string) (patch : LockDoc -> LockDoc)
    (existing : LockDoc) (w : World) :
  lockDocs w !! documentId = Some existing ->
  updateLockDocument documentId patch w
  = (Ok tt, setLockDocs (insert documentId (patch existing)) w).
Proof. intros Hdoc. unfold updateLockDocument. now rewrite Hdoc. Qed.

(** An expiry that no [Date] can hold: the call throws before any request
    is sent, whatever the lock collection holds. *)
Lemma acquire_out_of_range (fuel : nat) (lockId : string) (opts : AcquireOptions)
    (w : World) :
  expiryInRange (acquireExpiry opts (clock (clockReads w))) = false ->
  acquire fuel lockId opts w
  = (Throw (RangeError "Invalid time value"), tickClock w).
Proof.
  intros Hinvalid. rewrite acquire_eq. cbv zeta.
  erewrite bind_run by apply newDate_run. cbv beta iota.
  erewrite bind_run by (apply tryCreate_invalid; exact Hinvalid).
  reflexivity.
Qed.

(** No record under the lock: one is created. *)
Lemma acquire_free (fuel : nat) (lockId : string) (opts : AcquireOptions)
    (w : World) :
  expiryInRange (acquireExpiry opts (clock (clockReads w))) = true ->
  lockDocs w !! lockDocId lockId = None ->
  acquire fuel lockId opts w
  = (Ok tt,
     setLockDocs
       (insert (lockDocId lockId)
          (lockedDoc lockId (acquireOwner opts) (clock (clockReads w))
             (acquireExpiry opts (clock (clockReads w))) None))
       (tickClock w)).
Proof.
  intros Hvalid Hfree. rewrite acquire_eq. cbv zeta.
  erewrite bind_run by apply newDate_run. cbv beta iota.
  erewrite bind_run by (apply tryCreate_free; [exact Hvalid | exact Hfree]).
  reflexivity.
Qed.

(** A record under the lock: the instant it is compared with is the next
    reading of the clock, taken only when the record has an expiry. *)
Lemma acquire_taken (fuel : nat) (lockId : string) (opts : AcquireOptions)
    (w : World) (existing : LockDoc) :
  expiryInRange (acquireExpiry opts (clock (clockReads w))) = true ->
  lockDocs w !! lockDocId lockId = Some existing ->
  let now := clock (clockReads w) in
  let w1 := match lock_expires_at existing with
            | Some _ => tickClock (tickClock w)
            | None => tickClock w
            end in
  acquire fuel lockId opts w
  = if opt_force opts
       || expiredAt existing (clock (S (clockReads w)))
       || strictEq (lock_owner existing) (acquireOwner opts)
    then (Ok tt,
          setLockDocs
            (insert (lockDocId lockId)
               (lockedDoc lockId (acquireOwner opts) now
                          (acquireExpiry opts now) (Some existing)))
            w1)
    else (Throw (LockHeldError lockId (orElse (lock_owner existing) "unknown")
                               (lock_created_at existing)),
          w1).
Proof.
  intros Hvalid Htaken. cbv zeta. rewrite acquire_eq. cbv zeta.
  erewrite bind_run by apply newDate_run. cbv beta iota.
  erewrite bind_run
    by (apply (tryCreate_taken _ _ _ _ existing); [exact Hvalid | exact Htaken]).
  cbv beta iota.
  erewrite bind_run by apply getLockDocument_run.
  change (lockDocs (tickClock w)) with (lockDocs w). rewrite Htaken. cbv beta iota.
  erewrite bind_run by apply isExpired_run. cbv beta iota.
  change (clockReads (tickClock w)) with (S (clockReads w)).
  assert (Hstill : lockDocs (match lock_expires_at existing with
                             | Some _ => tickClock (tickClock w)
                             | None => tickClock w
                             end) !! lockDocId lockId = Some existing)
    by (destruct (lock_expires_at existing); exact Htaken).
  assert (Hupdate : forall w0,
            lockDocs w0 !! lockDocId lockId = Some existing ->
            (expires_at ← isoOfExpiry (acquireExpiry opts (clock (clockReads w)));
             updateLockDocument (lockDocId lockId)
               (fun d => lockedDoc lockId (acquireOwner opts) (clock (clockReads w))
                                   expires_at (Some d))) w0
            = (Ok tt,
               setLockDocs
                 (insert (lockDocId lockId)
                    (lockedDoc lockId (acquireOwner opts) (clock (clockReads w))
                       (acquireExpiry opts (clock (clockReads w))) (Some existing)))
                 w0)).
  { intros w0 Hdoc. erewrite bind_run by apply isoOfExpiry_run.
    rewrite Hvalid. cbv beta iota.
    now rewrite (updateLockDocument_run _ _ existing) by exact Hdoc. }
  destruct (opt_force opts); cbn [negb andb orb].
  - now rewrite Hupdate by exact Hstill.
  - destruct (expiredAt existing _); cbn [negb andb orb].
    + now rewrite Hupdate by exact Hstill.
    + destruct (strictEq _ _); cbn [negb andb orb].
      * now rewrite Hupdate by exact Hstill.
      * reflexivity.
Qed.

Lemma lookup_lockedDoc (docId : string) (d : LockDoc) (w : World) :
  lockDocs (setLockDocs (insert docId d) w) !! docId = Some d.
Proof. simpl. apply lookup_insert_eq. Qed.

(** C1, as the code has it: when the expiry asked for (the clock's reading
    plus the time to live, 600 seconds unless given, none for a time to live
    of 0) is an instant a date can hold, [acquire] on a lock without record
    creates one in state [locked] and succeeds.  On a lock with a record it
    overwrites owner, status, creation instant and expiry and succeeds when
    [force] is set, or the record's owner is the caller's, or the record is
    expired: it has an expiry and the clock, read after the record was
    fetched, shows an instant strictly after it (a record without expiry
    never expires, and one whose expiry is the current instant is still
    held).  Otherwise it fails with the contention error that names the
    holder, and the record stays as it was.  When the expiry asked for is
    out of the range of a date, [acquire] throws the [RangeError] of
    [toISOString] before any request, and the lock collection stays as it
    was. *)
Theorem acquire_spec (fuel : nat) (lockId : string) (opts : AcquireOptions)
    (w : World) :
  let docId := lockDocId lockId in
  let now := clock (clockReads w) in
  let written :=
    lockedDoc lockId (acquireOwner opts) now (acquireExpiry opts now) in
  exists w',
    if expiryInRange (acquireExpiry opts now) then
      match lockDocs w !! docId with
      | None =>
          acquire fuel lockId opts w = (Ok tt, w')
          /\ lockDocs w' = <[docId := written None]> (lockDocs w)
          /\ lock_status (written None) = "locked"
      | Some existing =>
          if opt_force opts
             || expiredAt existing (clock (S (clockReads w)))
             || strictEq (lock_owner existing) (acquireOwner opts)
          then
            acquire fuel lockId opts w = (Ok tt, w')
            /\ lockDocs w' = <[docId := written (Some existing)]> (lockDocs w)
          else
            acquire fuel lockId opts w
            = (Throw (LockHeldError lockId (orElse (lock_owner existing) "unknown")
                                    (lock_created_at existing)), w')
            /\ lockDocs w' = lockDocs w
      end
    else
      acquire fuel lockId opts w = (Throw (RangeError "Invalid time value"), w')
      /\ lockDocs w' = lockDocs w.
Proof.
  cbv zeta.
  destruct (expiryInRange (acquireExpiry opts (clock (clockReads w)))) eqn:Hvalid.
  - destruct (lockDocs w !! lockDocId lockId) as [existing|] eqn:Hdoc.
    + pose proof (acquire_taken fuel lockId opts w existing Hvalid Hdoc) as Hrun.
      cbv zeta in Hrun.
      destruct (opt_force opts || expiredAt existing _ || strictEq _ _);
        eexists; (split; [exact Hrun|]);
        destruct (lock_expires_at existing); reflexivity.
    + eexists. split; [now apply acquire_free|]. split; reflexivity.
  - eexists. split; [now apply acquire_out_of_range|reflexivity].
Qed.

(** The three ways a call of [acquire] can go. *)
Lemma acquire_cases (fuel : nat) (lockId : string) (opts : AcquireOptions)
    (w : World) :
  let now := clock (clockReads w) in
  (expiryInRange (acquireExpiry opts now) = false
   /\ acquire fuel lockId opts w
      = (Throw (RangeError "Invalid time value"), tickClock w))
  \/ (expiryInRange (acquireExpiry opts now) = true
      /\ lockDocs w !! lockDocId lockId = None
      /\ acquire fuel lockId opts w
         = (Ok tt,
            setLockDocs
              (insert (lockDocId lockId)
                 (lockedDoc lockId (acquireOwner opts) now
                            (acquireExpiry opts now) None))
              (tickClock w)))
  \/ (exists existing,
        expiryInRange (acquireExpiry opts now) = true
        /\ lockDocs w !! lockDocId lockId = Some existing
        /\ acquire fuel lockId opts w
           = if opt_force opts
                || expiredAt existing (clock (S (clockReads w)))
                || strictEq (lock_owner existing) (acquireOwner opts)
             then (Ok tt,
                   setLockDocs
                     (insert (lockDocId lockId)
                        (lockedDoc lockId (acquireOwner opts) now
                                   (acquireExpiry opts now) (Some existing)))
                     (match lock_expires_at existing with
                      | Some _ => tickClock (tickClock w)
                      | None => tickClock w
                      end))
             else (Throw (LockHeldError lockId
                            (orElse (lock_owner existing) "unknown")
                            (lock_created_at existing)),
                   match lock_expires_at existing with
                   | Some _ => tickClock (tickClock w)
                   | None => tickClock w
                   end)).
Proof.
  cbv zeta.
  destruct (expiryInRange (acquireExpiry opts (clock (clockReads w)))) eqn:Hvalid.
  - destruct (lockDocs w !! lockDocId lockId) as [existing|] eqn:Hdoc.
    + right. right. exists existing. split; [reflexivity|]. split; [reflexivity|].
      now apply acquire_taken.
    + right. left. split; [reflexivity|]. split; [reflexivity|].
      now apply acquire_free.
  - left. split; [reflexivity|]. now apply acquire_out_of_range.
Qed.

(** After a successful [acquire] the record is there, in state [locked],
    and names the caller. *)
Lemma acquire_ok_holds (fuel : nat) (lockId : string) (opts : AcquireOptions)
    (w w1 : World) :
  acquire fuel lockId opts w = (Ok tt, w1) ->
  exists d,
    lockDocs w1 !! lockDocId lockId = Some d
    /\ lock_owner d = acquireOwner opts
    /\ lock_status d = "locked".
Proof.
  intros Hrun.
  destruct (acquire_cases fuel lockId opts w)
    as [[_ Hacq]|[(_ & _ & Hacq)|(existing & _ & _ & Hacq)]];
    rewrite Hacq in Hrun.
  - discriminate.
  - injection Hrun as <-. eexists. split; [apply lookup_lockedDoc|]. now split.
  - destruct (opt_force opts || expiredAt existing _ || strictEq _ _);
      [|discriminate].
    injection Hrun as <-. eexists. split; [apply lookup_lockedDoc|]. now split.
Qed.

(** [acquire] touches nothing but the lock collection and the clock, and
    always returns or throws. *)
Lemma acquire_frame (fuel : nat) (lockId : string) (opts : AcquireOptions)
    (w : World) :
  (acquire fuel lockId opts w).1 <> Diverge
  /\ stateDocs (acquire fuel lockId opts w).2 = stateDocs w
  /\ calls (acquire fuel lockId opts w).2 = calls w
  /\ console (acquire fuel lockId opts w).2 = console w
  /\ remote (acquire fuel lockId opts w).2 = remote w.
Proof.
  destruct (acquire_cases fuel lockId opts w)
    as [[_ Hacq]|[(_ & _ & Hacq)|(existing & _ & _ & Hacq)]];
    rewrite Hacq.
  - simpl. repeat split; discriminate.
  - simpl. repeat split; discriminate.
  - destruct (opt_force opts || expiredAt existing _ || strictEq _ _);
      destruct (lock_expires_at existing); simpl; repeat split; discriminate.
Qed.

Lemma strictEq_refl (v : jsstr) : strictEq v v = true.
Proof. destruct v; simpl; auto. apply String.eqb_refl. Qed.

Lemma release_run (lockId : string) (owner : jsstr) (w : World) :
  release lockId owner w
  = match lockDocs w !! lockDocId lockId with
    | None => (Ok tt, w)
    | Some existing =>
        if truthy owner && truthy (lock_owner existing)
           && negb (strictEq (lock_owner existing) owner)
        then (Throw (PlainError ("Cannot release lock '" +:+ lockId
                                 +:+ "' held by " +:+ render (lock_owner existing))),
              w)
        else (Ok tt, setLockDocs (delete (lockDocId lockId)) w)
    end.
Proof.
  unfold release. cbv zeta.
  erewrite bind_run by apply getLockDocument_run. cbv beta iota.
  destruct (lockDocs w !! lockDocId lockId) as [existing|]; [|reflexivity].
  destruct (truthy owner && truthy (lock_owner existing) && negb _);
    [reflexivity | apply deleteLockDocument_run].
Qed.

(** Releasing with the owner that [acquire] was called with always goes
    through. *)
Lemma release_own (lockId : string) (opts : AcquireOptions) (d : LockDoc)
    (w : World) :
  lockDocs w !! lockDocId lockId = Some d ->
  lock_owner d = acquireOwner opts ->
  release lockId (opt_owner opts) w
  = (Ok tt, setLockDocs (delete (lockDocId lockId)) w).
Proof.
  intros Hdoc Howner. rewrite release_run, Hdoc, Howner.
  unfold acquireOwner. destruct (opt_owner opts) as [| |o]; simpl; try reflexivity.
  now rewrite String.eqb_refl, andb_false_r.
Qed.

(** C2, as the code has it: [release] on a lock without record succeeds and
    changes nothing; it fails when the caller names an owner, the record
    has one, and the two differ; in every other case, which includes a
    caller that names no owner, the record is deleted.  So after a
    successful [acquire], a [release] by the same owner leaves no record,
    and a following [acquire] by anyone succeeds and holds the lock when
    the expiry it asks for is an instant a date can hold; when it is not,
    that [acquire] throws the [RangeError] and the lock stays without
    record. *)
Theorem release_spec (fuel : nat) (lockId : string) (optsA optsB : AcquireOptions)
    (w w1 : World) (owner : jsstr) (w0 : World) :
  acquire fuel lockId optsA w = (Ok tt, w1) ->
  let docId := lockDocId lockId in
  match lockDocs w0 !! docId with
  | None => release lockId owner w0 = (Ok tt, w0)
  | Some existing =>
      if truthy owner && truthy (lock_owner existing)
         && negb (strictEq (lock_owner existing) owner)
      then exists e, release lockId owner w0 = (Throw e, w0)
      else release lockId owner w0 = (Ok tt, setLockDocs (delete docId) w0)
           /\ lockDocs (setLockDocs (delete docId) w0) !! docId = None
  end
  /\ exists w2 w3,
       release lockId (opt_owner optsA) w1 = (Ok tt, w2)
       /\ lockDocs w2 !! docId = None
       /\ if expiryInRange (acquireExpiry optsB (clock (clockReads w2))) then
            acquire fuel lockId optsB w2 = (Ok tt, w3)
            /\ exists d, lockDocs w3 !! docId = Some d
                         /\ lock_owner d = acquireOwner optsB
          else
            acquire fuel lockId optsB w2
            = (Throw (RangeError "Invalid time value"), w3)
            /\ lockDocs w3 !! docId = None.
Proof.
  intros Hacq. cbv zeta. split.
  - rewrite release_run.
    destruct (lockDocs w0 !! lockDocId lockId) as [existing|]; [|reflexivity].
    destruct (truthy owner && truthy (lock_owner existing) && negb _).
    + eexists; reflexivity.
    + split; [reflexivity|]. simpl. apply lookup_delete_eq.
  - destruct (acquire_ok_holds _ _ _ _ _ Hacq) as (d & Hdoc & Howner & _).
    assert (Hfree : lockDocs (setLockDocs (delete (lockDocId lockId)) w1)
                      !! lockDocId lockId = None)
      by (simpl; apply lookup_delete_eq).
    set (w2 := setLockDocs (delete (lockDocId lockId)) w1) in *.
    destruct (expiryInRange (acquireExpiry optsB (clock (clockReads w2))))
      eqn:Hvalid.
    + exists w2. eexists. split; [now apply (release_own _ _ d)|].
      split; [exact Hfree|]. rewrite Hvalid.
      split; [now apply acquire_free|].
      eexists. split; [apply lookup_lockedDoc|reflexivity].
    + exists w2. eexists. split; [now apply (release_own _ _ d)|].
      split; [exact Hfree|]. rewrite Hvalid.
      split; [now apply acquire_out_of_range|exact Hfree].
Qed.

End LockFacts.

(** ** Scoped locking *)

Section ScopedLocking.
Context `{Crypto} `{Env}.

Lemma leaves_ret {A} (a : A) : leavesLocksAlone (ret a).
Proof. intros w. split; [reflexivity | discriminate]. Qed.

Lemma leaves_throw {A} (e : Error) : leavesLocksAlone (throw (A := A) e).
Proof. intros w. split; [reflexivity | discriminate]. Qed.

Lemma leaves_log (line : string) : leavesLocksAlone (log line).
Proof. intros w. split; [reflexivity | discriminate]. Qed.

Lemma leaves_bind {A B} (m : M A) (k : A -> M B) :
  leavesLocksAlone m -> (forall a, leavesLocksAlone (k a)) ->
  leavesLocksAlone (bind m k).
Proof.
  intros Hm Hk w. unfold bind. destruct (Hm w) as [Hl Hd].
  destruct (m w) as [[a|e|] w1]; simpl in *.
  - destruct (Hk a w1) as [Hl' Hd']. split; [congruence | assumption].
  - split; [assumption | discriminate].
  - contradiction.
Qed.

Lemma leaves_tryCatch {A} (m : M A) (handler : Error -> M A) :
  leavesLocksAlone m -> (forall e, leavesLocksAlone (handler e)) ->
  leavesLocksAlone (tryCatch m handler).
Proof.
  intros Hm Hh w. unfold tryCatch. destruct (Hm w) as [Hl Hd].
  destruct (m w) as [[a|e|] w1]; simpl in *.
  - split; [assumption | discriminate].
  - destruct (Hh e w1) as [Hl' Hd']. split; [congruence | assumption].
  - contradiction.
Qed.

Lemma leaves_forEach {A} (xs : list A) (body : A -> M unit) :
  (forall x, leavesLocksAlone (body x)) -> leavesLocksAlone (forEach xs body).
Proof.
  intros Hbody. induction xs as [|x xs IH]; simpl.
  - apply leaves_ret.
  - apply leaves_bind; [apply Hbody | intros _; exact IH].
Qed.

Lemma leaves_runCommand (c : Command) : leavesLocksAlone (runCommand c).
Proof.
  intros w. unfold runCommand.
  destruct (execSync (calls w) c) as [[st err]|]; split;
    solve [reflexivity | discriminate].
Qed.

Lemma leaves_requestIndex (r : IndexRequest) : leavesLocksAlone (requestIndex r).
Proof.
  intros w. unfold requestIndex.
  destruct (postIndex (calls w) r) as [[st msg]|]; split;
    solve [reflexivity | discriminate].
Qed.

Lemma leaves_newDate : leavesLocksAlone newDate.
Proof. intros w. split; [reflexivity | discriminate]. Qed.

Lemma leaves_drawUUID : leavesLocksAlone drawUUID.
Proof. intros w. split; [reflexivity | discriminate]. Qed.

Lemma leaves_describe : leavesLocksAlone describe.
Proof. intros w. split; [reflexivity | discriminate]. Qed.

Lemma leaves_prompt (question : string) : leavesLocksAlone (prompt question).
Proof. intros w. split; [reflexivity | discriminate]. Qed.

Lemma leaves_listStateDocuments : leavesLocksAlone listStateDocuments.
Proof. intros w. split; [reflexivity | discriminate]. Qed.

Lemma leaves_createStateDocument (data : StateDoc) :
  leavesLocksAlone (createStateDocument data).
Proof.
  intros w. unfold createStateDocument.
  destruct (findDoc _ _); split; solve [reflexivity | discriminate].
Qed.

Lemma leaves_updateStateDocument (documentId : string)
    (patch : StateDoc -> StateDoc) :
  leavesLocksAlone (updateStateDocument documentId patch).
Proof.
  intros w. unfold updateStateDocument.
  destruct (findDoc _ _); split; solve [reflexivity | discriminate].
Qed.

Lemma leaves_requestDeleteStateDocument (documentId : string) :
  leavesLocksAlone (requestDeleteStateDocument documentId).
Proof.
  intros w. unfold requestDeleteStateDocument.
  destruct (findDoc _ _); split; solve [reflexivity | discriminate].
Qed.

Create HintDb locks discriminated.
#[local] Hint Resolve leaves_ret leaves_throw leaves_log leaves_runCommand
  leaves_requestIndex leaves_newDate leaves_drawUUID leaves_describe
  leaves_prompt leaves_listStateDocuments leaves_createStateDocument
  leaves_updateStateDocument leaves_requestDeleteStateDocument : locks.

(** Breaks a computation into pieces that the hints cover. *)
Ltac leaves_locks :=
  repeat first
    [ solve [auto 1 with locks nocore]
    | apply leaves_bind; [|intros ?]
    | apply leaves_tryCatch; [|intros ?]
    | apply leaves_forEach; intros ?
    | match goal with
      | |- leavesLocksAlone (if ?b then _ else _) => destruct b
      | |- leavesLocksAlone (match ?x with _ => _ end) => destruct x
      end ].

Lemma leaves_buildAttributeCommand (dbId : string) (attr : AttributeCreate) :
  leavesLocksAlone (buildAttributeCommand dbId attr).
Proof. unfold buildAttributeCommand. cbv zeta. leaves_locks. Qed.

Lemma leaves_ensureIndex (r : IndexRequest) : leavesLocksAlone (ensureIndex r).
Proof. unfold ensureIndex. leaves_locks. Qed.

#[local] Hint Resolve leaves_buildAttributeCommand leaves_ensureIndex : locks.

Lemma leaves_applyChanges (cfg : Config) (changes : ChangeSet) :
  leavesLocksAlone (applyChanges cfg changes).
Proof.
  unfold applyChanges, createCollectionStep, createAttributeStep, createIndexStep.
  cbv zeta. leaves_locks.
Qed.

Lemma leaves_recordHistory (payload : Payload) (status : string) :
  leavesLocksAlone (recordHistory payload status).
Proof. unfold recordHistory. cbv zeta. leaves_locks. Qed.

#[local] Hint Resolve leaves_applyChanges leaves_recordHistory : locks.

Lemma leaves_applyBody (cfg : Config) : leavesLocksAlone (applyBody cfg).
Proof. unfold applyBody, readSchema. cbv zeta. leaves_locks. Qed.

Lemma leaves_relationshipsBody (cfg : Config) :
  leavesLocksAlone (relationshipsBody cfg).
Proof.
  unfold relationshipsBody, readSchema, createRelationshipStep. cbv zeta.
  leaves_locks.
Qed.

Lemma leaves_rollbackBody (cfg : Config) : leavesLocksAlone (rollbackBody cfg).
Proof.
  unfold rollbackBody, latestHistory, deleteIndexStep, deleteAttributeStep,
    deleteCollectionStep, updateHistoryStatus.
  cbv zeta. leaves_locks.
Qed.

Lemma leaves_resetBody (cfg : Config) : leavesLocksAlone (resetBody cfg).
Proof.
  unfold resetBody, resetState, deleteStateDocument. cbv zeta. leaves_locks.
Qed.

Lemma leaves_bodyOf (cfg : Config) (command : Operation) :
  leavesLocksAlone (bodyOf cfg command).
Proof.
  destruct command; simpl;
    [ apply leaves_applyBody | apply leaves_relationshipsBody
    | apply leaves_rollbackBody | apply leaves_resetBody ].
Qed.

Lemma ensureConfig_run (cfg : Config) (w : World) :
  if isConfigured cfg then ensureConfig cfg w = (Ok tt, w)
  else exists e, ensureConfig cfg w = (Throw e, w).
Proof.
  unfold isConfigured, ensureConfig.
  destruct (truthy (appwriteProject cfg)); simpl; [|eexists; reflexivity].
  destruct (truthy (appwriteKey cfg)); simpl; [|eexists; reflexivity].
  destruct (truthy (databaseId cfg)); simpl; [reflexivity | eexists; reflexivity].
Qed.

Lemma run_eq (fuel : nat) (cfg : Config) (command : Operation) :
  run fuel cfg command
  = (ensureConfig cfg;; withLock fuel cfg (lockIdOf command) (bodyOf cfg command)).
Proof. now destruct command. Qed.

Lemma withLock_configured {A} (fuel : nat) (cfg : Config) (lockId : string)
    (fn : M A) :
  isConfigured cfg = true ->
  withLock fuel cfg lockId fn
  = (acquire fuel lockId (lockOptions cfg);;
     tryFinally fn (release lockId (Str (lockOwner cfg)))).
Proof.
  unfold isConfigured, withLock. intros Hcfg.
  apply andb_true_iff in Hcfg as [[Hp Hk]%andb_true_iff _].
  now rewrite Hp, Hk.
Qed.

(** C3: each mutating command ([apply], [relationships], [rollback],
    [reset]) takes the lock named after it, and no two of them share a
    lock.  With the configuration complete, the command first calls
    [acquire]; when that fails the command fails with the same error and
    nothing else has happened (no command run, no state document touched,
    no line printed).  When it succeeds the wrapped work runs with the lock
    record in place, naming this run as owner, and whatever the work does,
    return or throw, the record is deleted before the command returns with
    the work's outcome.  With the configuration incomplete the command
    throws before touching anything. *)
Theorem withLock_discipline (fuel : nat) (cfg : Config) (command : Operation)
    (w : World) :
  let lockId := lockIdOf command in
  let docId := lockDocId lockId in
  (forall other, lockIdOf other = lockId -> other = command)
  /\ if isConfigured cfg then
       match acquire fuel lockId (lockOptions cfg) w with
       | (Ok _, w1) =>
           (exists d, lockDocs w1 !! docId = Some d
                      /\ lock_owner d = Str (lockOwner cfg)
                      /\ lock_status d = "locked")
           /\ exists r w2,
                bodyOf cfg command w1 = (r, w2)
                /\ r <> Diverge
                /\ lockDocs w2 = lockDocs w1
                /\ run fuel cfg command w = (r, setLockDocs (delete docId) w2)
                /\ lockDocs (setLockDocs (delete docId) w2) !! docId = None
       | (Throw e, w1) =>
           run fuel cfg command w = (Throw e, w1)
           /\ calls w1 = calls w /\ stateDocs w1 = stateDocs w
           /\ console w1 = console w
       | (Diverge, _) => False
       end
     else exists e, run fuel cfg command w = (Throw e, w).
Proof.
  cbv zeta. split.
  - intros other; destruct other, command; simpl; congruence.
  - rewrite run_eq. pose proof (ensureConfig_run cfg w) as Hcfg.
    destruct (isConfigured cfg) eqn:Hconf.
    + erewrite bind_run by exact Hcfg. cbv beta iota.
      rewrite withLock_configured by exact Hconf.
      pose proof (acquire_frame fuel (lockIdOf command) (lockOptions cfg) w)
        as (Hnd & Hst & Hca & Hco & _).
      destruct (acquire fuel (lockIdOf command) (lockOptions cfg) w)
        as [[[]|e|] w1] eqn:Hacq; simpl in Hnd, Hst, Hca, Hco.
      * destruct (acquire_ok_holds _ _ _ _ _ Hacq) as (d & Hdoc & Howner & Hstatus).
        split; [exists d; auto|].
        destruct (leaves_bodyOf cfg command w1) as [Hlocks Hreturns].
        destruct (bodyOf cfg command w1) as [r w2] eqn:Hbody. simpl in *.
        exists r, w2. repeat split; auto.
        -- erewrite bind_run by exact Hacq. cbv beta iota.
           unfold tryFinally. rewrite Hbody.
           change (Str (lockOwner cfg)) with (opt_owner (lockOptions cfg)).
           rewrite (release_own _ (lockOptions cfg) d) by congruence.
           now destruct r.
        -- apply lookup_delete_eq.
      * erewrite bind_run by exact Hacq. auto.
      * contradiction.
    + destruct Hcfg as [e He]. exists e. unfold bind. now rewrite He.
Qed.

End ScopedLocking.

(** ** Applying a change set *)

Section ApplyFacts.
Context `{Crypto} `{Env}.

Lemma bind_unfold {A B} (m : M A) (k : A -> M B) (w : World) :
  bind m k w = match m w with
               | (Ok a, w') => k a w'
               | (Throw e, w') => (Throw e, w')
               | (Diverge, w') => (Diverge, w')
               end.
Proof. reflexivity. Qed.

Lemma forEach_cons {A} (x : A) (xs : list A) (body : A -> M unit) (w : World) :
  forEach (x :: xs) body w
  = match body x w with
    | (Ok _, w') => forEach xs body w'
    | (Throw e, w') => (Throw e, w')
    | (Diverge, w') => (Diverge, w')
    end.
Proof. reflexivity. Qed.

Lemma forEach_app {A} (xs ys : list A) (body : A -> M unit) (w : World) :
  forEach (xs ++ ys) body w = (forEach xs body;; forEach ys body) w.
Proof.
  revert w. induction xs as [|x xs IH]; intros w; [reflexivity|].
  rewrite <- app_comm_cons, bind_unfold, !forEach_cons.
  destruct (body x w) as [[[]|e|] w1]; auto.
Qed.

Lemma forEach_map {A B} (g : A -> B) (xs : list A) (body : B -> M unit) (w : World) :
  forEach (List.map g xs) body w = forEach xs (fun x => body (g x)) w.
Proof.
  revert w. induction xs as [|x xs IH]; intros w; [reflexivity|].
  simpl List.map. rewrite !forEach_cons.
  destruct (body (g x) w) as [[[]|e|] w1]; auto.
Qed.

(** [applyChanges] is one pass over the entities of the change set. *)
Lemma applyChanges_entities (cfg : Config) (changes : ChangeSet) (w : World) :
  applyChanges cfg changes w = forEach (entitiesOf changes) (createStep cfg) w.
Proof.
  unfold applyChanges, entitiesOf. cbv zeta.
  rewrite forEach_app, !bind_unfold, forEach_map.
  change (fun x => createStep cfg (CollectionEntity x))
    with (createCollectionStep (render (databaseId cfg))).
  destruct (forEach (cs_collections changes) _ w) as [[[]|e|] w1]; auto.
  rewrite forEach_app, !bind_unfold, forEach_map.
  change (fun x => createStep cfg (AttributeEntity x))
    with (createAttributeStep (render (databaseId cfg))).
  destruct (forEach (cs_attributes changes) _ w1) as [[[]|e|] w2]; auto.
  now rewrite forEach_map.
Qed.

(** A loop that got through a prefix goes on with the next element's round
    and stops for good when that round throws. *)
Lemma forEach_next {A} (done : list A) (x : A) (todo : list A)
    (body : A -> M unit) (w w1 : World) :
  forEach done body w = (Ok tt, w1) ->
  forEach (done ++ x :: todo) body w
  = match body x w1 with
    | (Ok _, w2) => forEach todo body w2
    | (Throw e, w2) => (Throw e, w2)
    | (Diverge, w2) => (Diverge, w2)
    end.
Proof.
  intros Hdone. rewrite forEach_app, bind_unfold, Hdone, forEach_cons.
  now destruct (body x w1) as [[[]|e|] w2].
Qed.

Lemma runCommand_run (c : Command) (w : World) :
  runCommand c w
  = (match failureOf (calls w) (CliCall c) with
     | Some e => Throw e
     | None => Ok tt
     end, addCall (CliCall c) w).
Proof. unfold runCommand, failureOf. now destruct (execSync _ _) as [[? ?]|]. Qed.

Lemma requestIndex_run (r : IndexRequest) (w : World) :
  requestIndex r w
  = (match failureOf (calls w) (IndexCall r) with
     | Some e => Throw e
     | None => Ok tt
     end, addCall (IndexCall r) w).
Proof. unfold requestIndex, failureOf. now destruct (postIndex _ _) as [[? ?]|]. Qed.

Lemma failureOf_cli_stderr (issued : list Call) (c : Command) (e : Error) :
  failureOf issued (CliCall c) = Some e -> exists st err, e = ExecError st err.
Proof.
  unfold failureOf. destruct (execSync _ _) as [[st err]|]; [|discriminate].
  intros [= <-]. eauto.
Qed.

Lemma failureOf_index_status (issued : list Call) (r : IndexRequest) (e : Error) :
  failureOf issued (IndexCall r) = Some e -> exists st msg, e = AppwriteError st msg.
Proof.
  unfold failureOf. destruct (postIndex _ _) as [[st msg]|]; [|discriminate].
  intros [= <-]. eauto.
Qed.

(** One round of the creation loops, by what the call comes back with. *)
Lemma createStep_run (cfg : Config) (e : Entity) (w : World) :
  match callOf cfg e with
  | None =>
      exists a, e = AttributeEntity a
                /\ createStep cfg e w
                   = (Throw (PlainError ("Unsupported attribute type: " +:+ ac_type a)),
                      w)
  | Some c =>
      exists w2,
        calls w2 = calls w ++ [c]
        /\ match failureOf (calls w) c with
           | None => createStep cfg e w = (Ok tt, w2)
           | Some error =>
               if toleratedOnCreate c error
               then createStep cfg e w = (Ok tt, w2)
               else createStep cfg e w = (Throw error, w2)
           end
  end.
Proof.
  destruct e as [coll|attr|idx]; simpl callOf.
  - unfold createStep, createCollectionStep, tryCatch, bind.
    rewrite runCommand_run.
    destruct (failureOf (calls w) _) as [error|] eqn:Hf; simpl.
    + destruct (stderrIncludes _ error); eexists; (split; [|reflexivity]); reflexivity.
    + eexists; (split; [|reflexivity]); reflexivity.
  - unfold createStep, createAttributeStep, buildAttributeCommand, tryCatch, bind.
    destruct (attrKindOf (ac_type attr)) as [kind|].
    + assert (Hcmd :
        (match kind with
         | KString =>
             ret (CreateAttribute KString (render (databaseId cfg))
                    (ac_collection_id attr) (ac_key attr)
                    (Some (match ac_size attr with
                           | Some n => if Z.eqb n 0 then 255%Z else n
                           | None => 255%Z
                           end)) (ac_required attr) (ac_array attr))
         | _ =>
             ret (CreateAttribute kind (render (databaseId cfg))
                    (ac_collection_id attr) (ac_key attr) None
                    (ac_required attr) (ac_array attr))
         end) w
        = (Ok (CreateAttribute kind (render (databaseId cfg))
                 (ac_collection_id attr) (ac_key attr)
                 (match kind with
                  | KString =>
                      Some (match ac_size attr with
                            | Some n => if Z.eqb n 0 then 255%Z else n
                            | None => 255%Z
                            end)
                  | _ => None
                  end) (ac_required attr) (ac_array attr)), w))
        by now destruct kind.
      cbv zeta. rewrite Hcmd. clear Hcmd. rewrite runCommand_run.
      destruct (failureOf (calls w) _) as [error|] eqn:Hf; simpl.
      * destruct (stderrIncludes _ error); eexists; (split; [|reflexivity]); reflexivity.
      * eexists; (split; [|reflexivity]); reflexivity.
    + exists attr. split; reflexivity.
  - unfold createStep, createIndexStep, ensureIndex, tryCatch, bind. cbv zeta.
    fold (indexRequestOf cfg idx).
    assert (Hdebug : forall line,
              exists w0, (if debug cfg then log line else ret tt) w = (Ok tt, w0)
                         /\ calls w0 = calls w).
    { intros line. destruct (debug cfg); eexists; split; reflexivity. }
    destruct (Hdebug ("creating index " +:+ ic_collection_id idx +:+ "."
                      +:+ sanitizeIndexKey (Str (ic_key idx)) +:+ " ("
                      +:+ ic_type idx +:+ ")")) as (w0 & -> & Hcalls).
    rewrite requestIndex_run, Hcalls.
    destruct (failureOf (calls w) _) as [error|] eqn:Hf; simpl.
    + destruct (failureOf_index_status _ _ _ Hf) as (st & msg & ->). simpl.
      case_bool_decide as Hst; simpl.
      * eexists; split; [|reflexivity]. simpl. now rewrite Hcalls.
      * rewrite bool_decide_eq_false_2 by assumption.
        eexists; split; [|reflexivity]. simpl. now rewrite Hcalls.
    + eexists; split; [|reflexivity]. simpl. now rewrite Hcalls.
Qed.

Lemma applyChanges_force (b : bool) (cfg : Config) (changes : ChangeSet) :
  applyChanges (withForce b cfg) changes = applyChanges cfg changes.
Proof. reflexivity. Qed.

(** C6, as the code has it: [applyChanges] creates the entities of the
    change set one after the other.  Take any entity [e] that the run
    reaches.  A creation call that fails as "already there" (for
    collections and attributes: the command's standard error contains
    [already exists]; for indexes: the endpoint answers 409) counts as
    done, like a call that succeeds, and the run goes on with the entities
    after [e].  Any other failure, and an attribute type without creation
    command, ends the run with that error, the later entities untouched.
    The [force] flag makes no difference to any of this. *)
Theorem applyChanges_spec (cfg : Config) (changes : ChangeSet) (w w1 : World)
    (done : list Entity) (e : Entity) (todo : list Entity) :
  entitiesOf changes = done ++ e :: todo ->
  forEach done (createStep cfg) w = (Ok tt, w1) ->
  (forall b, applyChanges (withForce b cfg) changes w = applyChanges cfg changes w)
  /\ match callOf cfg e with
     | None => exists error, applyChanges cfg changes w = (Throw error, w1)
     | Some c =>
         exists w2,
           calls w2 = calls w1 ++ [c]
           /\ match failureOf (calls w1) c with
              | None =>
                  applyChanges cfg changes w = forEach todo (createStep cfg) w2
              | Some error =>
                  if toleratedOnCreate c error
                  then applyChanges cfg changes w = forEach todo (createStep cfg) w2
                  else applyChanges cfg changes w = (Throw error, w2)
              end
     end.
Proof.
  intros Hsplit Hdone. split; [intros b; now rewrite applyChanges_force|].
  rewrite applyChanges_entities, Hsplit, (forEach_next _ _ _ _ _ _ Hdone).
  pose proof (createStep_run cfg e w1) as Hstep.
  destruct (callOf cfg e) as [c|].
  - destruct Hstep as (w2 & Hcalls & Hstep). exists w2. split; [exact Hcalls|].
    destruct (failureOf (calls w1) c) as [error|].
    + destruct (toleratedOnCreate c error); now rewrite Hstep.
    + now rewrite Hstep.
  - destruct Hstep as (a & _ & ->). eexists; reflexivity.
Qed.

End ApplyFacts.

(** ** Rolling back *)

Section RollbackFacts.
Context `{Crypto} `{Env}.

(** A teardown loop issues one delete command per element and goes on
    whatever the commands come back with. *)
Lemma deleteLoop_run {A} (mk : A -> Command) (okLine goneLine : A -> string)
    (xs : list A) (w : World) :
  exists w',
    forEach xs
      (fun x => tryCatch (runCommand (mk x);; log (okLine x))
                         (fun _ => log (goneLine x))) w
    = (Ok tt, w')
    /\ calls w' = calls w ++ List.map (fun x => CliCall (mk x)) xs
    /\ stateDocs w' = stateDocs w
    /\ lockDocs w' = lockDocs w
    /\ clockReads w' = clockReads w.
Proof.
  revert w. induction xs as [|x xs IH]; intros w.
  - exists w. simpl. rewrite app_nil_r. auto.
  - rewrite forEach_cons. unfold tryCatch at 1. rewrite bind_unfold, runCommand_run.
    destruct (failureOf (calls w) (CliCall (mk x))) as [error|].
    + destruct (IH (addLine (goneLine x) (addCall (CliCall (mk x)) w)))
        as (w' & Hrun & Hcalls & Hstate & Hlocks & Hclock).
      exists w'. simpl in *. rewrite Hrun, Hcalls, <- app_assoc. auto.
    + destruct (IH (addLine (okLine x) (addCall (CliCall (mk x)) w)))
        as (w' & Hrun & Hcalls & Hstate & Hlocks & Hclock).
      exists w'. simpl in *. rewrite Hrun, Hcalls, <- app_assoc. auto.
Qed.

Lemma findDoc_In (h : StateDoc) (docs : list StateDoc) :
  In h docs -> findDoc (doc_id h) docs <> None.
Proof.
  intros Hin Hnone. unfold findDoc in Hnone.
  apply (find_none _ _ Hnone) in Hin. now rewrite String.eqb_refl in Hin.
Qed.

Lemma updateHistoryStatus_run (h : StateDoc) (status : string) (w : World) :
  In h (stateDocs w) ->
  doc_id h = stateDocId "history" (doc_record_id h) ->
  updateHistoryStatus (doc_record_id h) status w
  = (Ok tt,
     setStateDocs
       (List.map (fun d => if String.eqb (doc_id d) (doc_id h)
                           then withStatus status (clock (clockReads w)) d else d))
       (tickClock w)).
Proof.
  intros Hin Hid. unfold updateHistoryStatus. cbv zeta.
  rewrite bind_unfold, newDate_run. unfold updateStateDocument.
  change (stateDocs (tickClock w)) with (stateDocs w). rewrite <- Hid.
  destruct (findDoc (doc_id h) (stateDocs w)) eqn:Hfind; [reflexivity|].
  now apply findDoc_In in Hin.
Qed.

(** The wrapped work of [rollback] on an applied [apply] entry. *)
Lemma rollbackBody_run (cfg : Config) (w : World) (h : StateDoc)
    (db checksum : string) (changes : CompactChanges) :
  dryRun cfg = false ->
  List.find (isHistoryWithStatus "applied") (stateDocs w) = Some h ->
  doc_payload h = Some (ApplyPayload db checksum changes) ->
  doc_id h = stateDocId "history" (doc_record_id h) ->
  exists w',
    rollbackBody cfg w = (Ok tt, w')
    /\ calls w' = calls w ++ rollbackCalls (render (databaseId cfg)) changes
    /\ stateDocs w'
       = List.map (fun d => if String.eqb (doc_id d) (doc_id h)
                            then withStatus "rolled_back" (clock (clockReads w)) d
                            else d)
                  (stateDocs w)
    /\ lockDocs w' = lockDocs w.
Proof.
  intros Hdry Hlatest Hpayload Hid.
  unfold rollbackBody, latestHistory, listStateDocuments.
  rewrite !bind_unfold. unfold ret at 1. rewrite Hlatest, Hpayload, Hdry.
  cbv zeta. rewrite bind_unfold. unfold log at 1.
  unfold deleteIndexStep, deleteAttributeStep, deleteCollectionStep.
  set (w0 := addLine "Rolling back last apply..." w).
  destruct (deleteLoop_run
              (fun idx => DeleteIndex (render (databaseId cfg))
                                      (ref_collection_id idx) (ref_key idx))
              (fun idx => "- index " +:+ entityLabel idx)
              (fun idx => "index already removed: " +:+ entityLabel idx)
              (cp_indexes changes) w0)
    as (wi & Hri & Hci & Hsi & Hli & Hti).
  rewrite bind_unfold, Hri.
  destruct (deleteLoop_run
              (fun attr => DeleteAttribute (render (databaseId cfg))
                                           (ref_collection_id attr) (ref_key attr))
              (fun attr => "- attribute " +:+ entityLabel attr)
              (fun attr => "attribute already removed: " +:+ entityLabel attr)
              (cp_attributes changes) wi)
    as (wa & Hra & Hca & Hsa & Hla & Hta).
  rewrite bind_unfold, Hra.
  destruct (deleteLoop_run
              (fun coll => DeleteCollection (render (databaseId cfg)) (cref_id coll))
              (fun coll => "- collection " +:+ cref_id coll)
              (fun coll => "collection already removed: " +:+ cref_id coll)
              (cp_collections changes) wa)
    as (wc & Hrc & Hcc & Hsc & Hlc & Htc).
  rewrite bind_unfold, Hrc.
  assert (Hin : In h (stateDocs wc)).
  { rewrite Hsc, Hsa, Hsi. now apply find_some in Hlatest as [? _]. }
  rewrite bind_unfold, (updateHistoryStatus_run h "rolled_back" wc Hin Hid).
  eexists. split; [reflexivity|]. simpl.
  rewrite Hcc, Hca, Hci, Hsc, Hsa, Hsi, Hlc, Hla, Hli, Htc, Hta, Hti.
  unfold rollbackCalls. rewrite <- !app_assoc. auto.
Qed.

(** C7, as the code has it: outside a dry run, when the most recent history
    entry with status [applied] is of type [apply], [rollback] issues the
    delete commands for its recorded indexes, then its recorded attributes,
    then its recorded collections, each list in recorded order.  What a
    delete command comes back with plays no part: a failure of any kind is
    reported as "already removed" and the run goes on (nothing is assumed
    here about the answers of the command line).  At the end the entry's
    status is set to [rolled_back]; the entry stays in the collection, and
    the lock taken for the rollback is released. *)
Theorem rollback_spec (fuel : nat) (cfg : Config) (w w1 : World) (h : StateDoc)
    (db checksum : string) (changes : CompactChanges) :
  isConfigured cfg = true ->
  dryRun cfg = false ->
  acquire fuel "schema-rollback" (lockOptions cfg) w = (Ok tt, w1) ->
  List.find (isHistoryWithStatus "applied") (stateDocs w) = Some h ->
  doc_payload h = Some (ApplyPayload db checksum changes) ->
  doc_id h = stateDocId "history" (doc_record_id h) ->
  exists w',
    rollback fuel cfg w = (Ok tt, w')
    /\ calls w' = calls w ++ rollbackCalls (render (databaseId cfg)) changes
    /\ stateDocs w'
       = List.map (fun d => if String.eqb (doc_id d) (doc_id h)
                            then withStatus "rolled_back" (clock (clockReads w1)) d
                            else d)
                  (stateDocs w)
    /\ In (withStatus "rolled_back" (clock (clockReads w1)) h) (stateDocs w')
    /\ List.length (stateDocs w') = List.length (stateDocs w)
    /\ lockDocs w' !! lockDocId "schema-rollback" = None.
Proof.
  intros Hconf Hdry Hacq Hlatest Hpayload Hid.
  pose proof (acquire_frame fuel "schema-rollback" (lockOptions cfg) w)
    as (_ & Hst & Hca & _ & _).
  rewrite Hacq in Hst, Hca. simpl in Hst, Hca.
  destruct (acquire_ok_holds _ _ _ _ _ Hacq) as (d & Hdoc & Howner & _).
  rewrite <- Hst in Hlatest.
  destruct (rollbackBody_run cfg w1 h db checksum changes Hdry Hlatest Hpayload Hid)
    as (w2 & Hbody & Hcalls & Hstate & Hlocks).
  exists (setLockDocs (delete (lockDocId "schema-rollback")) w2).
  split; [|split; [|split; [|split; [|split]]]].
  - unfold rollback. pose proof (ensureConfig_run cfg w) as Hcfg.
    rewrite Hconf in Hcfg. rewrite bind_unfold, Hcfg.
    rewrite withLock_configured by exact Hconf.
    rewrite bind_unfold, Hacq. unfold tryFinally. rewrite Hbody.
    change (Str (lockOwner cfg)) with (opt_owner (lockOptions cfg)).
    now rewrite (release_own _ (lockOptions cfg) d) by congruence.
  - simpl. now rewrite Hcalls, Hca.
  - simpl. now rewrite Hstate, Hst.
  - simpl. rewrite Hstate. apply in_map_iff. exists h.
    rewrite String.eqb_refl. split; [reflexivity|].
    now apply find_some in Hlatest as [? _].
  - simpl. now rewrite Hstate, List.length_map, Hst.
  - simpl. apply lookup_delete_eq.
Qed.

End RollbackFacts.

(** ** Identifiers, once more *)

Lemma lowerChar_not_upper (c : ascii) : isUpper (lowerChar c) = false.
Proof. destruct c as [[] [] [] [] [] [] [] []]; reflexivity. Qed.

Lemma lowerChar_idempotent (c : ascii) : lowerChar (lowerChar c) = lowerChar c.
Proof. destruct c as [[] [] [] [] [] [] [] []]; reflexivity. Qed.

Lemma lowerChar_separator (c : ascii) :
  isSeparator (lowerChar c) = isSeparator c.
Proof. destruct c as [[] [] [] [] [] [] [] []]; reflexivity. Qed.

Lemma collapseSeparators_none (inRun : bool) (s : string) :
  Js.forallb (fun c => negb (isSeparator c)) (collapseSeparators inRun s) = true.
Proof.
  revert inRun. induction s as [|c s IH]; intros inRun; [reflexivity|].
  simpl. fold (isSeparator c). destruct (isSeparator c) eqn:Hc.
  - destruct inRun; [apply IH|]. simpl. apply IH.
  - simpl. fold (isSeparator c). rewrite Hc. apply IH.
Qed.

Lemma forallb_map (p : ascii -> bool) (f : ascii -> ascii) (s : string) :
  Js.forallb p (Js.map f s) = Js.forallb (fun c => p (f c)) s.
Proof. induction s as [|c s IH]; simpl; [reflexivity | now rewrite IH]. Qed.

Lemma forallb_ext (p q : ascii -> bool) (s : string) :
  (forall c, p c = q c) -> Js.forallb p s = Js.forallb q s.
Proof. intros Hpq. induction s as [|c s IH]; simpl; [reflexivity | now rewrite Hpq, IH]. Qed.

Lemma forallb_and (p q : ascii -> bool) (s : string) :
  Js.forallb (fun c => p c && q c) s = Js.forallb p s && Js.forallb q s.
Proof.
  induction s as [|c s IH]; simpl; [reflexivity|]. rewrite IH.
  destruct (p c), (q c), (Js.forallb p s); reflexivity.
Qed.

Lemma hyphenate_no_upper (prev : bool) (s : string) :
  Js.forallb (fun c => negb (isUpper c)) s = true -> hyphenate prev s = s.
Proof.
  revert prev. induction s as [|c s IH]; intros prev; [reflexivity|].
  simpl. intros [Hc Hs]%andb_true_iff. apply negb_true_iff in Hc.
  rewrite Hc, andb_false_r. now rewrite IH.
Qed.

Lemma collapseSeparators_no_separator (s : string) :
  Js.forallb (fun c => negb (isSeparator c)) s = true ->
  collapseSeparators false s = s.
Proof.
  induction s as [|c s IH]; [reflexivity|].
  simpl. intros [Hc Hs]%andb_true_iff. apply negb_true_iff in Hc.
  unfold isSeparator in Hc. rewrite Hc. now rewrite IH.
Qed.

Lemma map_lowerChar_idempotent (s : string) :
  toLowerCase (toLowerCase s) = toLowerCase s.
Proof.
  unfold toLowerCase. induction s as [|c s IH]; simpl; [reflexivity|].
  now rewrite lowerChar_idempotent, IH.
Qed.

Lemma toKebabCase_no_upper (str : string) :
  Js.forallb (fun c => negb (isUpper c)) (toKebabCase str) = true.
Proof.
  unfold toKebabCase, toLowerCase. rewrite forallb_map.
  induction (collapseSeparators false (hyphenate false str)) as [|c s IH];
    simpl; [reflexivity|].
  now rewrite lowerChar_not_upper, IH.
Qed.

Lemma toKebabCase_no_separator (str : string) :
  Js.forallb (fun c => negb (isSeparator c)) (toKebabCase str) = true.
Proof.
  unfold toKebabCase, toLowerCase. rewrite forallb_map.
  rewrite (forallb_ext _ (fun c => negb (isSeparator c)))
    by (intros c; now rewrite lowerChar_separator).
  apply collapseSeparators_none.
Qed.

(** X1: a kebab-cased identifier holds no upper-case letter of [[A-Z]], no
    white space and no underscore, and kebab-casing it again gives the same
    identifier: ids derived from names that are ids already (the target of a
    relationship written as an id, say) stay as they are. *)
Theorem toKebabCase_stable (str : string) :
  Js.forallb (fun c => negb (isUpper c) && negb (isSeparator c)) (toKebabCase str)
  = true
  /\ toKebabCase (toKebabCase str) = toKebabCase str.
Proof.
  split.
  - now rewrite forallb_and, toKebabCase_no_upper, toKebabCase_no_separator.
  - unfold toKebabCase at 1.
    rewrite hyphenate_no_upper by apply toKebabCase_no_upper.
    rewrite collapseSeparators_no_separator by apply toKebabCase_no_separator.
    unfold toKebabCase. apply map_lowerChar_idempotent.
Qed.

Section KeyFacts.
Context `{Crypto}.

Lemma forallb_append (p : ascii -> bool) (a b : string) :
  Js.forallb p (a +:+ b) = Js.forallb p a && Js.forallb p b.
Proof.
  induction a as [|c a IH]; [reflexivity|].
  rewrite append_cons. simpl. now rewrite IH, andb_assoc.
Qed.

Lemma forallb_take (p : ascii -> bool) (n : nat) (s : string) :
  Js.forallb p s = true -> Js.forallb p (take n s) = true.
Proof.
  revert s. induction n as [|n IH]; intros [|c s]; simpl; auto.
  intros [Hc Hs]%andb_true_iff. now rewrite Hc, IH.
Qed.

Lemma stripLeading_alnum_head (s : string) :
  charIs isAlnum (headChar s) = true -> stripLeading s = s.
Proof.
  destruct s as [|c s]; [reflexivity|]. simpl. intros Hc.
  unfold stripLeading. simpl. now rewrite Hc.
Qed.

Lemma replaceDisallowed_keyChars_id (s : string) :
  Js.forallb isKeyChar s = true -> replaceDisallowed s = s.
Proof.
  induction s as [|c s IH]; [reflexivity|].
  simpl. intros [Hc Hs]%andb_true_iff.
  unfold replaceDisallowed in *. simpl. now rewrite Hc, IH.
Qed.

Lemma stripLeading_head (s : string) :
  stripLeading s = "" \/ charIs isAlnum (headChar (stripLeading s)) = true.
Proof.
  destruct (dropWhile_split (fun c => negb (isAlnum c)) s) as (_ & _ & _ & Hhd).
  fold (stripLeading s) in Hhd. destruct (stripLeading s) as [|c rest]; [now left|].
  right. simpl. now apply negb_false_iff.
Qed.

Lemma headChar_replaceDisallowed (s : string) :
  charIs isAlnum (headChar s) = true ->
  charIs isAlnum (headChar (replaceDisallowed s)) = true.
Proof.
  destruct s as [|c s]; [discriminate|]. simpl. intros Hc.
  now rewrite (isAlnum_isKeyChar c Hc).
Qed.

(** A key that is made of key characters, starts with a letter or digit
    and has at most 36 characters is left alone. *)
Lemma sanitizeIndexKey_fixed (k : string) :
  Js.forallb isKeyChar k = true ->
  charIs isAlnum (headChar k) = true ->
  String.length k <= 36 ->
  sanitizeIndexKey (Str k) = k.
Proof.
  intros Hchars Hhead Hlen. rewrite sanitizeIndexKey_unfold. cbv zeta.
  assert (Hne : isEmpty k = false) by (destruct k; [discriminate | reflexivity]).
  simpl orElse. rewrite Hne.
  rewrite stripLeading_alnum_head, replaceDisallowed_keyChars_id by assumption.
  rewrite Hne. apply Nat.leb_le in Hlen. now rewrite Hlen.
Qed.

(** A sanitised key is made of key characters and starts with a letter or
    digit, when the digest is rendered in key characters. *)
Lemma sanitizeIndexKey_shape (key : jsstr) :
  digestOfKeyChars ->
  Js.forallb isKeyChar (sanitizeIndexKey key) = true
  /\ charIs isAlnum (headChar (sanitizeIndexKey key)) = true.
Proof.
  intros Hdigest.
  rewrite sanitizeIndexKey_unfold. cbv zeta.
  set (replaced := replaceDisallowed (stripLeading (orElse key ""))).
  assert (Hcleaned :
    Js.forallb isKeyChar (if isEmpty replaced then "idx_hash" else replaced) = true
    /\ charIs isAlnum
         (headChar (if isEmpty replaced then "idx_hash" else replaced)) = true).
  { destruct (isEmpty replaced) eqn:He; [now split|].
    split; [apply replaceDisallowed_keyChars|].
    subst replaced. destruct (stripLeading_head (orElse key "")) as [Hnil|Hhd].
    - rewrite Hnil in He. discriminate.
    - now apply headChar_replaceDisallowed. }
  destruct (Nat.leb _ 36); [exact Hcleaned|].
  split; [|reflexivity].
  rewrite forallb_append. apply andb_true_iff. split; [reflexivity|].
  apply forallb_take, Hdigest.
Qed.

Lemma sanitizeIndexKey_again (key : jsstr) :
  digestOfKeyChars ->
  sanitizeIndexKey (Str (sanitizeIndexKey key)) = sanitizeIndexKey key.
Proof.
  intros Hdigest. destruct (sanitizeIndexKey_shape key Hdigest) as [Hchars Hhead].
  apply sanitizeIndexKey_fixed; [assumption..|apply sanitizeIndexKey_length].
Qed.

(** X2: when the digest is rendered in key characters (as a hexadecimal
    digest is), every sanitised index key is a valid key: made of
    [[A-Za-z0-9._-]] only and starting with a letter or digit.  Sanitising
    it again changes nothing. *)
Theorem sanitizeIndexKey_valid (key : jsstr) :
  digestOfKeyChars ->
  Js.forallb isKeyChar (sanitizeIndexKey key) = true
  /\ charIs isAlnum (headChar (sanitizeIndexKey key)) = true
  /\ sanitizeIndexKey (Str (sanitizeIndexKey key)) = sanitizeIndexKey key.
Proof.
  intros Hdigest. destruct (sanitizeIndexKey_shape key Hdigest) as [Hchars Hhead].
  repeat split; try assumption. now apply sanitizeIndexKey_again.
Qed.

Lemma remoteIndexMap_has_from (idxs : list RemoteIndex)
    (m : gmap string RemoteIndex) (k : string) :
  mapHas (fold_left (fun m i => <[ri_key i := i]> m) idxs m) k = true
  <-> In k (List.map ri_key idxs) \/ mapHas m k = true.
Proof.
  revert m. induction idxs as [|i idxs IH]; intros m; simpl.
  - tauto.
  - rewrite IH. unfold mapHas.
    destruct (decide (ri_key i = k)) as [->|Hne].
    + rewrite lookup_insert_eq. tauto.
    + rewrite lookup_insert_ne by assumption. tauto.
Qed.

Lemma remoteIndexMap_has (idxs : list RemoteIndex) (k : string) :
  mapHas (remoteIndexMap idxs) k = true <-> In k (List.map ri_key idxs).
Proof.
  unfold remoteIndexMap. rewrite remoteIndexMap_has_from.
  unfold mapHas. rewrite lookup_empty. intuition discriminate.
Qed.

Lemma remoteIndexMap_hasnt (idxs : list RemoteIndex) (k : string) :
  mapHas (remoteIndexMap idxs) k = false <-> ~ In k (List.map ri_key idxs).
Proof.
  rewrite <- remoteIndexMap_has. destruct (mapHas _ k); intuition congruence.
Qed.

Lemma in_indexDelta (collId : string) (rc : RemoteColl) (index : Index)
    (x : IndexCreate) :
  In x (indexDelta collId rc index)
  <-> ~ In (sanitizeIndexKey (Str (indexRawKey index)))
           (List.map ri_key (rc_indexes rc))
      /\ x = indexCreate collId index.
Proof.
  unfold indexDelta. destruct (mapHas _ _) eqn:Hhas; simpl.
  - apply remoteIndexMap_has in Hhas. tauto.
  - apply remoteIndexMap_hasnt in Hhas. intuition (auto; congruence).
Qed.

(** Where an emitted index comes from, in full. *)
Lemma in_calculateChanges_indexes_iff (schema : Schema)
    (remote : gmap string RemoteColl) (x : IndexCreate) :
  In x (cs_indexes (calculateChanges schema remote))
  <-> exists name coll rc index,
        In (name, coll) (collections schema)
        /\ remote !! toKebabCase name = Some rc
        /\ In index (coll_indexes coll)
        /\ ~ In (sanitizeIndexKey (Str (indexRawKey index)))
                (List.map ri_key (rc_indexes rc))
        /\ x = indexCreate (toKebabCase name) index.
Proof.
  rewrite calculateChanges_indexes, in_flat_map. split.
  - intros ([name coll] & Hin & Hx). simpl in Hx.
    destruct (remote !! toKebabCase name) as [rc|] eqn:Hrc; [|contradiction].
    apply in_flat_map in Hx as (index & Hidx & Hx).
    apply in_indexDelta in Hx as [Hnot ->].
    exists name, coll, rc, index. auto.
  - intros (name & coll & rc & index & Hin & Hrc & Hidx & Hnot & ->).
    exists (name, coll). split; [assumption|]. simpl. rewrite Hrc.
    apply in_flat_map. exists index. split; [assumption|].
    apply in_indexDelta. auto.
Qed.

(** X3: every index entry that [calculateChanges] emits belongs to a
    collection that exists remotely and bears a key that is not empty, has at
    most 36 characters and is not the key of any remote index of that
    collection.  When the digest is rendered in key characters, the key
    sent to the index endpoint by [applyChanges] and the key kept in the
    history record by [compactChanges] are this very key, so that a
    rollback names the index that was created. *)
Theorem emitted_index_keys (cfg : Config) (schema : Schema)
    (remote : gmap string RemoteColl) (x : IndexCreate) :
  In x (cs_indexes (calculateChanges schema remote)) ->
  (exists rc, remote !! ic_collection_id x = Some rc
              /\ ~ In (ic_key x) (List.map ri_key (rc_indexes rc)))
  /\ ic_key x <> ""
  /\ String.length (ic_key x) <= 36
  /\ (digestOfKeyChars ->
      ir_key (indexRequestOf cfg x) = ic_key x
      /\ In {| ref_collection_id := ic_collection_id x; ref_key := ic_key x |}
            (cp_indexes (compactChanges (calculateChanges schema remote)))).
Proof.
  intros Hx. pose proof Hx as Hin.
  apply in_calculateChanges_indexes_iff in Hx
    as (name & coll & rc & index & _ & Hrc & _ & Hnot & ->).
  simpl ic_collection_id. simpl ic_key.
  split; [exists rc; auto|].
  split; [apply sanitizeIndexKey_nonempty|].
  split; [apply sanitizeIndexKey_length|].
  intros Hdigest.
  pose proof (sanitizeIndexKey_again (Str (indexRawKey index)) Hdigest) as Hfix.
  split; [exact Hfix|].
  unfold compactChanges. simpl cp_indexes. apply in_map_iff.
  exists (indexCreate (toKebabCase name) index). split; [|exact Hin].
  simpl. now rewrite Hfix.
Qed.

Lemma flat_map_nil {A B} (f : A -> list B) (l : list A) :
  flat_map f l = [] <-> forall a, In a l -> f a = [].
Proof.
  induction l as [|a l IH]; simpl.
  - split; [intros _ ? [] | reflexivity].
  - split.
    + intros [Ha Hl]%app_eq_nil a' [<-|Hin]; [assumption|]. now apply IH.
    + intros Hall. rewrite (Hall a) by now left. apply IH. intros; apply Hall. now right.
Qed.

Lemma isEmptyChanges_spec (changes : ChangeSet) :
  isEmptyChanges changes = true
  <-> cs_collections changes = [] /\ cs_attributes changes = []
      /\ cs_indexes changes = [].
Proof.
  unfold isEmptyChanges. rewrite !andb_true_iff, !Nat.eqb_eq.
  destruct (cs_collections changes), (cs_attributes changes), (cs_indexes changes);
    simpl; intuition (try discriminate; try lia; auto).
Qed.

(** X4: [calculateChanges] comes back empty exactly when the remote state
    has every declared collection, every declared attribute that is not a
    relationship, and every declared index under its sanitised key: applying
    a schema that is fully there asks for nothing. *)
Theorem calculateChanges_converged (schema : Schema)
    (remote : gmap string RemoteColl) :
  isEmptyChanges (calculateChanges schema remote) = true
  <-> forall entry, In entry (collections schema) -> collectionInSync remote entry.
Proof.
  rewrite isEmptyChanges_spec.
  rewrite calculateChanges_collections, calculateChanges_attributes,
    calculateChanges_indexes.
  split.
  - intros (Hcolls & Hattrs & Hidxs) [name coll] Hin.
    pose proof (proj1 (flat_map_nil _ _) Hattrs _ Hin) as Hattrs'.
    pose proof (proj1 (flat_map_nil _ _) Hidxs _ Hin) as Hidxs'.
    clear Hattrs Hidxs. cbv beta in Hattrs', Hidxs'.
    change ((name, coll).1) with name in *. change ((name, coll).2) with coll in *.
    destruct (remote !! toKebabCase name) as [rc|] eqn:Hrc.
    + exists rc. split; [exact Hrc|].
      pose proof (proj1 (flat_map_nil _ _) Hattrs') as Hattrs.
      pose proof (proj1 (flat_map_nil _ _) Hidxs') as Hidxs.
      clear Hattrs' Hidxs'. split.
      * intros attrName attr Hattr Hrel.
        specialize (Hattrs _ Hattr). unfold attributeDelta in Hattrs.
        simpl in Hattrs. rewrite Hrel in Hattrs.
        destruct (mapHas _ attrName) eqn:Hhas; [|discriminate].
        now apply remoteAttributeMap_has.
      * intros index Hidx. specialize (Hidxs _ Hidx). unfold indexDelta in Hidxs.
        destruct (mapHas _ _) eqn:Hhas; [|discriminate].
        now apply remoteIndexMap_has.
    + exfalso.
      assert (Hcreate : In (collectionCreate name coll)
                (List.map (fun entry : string * Collection =>
                             collectionCreate entry.1 entry.2)
                          (List.filter (isAbsent remote) (collections schema)))).
      { apply in_map_iff. exists (name, coll). split; [reflexivity|].
        apply filter_In. split; [assumption|]. unfold isAbsent. simpl.
        now rewrite Hrc. }
      rewrite Hcolls in Hcreate. contradiction.
  - intros Hsync. split; [|split].
    + destruct (List.filter (isAbsent remote) (collections schema))
        as [|[name coll] rest] eqn:Hfilter; [reflexivity|].
      assert (Hin : In (name, coll) (List.filter (isAbsent remote) (collections schema)))
        by (rewrite Hfilter; now left).
      apply filter_In in Hin as [Hin Habsent].
      destruct (Hsync _ Hin) as (rc & Hrc & _). unfold isAbsent in Habsent.
      simpl in *. rewrite Hrc in Habsent. discriminate.
    + apply flat_map_nil. intros [name coll] Hin.
      destruct (Hsync _ Hin) as (rc & Hrc & Hattrs & _). simpl in *. rewrite Hrc.
      apply flat_map_nil. intros [attrName attr] Hattr. unfold attributeDelta. simpl.
      destruct (relationshipOf attr) eqn:Hrel; [reflexivity|].
      apply Hattrs in Hattr; [|assumption].
      apply remoteAttributeMap_has in Hattr. now rewrite Hattr.
    + apply flat_map_nil. intros [name coll] Hin.
      destruct (Hsync _ Hin) as (rc & Hrc & _ & Hidxs). simpl in *. rewrite Hrc.
      apply flat_map_nil. intros index Hidx. unfold indexDelta.
      apply Hidxs, remoteIndexMap_has in Hidx. now rewrite Hidx.
Qed.

End KeyFacts.

(** ** Index field lists, once more *)

Lemma append_assoc (a b c : string) : (a +:+ b) +:+ c = a +:+ (b +:+ c).
Proof. induction a as [|x a IH]; [reflexivity|]. now rewrite !append_cons, IH. Qed.

Lemma rev_append_spec (s acc : string) : rev_append s acc = Js.rev s +:+ acc.
Proof.
  revert acc. induction s as [|c s IH]; intros acc; [reflexivity|].
  unfold Js.rev. simpl. rewrite (IH (String c acc)), (IH (String c "")).
  now rewrite append_assoc.
Qed.

Lemma rev_cons (c : ascii) (s : string) : Js.rev (String c s) = Js.rev s +:+ String c "".
Proof. unfold Js.rev at 1. simpl. apply rev_append_spec. Qed.

Lemma lastChar_append (a b : string) :
  b <> "" -> lastChar (a +:+ b) = lastChar b.
Proof.
  intros Hb. induction a as [|c a IH]; [reflexivity|].
  rewrite append_cons. simpl. rewrite IH.
  destruct (a +:+ b) eqn:Heq; [|reflexivity].
  destruct a; [simpl in Heq; contradiction | discriminate].
Qed.

Lemma lastChar_rev (s : string) : lastChar (Js.rev s) = headChar s.
Proof.
  destruct s as [|c s]; [reflexivity|].
  rewrite rev_cons, lastChar_append by discriminate. reflexivity.
Qed.

Lemma headChar_append (a b : string) :
  headChar (a +:+ b) = match headChar a with Some c => Some c | None => headChar b end.
Proof. now destruct a. Qed.

Lemma lastChar_none (s : string) : lastChar s = None -> s = "".
Proof.
  induction s as [|c s IH]; [reflexivity|].
  simpl. destruct s; [discriminate|]. intros Hl. now apply IH in Hl.
Qed.

Lemma headChar_rev (s : string) : headChar (Js.rev s) = lastChar s.
Proof.
  induction s as [|c s IH]; [reflexivity|].
  rewrite rev_cons, headChar_append, IH.
  destruct s as [|x s']; [reflexivity|].
  change (lastChar (String c (String x s'))) with (lastChar (String x s')).
  destruct (lastChar (String x s')) eqn:Hl; [reflexivity|].
  now apply lastChar_none in Hl.
Qed.

Lemma dropWhile_head (p : ascii -> bool) (s : string) :
  charIs p (headChar (dropWhile p s)) = false.
Proof.
  destruct (dropWhile_split p s) as (_ & _ & _ & Hhd).
  now destruct (dropWhile p s).
Qed.

(** [trim] leaves no white space at either end. *)
Lemma trim_ends (s : string) :
  charIs isSpace (headChar (trim s)) = false
  /\ charIs isSpace (lastChar (trim s)) = false.
Proof.
  unfold trim. set (a := dropWhile isSpace s).
  split.
  - rewrite headChar_rev.
    destruct (dropWhile_split isSpace (Js.rev a)) as (pre & Heq & _ & _).
    destruct (dropWhile isSpace (Js.rev a)) as [|c b] eqn:Hb; [reflexivity|].
    rewrite <- (lastChar_append pre (String c b)) by discriminate.
    rewrite <- Heq, lastChar_rev. apply dropWhile_head.
  - rewrite lastChar_rev. apply dropWhile_head.
Qed.

Lemma in_indexTokens (fieldString token : string) :
  In token (indexTokens fieldString) ->
  token <> ""
  /\ charIs isSpace (headChar token) = false
  /\ charIs isSpace (lastChar token) = false.
Proof.
  unfold indexTokens. intros [Hin Hne]%filter_In.
  apply in_map_iff in Hin as (part & <- & _).
  split; [|apply trim_ends].
  intros Heq. rewrite Heq in Hne. discriminate.
Qed.

Lemma in_fieldTokens (tokens : list string) (f : string) :
  In f (fieldTokens tokens) -> In f tokens.
Proof.
  destruct tokens as [|t tokens]; [contradiction|].
  simpl. intros [->|Hin]; [now left|]. right. now apply filter_In in Hin as [? _].
Qed.

Lemma parseIndexFields_orders_domain (tokens : list string) (fields : list string)
    (orders : list (option string)) :
  List.length fields = List.length orders ->
  Forall (fun o => o = None \/ o = Some "ASC" \/ o = Some "DESC") orders ->
  Forall (fun o => o = None \/ o = Some "ASC" \/ o = Some "DESC")
         (fold_left parseIndexFields_step tokens (fields, orders)).2.
Proof.
  revert fields orders.
  induction tokens as [|t tokens IH]; intros fields orders Hlen Hdom; [exact Hdom|].
  rewrite fold_left_cons.
  destruct (isOrderToken t) eqn:Ht; destruct fields as [|f fields].
  - rewrite parseIndexFields_step_field by auto. apply IH.
    + rewrite !length_app. simpl in *. lia.
    + apply Forall_app. split; [assumption|]. repeat constructor.
  - rewrite parseIndexFields_step_order by (auto; discriminate).
    rewrite arraySet_in_range by (simpl in *; lia). apply IH.
    + now rewrite length_insert.
    + apply Forall_insert; [assumption|]. unfold orderName.
      destruct (String.eqb _ "desc"); auto.
  - rewrite parseIndexFields_step_field by auto. apply IH.
    + rewrite !length_app. simpl in *. lia.
    + apply Forall_app. split; [assumption|]. repeat constructor.
  - rewrite parseIndexFields_step_field by auto. apply IH.
    + rewrite !length_app. simpl in *. lia.
    + apply Forall_app. split; [assumption|]. repeat constructor.
Qed.

(** X5: whatever stands between the brackets of an [@@index] or
    [@@unique] line, every field that [parseIndexFields] returns is a
    non-empty name without white space at either end (empty entries, as
    between two commas, are dropped), every order it returns is null,
    [ASC] or [DESC], and there is one order per field. *)
Theorem parseIndexFields_wellformed (fieldString : string) :
  Forall (fun f => f <> ""
                   /\ charIs isSpace (headChar f) = false
                   /\ charIs isSpace (lastChar f) = false)
         (parseIndexFields fieldString).1
  /\ Forall (fun o => o = None \/ o = Some "ASC" \/ o = Some "DESC")
            (parseIndexFields fieldString).2
  /\ List.length (parseIndexFields fieldString).2
     = List.length (parseIndexFields fieldString).1.
Proof.
  unfold parseIndexFields. split; [|split].
  - rewrite parseIndexTokens_fields. apply List.Forall_forall. intros f Hf.
    apply in_fieldTokens in Hf. now apply in_indexTokens in Hf.
  - apply parseIndexFields_orders_domain; [reflexivity | constructor].
  - symmetry. now apply parseIndexFields_lengths.
Qed.

(** ** Frames *)

Section Frames.
Context `{Crypto} `{Env}.

Lemma preserves_ret {X A} (aspect : World -> X) (a : A) : preserves aspect (ret a).
Proof. intros w. reflexivity. Qed.

Lemma preserves_throw {X A} (aspect : World -> X) (e : Error) :
  preserves aspect (throw (A := A) e).
Proof. intros w. reflexivity. Qed.

Lemma preserves_bind {X A B} (aspect : World -> X) (m : M A) (k : A -> M B) :
  preserves aspect m -> (forall a, preserves aspect (k a)) ->
  preserves aspect (bind m k).
Proof.
  intros Hm Hk w. rewrite bind_unfold. specialize (Hm w).
  destruct (m w) as [[a|e|] w1]; simpl in *; [|assumption..].
  now rewrite Hk.
Qed.

Lemma preserves_tryCatch {X A} (aspect : World -> X) (m : M A)
    (handler : Error -> M A) :
  preserves aspect m -> (forall e, preserves aspect (handler e)) ->
  preserves aspect (tryCatch m handler).
Proof.
  intros Hm Hh w. unfold tryCatch. specialize (Hm w).
  destruct (m w) as [[a|e|] w1]; simpl in *; [assumption| |assumption].
  now rewrite Hh.
Qed.

Lemma preserves_forEach {X A} (aspect : World -> X) (xs : list A)
    (body : A -> M unit) :
  (forall x, preserves aspect (body x)) -> preserves aspect (forEach xs body).
Proof.
  intros Hbody. induction xs as [|x xs IH]; simpl.
  - apply preserves_ret.
  - apply preserves_bind; [apply Hbody | intros _; exact IH].
Qed.

Lemma keeps_ret {A} (inv : World -> Prop) (a : A) : keeps inv (ret a).
Proof. intros w Hw. exact Hw. Qed.

Lemma keeps_bind {A B} (inv : World -> Prop) (m : M A) (k : A -> M B) :
  keeps inv m -> (forall a, keeps inv (k a)) -> keeps inv (bind m k).
Proof.
  intros Hm Hk w Hw. rewrite bind_unfold. specialize (Hm w Hw).
  destruct (m w) as [[a|e|] w1]; simpl in *; [|assumption..].
  now apply Hk.
Qed.

Lemma keeps_tryCatch {A} (inv : World -> Prop) (m : M A) (handler : Error -> M A) :
  keeps inv m -> (forall e, keeps inv (handler e)) -> keeps inv (tryCatch m handler).
Proof.
  intros Hm Hh w Hw. unfold tryCatch. specialize (Hm w Hw).
  destruct (m w) as [[a|e|] w1]; simpl in *; [assumption| |assumption].
  now apply Hh.
Qed.

Lemma keeps_forEach {A} (inv : World -> Prop) (xs : list A) (body : A -> M unit) :
  (forall x, keeps inv (body x)) -> keeps inv (forEach xs body).
Proof.
  intros Hbody. induction xs as [|x xs IH]; simpl.
  - apply keeps_ret.
  - apply keeps_bind; [apply Hbody | intros _; exact IH].
Qed.

(** What leaves the state collection alone keeps its ids distinct. *)
Lemma keeps_of_preserves {A} (m : M A) :
  preserves stateDocs m -> keeps uniqueStateIds m.
Proof. intros Hm w Hw. unfold uniqueStateIds. now rewrite Hm. Qed.

End Frames.

(** Settles that a primitive leaves an aspect alone, by cases on what
    the world holds and the services answer. *)
Ltac frame_primitive :=
  let w := fresh "w" in
  intros w;
  unfold ret, throw, log, newDate, drawUUID, describe, prompt, readSchema,
    listStateDocuments, runCommand, requestIndex, createStateDocument,
    updateStateDocument, requestDeleteStateDocument, requestStateDocument,
    ensureConfig;
  repeat match goal with
         | |- context [match ?x with _ => _ end] => destruct x
         end;
  reflexivity.

(** Breaks a computation into primitives and settles each. *)
Ltac frame :=
  repeat first
    [ lazymatch goal with
      | |- preserves _ (bind _ _) => apply preserves_bind; [|intros ?]
      | |- preserves _ (tryCatch _ _) => apply preserves_tryCatch; [|intros ?]
      | |- preserves _ (forEach _ _) => apply preserves_forEach; intros ?
      | |- preserves _ (if ?b then _ else _) => destruct b
      | |- preserves _ (match ?x with _ => _ end) => destruct x
      end
    | solve [frame_primitive] ].

(** ** The state store *)

Section StateStoreFacts.
Context `{Crypto} `{Env}.

Lemma findDoc_none (documentId : string) (docs : list StateDoc) :
  findDoc documentId docs = None <-> ~ In documentId (List.map doc_id docs).
Proof.
  unfold findDoc. induction docs as [|d docs IH]; simpl; [tauto|].
  destruct (String.eqb_spec (doc_id d) documentId) as [Heq|Hne].
  - split; [discriminate | intros Hnot; exfalso; apply Hnot; now left].
  - rewrite IH. tauto.
Qed.

Lemma findDoc_some (documentId : string) (docs : list StateDoc) (d : StateDoc) :
  findDoc documentId docs = Some d -> In d docs /\ doc_id d = documentId.
Proof.
  unfold findDoc. intros [Hin Heq]%find_some. split; [assumption|].
  now apply String.eqb_eq.
Qed.

Lemma findDoc_map (documentId : string) (patch : StateDoc -> StateDoc)
    (docs : list StateDoc) :
  (forall d, doc_id (patch d) = doc_id d) ->
  findDoc documentId
    (List.map (fun d => if String.eqb (doc_id d) documentId then patch d else d) docs)
  = patch <$> findDoc documentId docs.
Proof.
  intros Hid. unfold findDoc. induction docs as [|d docs IH]; [reflexivity|].
  simpl. destruct (String.eqb (doc_id d) documentId) eqn:Heq.
  - now rewrite Hid, Heq.
  - now rewrite Heq.
Qed.

Lemma findDoc_filter (documentId : string) (docs : list StateDoc) :
  findDoc documentId
    (List.filter (fun d => negb (String.eqb (doc_id d) documentId)) docs) = None.
Proof.
  apply findDoc_none. intros Hin. apply in_map_iff in Hin as (d & Hid & Hd).
  apply filter_In in Hd as [_ Hne]. rewrite Hid, String.eqb_refl in Hne. discriminate.
Qed.

Lemma findDoc_head (documentId : string) (d : StateDoc) (docs : list StateDoc) :
  doc_id d = documentId -> findDoc documentId (d :: docs) = Some d.
Proof. intros <-. unfold findDoc. simpl. now rewrite String.eqb_refl. Qed.

Lemma getStateDocument_run (documentId : string) (w : World) :
  getStateDocument documentId w = (Ok (findDoc documentId (stateDocs w)), w).
Proof.
  unfold getStateDocument, tryCatch, bind, requestStateDocument, ret.
  now destruct (findDoc documentId (stateDocs w)).
Qed.

Lemma setStateDocs_id (w : World) : setStateDocs (fun docs => docs) w = w.
Proof. now destruct w. Qed.

Lemma stateDocs_set (f : list StateDoc -> list StateDoc) (w : World) :
  stateDocs (setStateDocs f w) = f (stateDocs w).
Proof. reflexivity. Qed.

Lemma stateDocs_tick (w : World) : stateDocs (tickClock w) = stateDocs w.
Proof. reflexivity. Qed.

Lemma filter_absent (documentId : string) (docs : list StateDoc) :
  findDoc documentId docs = None ->
  List.filter (fun d => negb (String.eqb (doc_id d) documentId)) docs = docs.
Proof.
  intros Hnone. apply findDoc_none in Hnone.
  induction docs as [|d docs IH]; [reflexivity|]. simpl in *.
  destruct (String.eqb_spec (doc_id d) documentId) as [Heq|Hne]; simpl.
  - exfalso. apply Hnone. now left.
  - rewrite IH; [reflexivity|]. intros Hin. apply Hnone. now right.
Qed.

Lemma deleteStateDocument_run (documentId : string) (w : World) :
  deleteStateDocument documentId w
  = (Ok tt,
     setStateDocs (List.filter (fun d => negb (String.eqb (doc_id d) documentId))) w).
Proof.
  unfold deleteStateDocument, tryCatch, requestDeleteStateDocument.
  destruct (findDoc documentId (stateDocs w)) eqn:Hdoc; [reflexivity|]. simpl.
  unfold ret. f_equal. destruct w; unfold setStateDocs; simpl in *.
  now rewrite filter_absent.
Qed.

Lemma firstTruthy_idempotent (a b : option string) :
  firstTruthy (firstTruthy a b) None = firstTruthy a b.
Proof.
  unfold firstTruthy.
  destruct a as [s|]; [destruct (isEmpty s) eqn:Hs|];
    try (destruct b as [t|]; [destruct (isEmpty t) eqn:Ht|]); simpl;
    rewrite ?Hs, ?Ht; reflexivity.
Qed.

(** X6: [upsertRecord] always succeeds, and a [getRecord] under the same
    type and id right after it finds the record with the payload just
    written and the status just chosen (the one passed, else the one the
    record had, else none).  A record that was there keeps its creation
    instant and the collection its size; otherwise one document is added. *)
Theorem upsertRecord_getRecord (type recordId : string) (payload : option Payload)
    (status : option string) (w : World) :
  let previous := findDoc (stateDocId type recordId) (stateDocs w) in
  let now := clock (clockReads w) in
  exists w' v,
    upsertRecord type recordId payload status w = (Ok tt, w')
    /\ getRecord type recordId w' = (Ok (Some v), w')
    /\ rv_id v = recordId
    /\ rv_payload v = payload
    /\ rv_status v = firstTruthy status (previous ≫= doc_status)
    /\ rv_updatedAt v = now
    /\ rv_createdAt v = match previous with
                        | Some d => doc_created_at d
                        | None => now
                        end
    /\ List.length (stateDocs w')
       = match previous with
         | Some _ => List.length (stateDocs w)
         | None => S (List.length (stateDocs w))
         end.
Proof.
  cbv zeta. unfold upsertRecord, getRecord. cbv zeta.
  rewrite bind_unfold, getStateDocument_run, bind_unfold, newDate_run.
  destruct (findDoc (stateDocId type recordId) (stateDocs w)) as [d|] eqn:Hprev.
  - unfold updateStateDocument.
    change (stateDocs (tickClock w)) with (stateDocs w). rewrite Hprev.
    eexists _, _. split; [reflexivity|].
    rewrite bind_unfold, getStateDocument_run, stateDocs_set, ?stateDocs_tick.
    rewrite (findDoc_map _ (fun d0 =>
               {| doc_id := doc_id d0; doc_record_type := type;
                  doc_record_id := recordId;
                  doc_status := firstTruthy status (doc_status d);
                  doc_payload := payload; doc_created_at := doc_created_at d0;
                  doc_updated_at := clock (clockReads w) |})) by reflexivity.
    rewrite Hprev. simpl. split; [reflexivity|].
    repeat split; try reflexivity.
    + apply firstTruthy_idempotent.
    + apply List.length_map.
  - unfold createStateDocument. simpl doc_id.
    change (stateDocs (tickClock w)) with (stateDocs w). rewrite Hprev.
    eexists _, _. split; [reflexivity|].
    rewrite bind_unfold, getStateDocument_run, stateDocs_set, ?stateDocs_tick.
    rewrite findDoc_head by reflexivity.
    split; [reflexivity|].
    repeat split; try reflexivity. apply (firstTruthy_idempotent status None).
Qed.

(** X7: [deleteRecord] always succeeds, also on a record that is not
    there; afterwards [getRecord] under the same type and id finds nothing,
    and the documents under other ids are what they were, in their order. *)
Theorem deleteRecord_getRecord (type recordId : string) (w : World) :
  exists w',
    deleteRecord type recordId w = (Ok tt, w')
    /\ getRecord type recordId w' = (Ok None, w')
    /\ stateDocs w'
       = List.filter (fun d => negb (String.eqb (doc_id d) (stateDocId type recordId)))
                     (stateDocs w).
Proof.
  unfold deleteRecord, getRecord. rewrite deleteStateDocument_run.
  eexists. split; [reflexivity|].
  rewrite bind_unfold, getStateDocument_run, stateDocs_set, ?stateDocs_tick.
  rewrite findDoc_filter. split; reflexivity.
Qed.

Lemma listRecords_run (type : string) (w : World) :
  listRecords type w
  = (Ok (List.map recordView
           (List.filter (fun doc => String.eqb (doc_record_type doc) type)
                        (stateDocs w))), w).
Proof. reflexivity. Qed.

(** X8: a record written by [upsertRecord] is among those [listRecords]
    hands out for its type, under its id, with its payload and the document
    id derived from type and id; [countRecords] is the length of that
    list. *)
Theorem upsertRecord_listRecords (type recordId : string) (payload : option Payload)
    (status : option string) (w : World) :
  exists w' views view,
    upsertRecord type recordId payload status w = (Ok tt, w')
    /\ listRecords type w' = (Ok views, w')
    /\ countRecords type w' = (Ok (List.length views), w')
    /\ In view views
    /\ rv_id view = recordId
    /\ rv_payload view = payload
    /\ rv_documentId view = stateDocId type recordId.
Proof.
  unfold upsertRecord, countRecords. cbv zeta.
  rewrite bind_unfold, getStateDocument_run, bind_unfold, newDate_run.
  destruct (findDoc (stateDocId type recordId) (stateDocs w)) as [d|] eqn:Hprev.
  - unfold updateStateDocument.
    change (stateDocs (tickClock w)) with (stateDocs w). rewrite Hprev.
    destruct (findDoc_some _ _ _ Hprev) as [Hin Hid].
    eexists _, _,
      (recordView
         {| doc_id := doc_id d; doc_record_type := type;
            doc_record_id := recordId;
            doc_status := firstTruthy status (doc_status d);
            doc_payload := payload; doc_created_at := doc_created_at d;
            doc_updated_at := clock (clockReads w) |}).
    split; [reflexivity|]. rewrite bind_unfold, listRecords_run.
    split; [reflexivity|]. split; [reflexivity|].
    split; [|now repeat split].
    apply in_map, filter_In. split; [|apply String.eqb_refl].
    rewrite stateDocs_set, stateDocs_tick. apply in_map_iff. exists d.
    split; [|exact Hin]. now rewrite Hid, String.eqb_refl.
  - unfold createStateDocument. simpl doc_id.
    change (stateDocs (tickClock w)) with (stateDocs w). rewrite Hprev.
    eexists _, _,
      (recordView
         {| doc_id := stateDocId type recordId; doc_record_type := type;
            doc_record_id := recordId;
            doc_status := firstTruthy status None;
            doc_payload := payload; doc_created_at := clock (clockReads w);
            doc_updated_at := clock (clockReads w) |}).
    split; [reflexivity|]. rewrite bind_unfold, listRecords_run.
    split; [reflexivity|]. split; [reflexivity|].
    split; [|now repeat split].
    apply in_map, filter_In. split; [|apply String.eqb_refl].
    rewrite stateDocs_set, stateDocs_tick. now left.
Qed.

End StateStoreFacts.

(** ** Invariants and history *)

Section HistoryFacts.
Context `{Crypto} `{Env}.

Lemma NoDup_map_filter {A B} (f : A -> B) (p : A -> bool) (l : list A) :
  NoDup (List.map f l) -> NoDup (List.map f (List.filter p l)).
Proof.
  induction l as [|a l IH]; simpl; [auto|].
  intros [Ha Hl]%NoDup_cons. destruct (p a); simpl; [|auto].
  apply NoDup_cons. split; [|auto].
  rewrite list_elem_of_In in *. intros Hin. apply Ha.
  apply in_map_iff in Hin as (x & Hx & Hin). apply filter_In in Hin as [Hin _].
  apply in_map_iff. eauto.
Qed.

Lemma keeps_createStateDocument (data : StateDoc) :
  keeps uniqueStateIds (createStateDocument data).
Proof.
  intros w Hw. unfold createStateDocument.
  destruct (findDoc (doc_id data) (stateDocs w)) eqn:Hdoc; [exact Hw|].
  unfold uniqueStateIds. simpl. apply NoDup_cons. split; [|exact Hw].
  rewrite list_elem_of_In. now apply findDoc_none.
Qed.

Lemma keeps_updateStateDocument (documentId : string) (patch : StateDoc -> StateDoc) :
  (forall d, doc_id (patch d) = doc_id d) ->
  keeps uniqueStateIds (updateStateDocument documentId patch).
Proof.
  intros Hid w Hw. unfold updateStateDocument.
  destruct (findDoc documentId (stateDocs w)); [|exact Hw].
  unfold uniqueStateIds in *. simpl. rewrite List.map_map.
  erewrite List.map_ext; [exact Hw|].
  intros d. simpl. now destruct (String.eqb _ _).
Qed.

Lemma keeps_deleteStateDocument (documentId : string) :
  keeps uniqueStateIds (deleteStateDocument documentId).
Proof.
  intros w Hw. rewrite deleteStateDocument_run. unfold uniqueStateIds in *.
  simpl. now apply NoDup_map_filter.
Qed.

Ltac keeps_ids :=
  repeat first
    [ lazymatch goal with
      | |- keeps _ (bind _ _) => apply keeps_bind; [|intros ?]
      | |- keeps _ (tryCatch _ _) => apply keeps_tryCatch; [|intros ?]
      | |- keeps _ (forEach _ _) => apply keeps_forEach; intros ?
      | |- keeps _ (if ?b then _ else _) => destruct b
      | |- keeps _ (match ?x with _ => _ end) => destruct x
      | |- keeps _ (createStateDocument _) => apply keeps_createStateDocument
      | |- keeps _ (deleteStateDocument _) => apply keeps_deleteStateDocument
      | |- keeps _ (updateStateDocument _ _) =>
          apply keeps_updateStateDocument; reflexivity
      end
    | solve [apply keeps_of_preserves; frame_primitive] ].

Lemma keeps_recordHistory (payload : Payload) (status : string) :
  keeps uniqueStateIds (recordHistory payload status).
Proof.
  unfold recordHistory. cbv zeta.
  keeps_ids.
Qed.

Lemma keeps_updateHistoryStatus (recordId status : string) :
  keeps uniqueStateIds (updateHistoryStatus recordId status).
Proof.
  unfold updateHistoryStatus. cbv zeta.
  keeps_ids.
Qed.

Lemma keeps_resetState : keeps uniqueStateIds resetState.
Proof. unfold resetState. keeps_ids. Qed.

Lemma keeps_upsertRecord (type recordId : string) (payload : option Payload)
    (status : option string) :
  keeps uniqueStateIds (upsertRecord type recordId payload status).
Proof.
  intros w Hw. unfold upsertRecord. cbv zeta.
  rewrite bind_unfold, getStateDocument_run, bind_unfold, newDate_run.
  destruct (findDoc _ (stateDocs w)).
  - now apply keeps_updateStateDocument.
  - now apply keeps_createStateDocument.
Qed.

Lemma preserves_applyChanges_state (cfg : Config) (changes : ChangeSet) :
  preserves stateDocs (applyChanges cfg changes).
Proof.
  unfold applyChanges, createCollectionStep, createAttributeStep, createIndexStep,
    buildAttributeCommand, ensureIndex.
  cbv zeta. frame.
Qed.

Lemma keeps_bodyOf (cfg : Config) (command : Operation) :
  keeps uniqueStateIds (bodyOf cfg command).
Proof.
  destruct command; simpl.
  - unfold applyBody. cbv zeta.
    keeps_ids;
      solve [ apply keeps_of_preserves, preserves_applyChanges_state
            | apply keeps_recordHistory ].
  - unfold relationshipsBody, createRelationshipStep. cbv zeta.
    keeps_ids; apply keeps_recordHistory.
  - unfold rollbackBody, latestHistory, deleteIndexStep, deleteAttributeStep,
      deleteCollectionStep.
    cbv zeta. keeps_ids; apply keeps_updateHistoryStatus.
  - unfold resetBody. cbv zeta. keeps_ids; apply keeps_resetState.
Qed.

Lemma preserves_release_state (lockId : string) (owner : jsstr) :
  preserves stateDocs (release lockId owner).
Proof.
  intros w. rewrite release_run.
  destruct (lockDocs w !! lockDocId lockId) as [d|]; [|reflexivity].
  now destruct (truthy owner && truthy (lock_owner d) && negb _).
Qed.

(** A configured command, once its lock is taken, is the wrapped work
    followed by the deletion of the lock record. *)
Lemma command_run (fuel : nat) (cfg : Config) (command : Operation) (w w1 : World) :
  isConfigured cfg = true ->
  acquire fuel (lockIdOf command) (lockOptions cfg) w = (Ok tt, w1) ->
  run fuel cfg command w
  = ((bodyOf cfg command w1).1,
     setLockDocs (delete (lockDocId (lockIdOf command))) (bodyOf cfg command w1).2).
Proof.
  intros Hconf Hacq. rewrite run_eq.
  pose proof (ensureConfig_run cfg w) as Hcfg. rewrite Hconf in Hcfg.
  rewrite bind_unfold, Hcfg, withLock_configured by exact Hconf.
  rewrite bind_unfold, Hacq. unfold tryFinally.
  destruct (acquire_ok_holds _ _ _ _ _ Hacq) as (d & Hdoc & Howner & _).
  destruct (leaves_bodyOf cfg command w1) as [Hlocks Hreturns].
  destruct (bodyOf cfg command w1) as [r w2]. simpl in *.
  change (Str (lockOwner cfg)) with (opt_owner (lockOptions cfg)).
  rewrite (release_own _ (lockOptions cfg) d) by congruence.
  now destruct r.
Qed.

(** A command that cannot take its lock, or is not configured, leaves the
    state collection and the issued calls alone. *)
Lemma command_refused (fuel : nat) (cfg : Config) (command : Operation) (w : World) :
  (isConfigured cfg = false
   \/ (acquire fuel (lockIdOf command) (lockOptions cfg) w).1 <> Ok tt) ->
  stateDocs (run fuel cfg command w).2 = stateDocs w
  /\ calls (run fuel cfg command w).2 = calls w.
Proof.
  intros Hwhy. rewrite run_eq. pose proof (ensureConfig_run cfg w) as Hcfg.
  destruct (isConfigured cfg) eqn:Hconf.
  - destruct Hwhy as [|Hacq]; [discriminate|].
    rewrite bind_unfold, Hcfg, withLock_configured by exact Hconf.
    rewrite bind_unfold.
    pose proof (acquire_frame fuel (lockIdOf command) (lockOptions cfg) w)
      as (Hnd & Hst & Hca & _).
    destruct (acquire fuel (lockIdOf command) (lockOptions cfg) w)
      as [[[]|e|] w1]; simpl in *; auto. contradiction.
  - destruct Hcfg as [e He]. rewrite bind_unfold, He. auto.
Qed.

(** X9: the document ids of the state collection stay distinct: if no two
    documents share an id, none do after [upsertRecord], [deleteRecord],
    [recordHistory], [updateHistoryStatus], the store's [reset], or a whole
    run of any mutating command, whatever the command line and the index
    endpoint answer and however the run ends. *)
Theorem state_ids_stay_unique (fuel : nat) (cfg : Config) (command : Operation)
    (type recordId status : string) (payload : option Payload)
    (newStatus : option string) (entry : Payload) (w : World) :
  uniqueStateIds w ->
  uniqueStateIds (upsertRecord type recordId payload newStatus w).2
  /\ uniqueStateIds (deleteRecord type recordId w).2
  /\ uniqueStateIds (recordHistory entry status w).2
  /\ uniqueStateIds (updateHistoryStatus recordId status w).2
  /\ uniqueStateIds (resetState w).2
  /\ uniqueStateIds (run fuel cfg command w).2.
Proof.
  intros Hw. repeat split.
  - now apply keeps_upsertRecord.
  - now apply keeps_deleteStateDocument.
  - now apply keeps_recordHistory.
  - now apply keeps_updateHistoryStatus.
  - now apply keeps_resetState.
  - destruct (isConfigured cfg) eqn:Hconf.
    + destruct (acquire fuel (lockIdOf command) (lockOptions cfg) w)
        as [r w1] eqn:Hacq.
      destruct r as [[]|e|].
      * rewrite (command_run _ _ _ _ w1 Hconf Hacq). unfold uniqueStateIds. simpl.
        apply (keeps_bodyOf cfg command w1).
        pose proof (acquire_frame fuel (lockIdOf command) (lockOptions cfg) w)
          as (_ & Hst & _).
        rewrite Hacq in Hst. unfold uniqueStateIds. simpl in Hst. now rewrite Hst.
      * unfold uniqueStateIds.
        destruct (command_refused fuel cfg command w) as [-> _]; [|exact Hw].
        right. now rewrite Hacq.
      * unfold uniqueStateIds.
        destruct (command_refused fuel cfg command w) as [-> _]; [|exact Hw].
        right. now rewrite Hacq.
    + unfold uniqueStateIds.
      destruct (command_refused fuel cfg command w) as [-> _]; [|exact Hw].
      now left.
Qed.

Lemma recordHistory_run (payload : Payload) (status : string) (w : World) :
  recordHistory payload status w
  = let recordId := removeDashes (randomUUID (uuidDraws w)) in
    let documentId := stateDocId "history" recordId in
    let now := clock (clockReads w) in
    match findDoc documentId (stateDocs w) with
    | Some _ =>
        (Throw (AppwriteError 409 "document already exists"),
         tickClock (tickUUID w))
    | None =>
        (Ok recordId,
         setStateDocs
           (cons {| doc_id := documentId; doc_record_type := "history";
                    doc_record_id := recordId; doc_status := Some status;
                    doc_payload := Some payload; doc_created_at := now;
                    doc_updated_at := now |})
           (tickClock (tickUUID w)))
    end.
Proof.
  unfold recordHistory, bind, drawUUID, newDate, createStateDocument, ret.
  cbv zeta. simpl. now destruct (findDoc _ (stateDocs w)).
Qed.

(** X10: [recordHistory] stores the entry under a fresh record id and hands
    the id back; the entry is then the one [latestHistory] finds for its
    status, with the payload as written.  When the document id derived from
    the drawn UUID is in use, [recordHistory] fails with the conflict error
    and the collection is as before. *)
Theorem recordHistory_latestHistory (payload : Payload) (status : string)
    (w : World) :
  let recordId := removeDashes (randomUUID (uuidDraws w)) in
  let documentId := stateDocId "history" recordId in
  match findDoc documentId (stateDocs w) with
  | None =>
      exists w' d,
        recordHistory payload status w = (Ok recordId, w')
        /\ latestHistory status w' = (Ok (Some d), w')
        /\ doc_record_id d = recordId
        /\ doc_id d = documentId
        /\ doc_payload d = Some payload
        /\ doc_status d = Some status
        /\ stateDocs w' = d :: stateDocs w
  | Some _ =>
      exists w' message,
        recordHistory payload status w = (Throw (AppwriteError 409 message), w')
        /\ stateDocs w' = stateDocs w
  end.
Proof.
  cbv zeta. rewrite recordHistory_run. cbv zeta.
  destruct (findDoc _ (stateDocs w)) eqn:Hdoc.
  - eexists _, _. split; reflexivity.
  - eexists _, _. split; [reflexivity|].
    unfold latestHistory. rewrite bind_unfold. unfold listStateDocuments at 1, ret.
    rewrite stateDocs_set. simpl List.find.
    unfold isHistoryWithStatus at 1. simpl.
    rewrite bool_decide_eq_true_2 by reflexivity. rewrite orb_true_r.
    repeat split; reflexivity.
Qed.

End HistoryFacts.

(** ** Whole commands *)

Section CommandFacts.
Context `{Crypto} `{Env}.

(** A configured command whose lock can be taken: the work runs in the
    world [acquire] leaves, which differs from the first in the lock
    collection and the clock only. *)
Lemma command_lift (fuel : nat) (cfg : Config) (command : Operation) (w : World) :
  isConfigured cfg = true ->
  (acquire fuel (lockIdOf command) (lockOptions cfg) w).1 = Ok tt ->
  exists w1,
    stateDocs w1 = stateDocs w /\ calls w1 = calls w /\ remote w1 = remote w
    /\ run fuel cfg command w
       = ((bodyOf cfg command w1).1,
          setLockDocs (delete (lockDocId (lockIdOf command)))
                      (bodyOf cfg command w1).2).
Proof.
  intros Hconf Hok.
  pose proof (acquire_frame fuel (lockIdOf command) (lockOptions cfg) w)
    as (_ & Hst & Hca & _ & Hre).
  destruct (acquire fuel (lockIdOf command) (lockOptions cfg) w) as [r w1] eqn:Hacq.
  simpl in *. subst r. exists w1. repeat split; auto.
  now apply command_run.
Qed.

(** X11: [plan] only reads and prints: whatever the configuration, the
    schema file and the database hold, it issues no command and no index
    request, writes nothing to the state collection, and neither takes nor
    frees a lock. *)
Theorem plan_reads_only (cfg : Config) (w : World) :
  calls (plan cfg w).2 = calls w
  /\ stateDocs (plan cfg w).2 = stateDocs w
  /\ lockDocs (plan cfg w).2 = lockDocs w
  /\ remote (plan cfg w).2 = remote w.
Proof.
  assert (forall X (aspect : World -> X),
            (forall line w, aspect (addLine line w) = aspect w) ->
            preserves aspect (plan cfg)) as Hplan.
  { intros X aspect Hline. unfold plan, logSection. cbv zeta.
    frame; intros w0; unfold log; simpl; apply Hline. }
  repeat split; apply Hplan; reflexivity.
Qed.

Lemma body_dry_run (cfg : Config) (command : Operation) :
  dryRun cfg = true ->
  honoursDryRun command = true ->
  preserves calls (bodyOf cfg command)
  /\ preserves stateDocs (bodyOf cfg command).
Proof.
  intros Hdry Hcmd. destruct command; try discriminate; simpl.
  - unfold applyBody. cbv zeta. rewrite Hdry. split; frame.
  - unfold relationshipsBody. cbv zeta. rewrite Hdry. split; frame.
  - unfold rollbackBody, latestHistory. cbv zeta. rewrite Hdry. split; frame.
Qed.

(** X12: under the dry-run flag, [apply], [relationships] and [rollback]
    issue no command and no index request and leave the state collection
    (so, the history) as it is, whatever the schema, the database and the
    lock collection hold. *)
Theorem dry_run_changes_nothing (fuel : nat) (cfg : Config) (command : Operation)
    (w : World) :
  dryRun cfg = true ->
  honoursDryRun command = true ->
  calls (run fuel cfg command w).2 = calls w
  /\ stateDocs (run fuel cfg command w).2 = stateDocs w.
Proof.
  intros Hdry Hcmd.
  destruct (isConfigured cfg) eqn:Hconf;
    [|destruct (command_refused fuel cfg command w); auto].
  assert ((acquire fuel (lockIdOf command) (lockOptions cfg) w).1 = Ok tt
          \/ (acquire fuel (lockIdOf command) (lockOptions cfg) w).1 <> Ok tt)
    as [Hok|Hno]
    by (destruct (acquire _ _ _ w).1 as [[]|e|]; [now left|now right..]).
  2: { destruct (command_refused fuel cfg command w); auto. }
  destruct (command_lift fuel cfg command w Hconf Hok) as (w1 & Hst & Hca & _ & ->).
  destruct (body_dry_run cfg command Hdry Hcmd) as [Hcalls Hstate].
  simpl. now rewrite (Hcalls w1), (Hstate w1).
Qed.

Lemma filter_filter_docs (f g : StateDoc -> bool) (docs : list StateDoc) :
  List.filter f (List.filter g docs) = List.filter (fun d => g d && f d) docs.
Proof.
  induction docs as [|d docs IH]; [reflexivity|]. simpl.
  destruct (g d); simpl; [|exact IH]. destruct (f d); now rewrite IH.
Qed.

Lemma deleteEach_run (ds : list StateDoc) (w : World) :
  exists w',
    forEach ds (fun doc => deleteStateDocument (doc_id doc)) w = (Ok tt, w')
    /\ stateDocs w'
       = List.filter
           (fun d => List.forallb (fun x => negb (String.eqb (doc_id d) (doc_id x))) ds)
           (stateDocs w)
    /\ calls w' = calls w
    /\ lockDocs w' = lockDocs w.
Proof.
  revert w. induction ds as [|x ds IH]; intros w.
  - exists w. repeat split. simpl.
    induction (stateDocs w) as [|d docs IHd]; [reflexivity|]. simpl. now f_equal.
  - rewrite forEach_cons, deleteStateDocument_run.
    destruct (IH (setStateDocs
                    (List.filter (fun d => negb (String.eqb (doc_id d) (doc_id x)))) w))
      as (w' & Hrun & Hst & Hca & Hlo).
    exists w'. split; [exact Hrun|]. rewrite Hst, Hca, Hlo, stateDocs_set.
    repeat split. now rewrite filter_filter_docs.
Qed.

Lemma resetState_run (w : World) :
  exists w',
    resetState w = (Ok tt, w')
    /\ stateDocs w' = [] /\ calls w' = calls w /\ lockDocs w' = lockDocs w.
Proof.
  unfold resetState. rewrite bind_unfold. unfold listStateDocuments at 1.
  destruct (deleteEach_run (stateDocs w) w) as (w' & Hrun & Hst & Hca & Hlo).
  exists w'. repeat split; auto. rewrite Hst.
  assert (forall l l' : list StateDoc,
            (forall d, In d l -> In d l') ->
            List.filter
              (fun d => List.forallb
                          (fun x => negb (String.eqb (doc_id d) (doc_id x))) l') l
            = []) as Hall.
  { induction l as [|d l IHl]; intros l' Hsub; [reflexivity|]. simpl.
    destruct (List.forallb _ l') eqn:Hd.
    - rewrite forallb_forall in Hd. specialize (Hd d (Hsub d (or_introl eq_refl))).
      now rewrite String.eqb_refl in Hd.
    - apply IHl. intros d' Hd'. apply Hsub. now right. }
  apply Hall. auto.
Qed.

Lemma resetBody_run (cfg : Config) (w : World) :
  exists w',
    resetBody cfg w = (Ok tt, w')
    /\ stateDocs w' = (if resetConfirmed cfg then [] else stateDocs w)
    /\ calls w' = calls w.
Proof.
  destruct (resetState_run w) as (w' & Hrun & Hst & Hca & _).
  unfold resetBody, resetConfirmed. cbv zeta.
  destruct (nonInteractive cfg); simpl.
  - exists (addLine "State cleared" w'). unfold bind, ret. rewrite Hrun.
    repeat split; auto.
  - unfold bind, prompt, ret.
    destruct (String.eqb _ "y" || String.eqb _ "yes"); simpl.
    + exists (addLine "State cleared" w'). rewrite Hrun. repeat split; auto.
    + eexists. repeat split.
Qed.

(** X13: [reset] empties the state collection, history and keyed records
    alike, when it runs non-interactively or the operator answers [y] or
    [yes]; after any other answer the collection is as before.  Either way
    the command succeeds, issues no command line, and gives its lock back.
    The dry-run flag is not consulted: a dry run clears the history as
    well. *)
Theorem reset_clears_state (fuel : nat) (cfg : Config) (w : World) :
  isConfigured cfg = true ->
  (acquire fuel "schema-reset" (lockOptions cfg) w).1 = Ok tt ->
  exists w',
    reset fuel cfg w = (Ok tt, w')
    /\ stateDocs w' = (if resetConfirmed cfg then [] else stateDocs w)
    /\ calls w' = calls w
    /\ lockDocs w' !! lockDocId "schema-reset" = None.
Proof.
  intros Hconf Hok.
  destruct (command_lift fuel cfg OpReset w Hconf Hok) as (w1 & Hst & Hca & _ & Hrun).
  change (run fuel cfg OpReset) with (reset fuel cfg) in Hrun.
  simpl bodyOf in Hrun. simpl lockIdOf in Hrun.
  destruct (resetBody_run cfg w1) as (w2 & Hbody & Hst2 & Hca2).
  rewrite Hbody in Hrun. simpl in Hrun.
  eexists. split; [exact Hrun|]. simpl.
  rewrite Hst2, Hca2, Hst, Hca. repeat split. apply lookup_delete_eq.
Qed.

(** The work of [rollback] when the latest applied entry records no
    [apply] run: a line is printed and nothing else happens. *)
Lemma rollbackBody_idle (cfg : Config) (w : World) :
  latestAppliedIsApply (stateDocs w) = false ->
  exists w2,
    rollbackBody cfg w = (Ok tt, w2)
    /\ calls w2 = calls w /\ stateDocs w2 = stateDocs w.
Proof.
  intros Hlatest. unfold latestAppliedIsApply in Hlatest.
  unfold rollbackBody, latestHistory, listStateDocuments, bind, ret.
  destruct (List.find _ (stateDocs w)) as [h|]; [|eexists; repeat split].
  destruct (doc_payload h) as [[db checksum changes|db rels]|];
    [discriminate| |]; eexists; repeat split.
Qed.

(** X14: [rollback] undoes nothing unless the latest history entry in state
    [applied] records an [apply] run: with an empty history, or when that
    entry records a [relationships] run, it succeeds without issuing any
    delete command, and the history stays as it is. *)
Theorem rollback_nothing_to_undo (fuel : nat) (cfg : Config) (w : World) :
  isConfigured cfg = true ->
  (acquire fuel "schema-rollback" (lockOptions cfg) w).1 = Ok tt ->
  latestAppliedIsApply (stateDocs w) = false ->
  exists w',
    rollback fuel cfg w = (Ok tt, w')
    /\ calls w' = calls w
    /\ stateDocs w' = stateDocs w.
Proof.
  intros Hconf Hok Hlatest.
  destruct (command_lift fuel cfg OpRollback w Hconf Hok)
    as (w1 & Hst & Hca & _ & Hrun).
  change (run fuel cfg OpRollback) with (rollback fuel cfg) in Hrun.
  simpl bodyOf in Hrun.
  rewrite <- Hst in Hlatest.
  destruct (rollbackBody_idle cfg w1 Hlatest) as (w2 & Hbody & Hca2 & Hst2).
  rewrite Hbody in Hrun. eexists. split; [exact Hrun|]. simpl.
  now rewrite Hca2, Hst2, Hca, Hst.
Qed.

Lemma find_after_rollback (documentId : string) (now : Z) (docs : list StateDoc) :
  List.find (isHistoryWithStatus "applied")
    (List.map (fun d => if String.eqb (doc_id d) documentId
                        then withStatus "rolled_back" now d else d) docs)
  = List.find (isHistoryWithStatus "applied")
      (List.filter (fun d => negb (String.eqb (doc_id d) documentId)) docs).
Proof.
  induction docs as [|d docs IH]; [reflexivity|]. simpl.
  destruct (String.eqb (doc_id d) documentId); simpl.
  - unfold isHistoryWithStatus at 1. simpl.
    now rewrite andb_false_r.
  - now rewrite IH.
Qed.

(** X15: a rollback is not repeated.  After [rollback] has undone the
    latest applied [apply] run, the entry it undid is still in the history
    but no longer counts as applied: what [latestHistory] then finds is the
    latest applied entry among the other documents, so a second [rollback]
    undoes the run before, or nothing. *)
Theorem rollback_moves_on (cfg : Config) (w : World) (h : StateDoc)
    (db checksum : string) (changes : CompactChanges) :
  dryRun cfg = false ->
  List.find (isHistoryWithStatus "applied") (stateDocs w) = Some h ->
  doc_payload h = Some (ApplyPayload db checksum changes) ->
  doc_id h = stateDocId "history" (doc_record_id h) ->
  exists w',
    rollbackBody cfg w = (Ok tt, w')
    /\ List.length (stateDocs w') = List.length (stateDocs w)
    /\ latestHistory "applied" w'
       = (Ok (List.find (isHistoryWithStatus "applied")
                (List.filter (fun d => negb (String.eqb (doc_id d) (doc_id h)))
                             (stateDocs w))),
          w').
Proof.
  intros Hdry Hfind Hpayload Hid.
  destruct (rollbackBody_run cfg w h db checksum changes Hdry Hfind Hpayload Hid)
    as (w' & Hrun & _ & Hst & _).
  exists w'. split; [exact Hrun|]. split.
  - now rewrite Hst, List.length_map.
  - unfold latestHistory. rewrite bind_unfold. unfold listStateDocuments at 1, ret.
    now rewrite Hst, find_after_rollback.
Qed.

End CommandFacts.

(** ** A run of [apply], and its undoing *)

Section ApplyRunFacts.
Context `{Crypto} `{Env}.

Lemma omap_cons_call (cfg : Config) (e : Entity) (es : list Entity) :
  omap (callOf cfg) (e :: es)
  = match callOf cfg e with
    | Some c => c :: omap (callOf cfg) es
    | None => omap (callOf cfg) es
    end.
Proof. reflexivity. Qed.

Lemma createStep_outcome (cfg : Config) (e : Entity) (c : Call) (w : World) :
  callOf cfg e = Some c ->
  exists w2,
    calls w2 = calls w ++ [c]
    /\ (createStep cfg e w = (Ok tt, w2)
        \/ exists error,
             createStep cfg e w = (Throw error, w2)
             /\ failureOf (calls w) c = Some error
             /\ toleratedOnCreate c error = false).
Proof.
  intros Hc. pose proof (createStep_run cfg e w) as Hstep. rewrite Hc in Hstep.
  destruct Hstep as (w2 & Hcalls & Hstep). exists w2. split; [exact Hcalls|].
  destruct (failureOf (calls w) c) as [error|]; [|now left].
  destruct (toleratedOnCreate c error) eqn:Htol; [now left|right; eauto].
Qed.

Lemma createLoop_calls (cfg : Config) (es : list Entity) (w : World) :
  exists issued rest,
    omap (callOf cfg) es = issued ++ rest
    /\ calls (forEach es (createStep cfg) w).2 = calls w ++ issued
    /\ ((forEach es (createStep cfg) w).1 = Ok tt -> rest = []).
Proof.
  revert w. induction es as [|e es IH]; intros w.
  - exists [], []. simpl. now rewrite app_nil_r.
  - rewrite forEach_cons, omap_cons_call.
    destruct (callOf cfg e) as [c|] eqn:Hc.
    + destruct (createStep_outcome cfg e c w Hc)
        as (w2 & Hcalls & [Hok|(error & Herr & _)]).
      * rewrite Hok. destruct (IH w2) as (issued & rest & Hplan & Hissued & Hdone).
        exists (c :: issued), rest.
        rewrite Hplan, Hissued, Hcalls, <- app_assoc. auto.
      * rewrite Herr. exists [c], (omap (callOf cfg) es). simpl.
        repeat split; [exact Hcalls | discriminate].
    + pose proof (createStep_run cfg e w) as Hstep. rewrite Hc in Hstep.
      destruct Hstep as (a & _ & ->). exists [], (omap (callOf cfg) es). simpl.
      rewrite app_nil_r. repeat split. discriminate.
Qed.

(** X16: the creation calls of [applyChanges] go out in the planned order
    (every collection, then every attribute, then every index, each kind in
    the order of the change set) without gaps or repeats: what a run has
    issued when it ends is an initial segment of the planned calls, and all
    of them when it ends well.  The state collection is not touched. *)
Theorem applyChanges_calls_in_order (cfg : Config) (changes : ChangeSet) (w : World) :
  exists issued rest,
    plannedCalls cfg changes = issued ++ rest
    /\ calls (applyChanges cfg changes w).2 = calls w ++ issued
    /\ ((applyChanges cfg changes w).1 = Ok tt -> rest = [])
    /\ stateDocs (applyChanges cfg changes w).2 = stateDocs w.
Proof.
  pose proof (preserves_applyChanges_state cfg changes w) as Hstate.
  rewrite applyChanges_entities in *.
  destruct (createLoop_calls cfg (entitiesOf changes) w)
    as (issued & rest & Hplan & Hissued & Hdone).
  exists issued, rest. auto.
Qed.

Lemma createLoop_tolerant (cfg : Config) (es : list Entity) (w : World) :
  (forall e, In e es ->
     exists c, callOf cfg e = Some c
               /\ forall issued error,
                    failureOf issued c = Some error ->
                    toleratedOnCreate c error = true) ->
  exists w',
    forEach es (createStep cfg) w = (Ok tt, w')
    /\ calls w' = calls w ++ omap (callOf cfg) es.
Proof.
  revert w. induction es as [|e es IH]; intros w Hall.
  - exists w. simpl. now rewrite app_nil_r.
  - rewrite forEach_cons, omap_cons_call.
    destruct (Hall e (or_introl eq_refl)) as (c & Hc & Htol). rewrite Hc.
    destruct (createStep_outcome cfg e c w Hc)
      as (w2 & Hcalls & [Hok|(error & _ & Hf & Hno)]).
    + rewrite Hok. destruct (IH w2) as (w' & Hrun & Hcalls').
      { intros e' He'. apply Hall. now right. }
      exists w'. split; [exact Hrun|]. now rewrite Hcalls', Hcalls, <- app_assoc.
    + rewrite (Htol _ _ Hf) in Hno. discriminate.
Qed.

(** X17: [applyChanges] can be run again over what an earlier run left
    behind.  When every attribute of the change set has a type with a
    creation command, and no planned call can fail other than as "already
    there" (for commands: standard error containing [already exists]; for
    the index endpoint: status 409), the run succeeds and issues every
    planned call, however many of the entities exist. *)
Theorem applyChanges_rerun (cfg : Config) (changes : ChangeSet) (w : World) :
  (forall a, In a (cs_attributes changes) -> attrKindOf (ac_type a) <> None) ->
  (forall issued c error,
     In c (plannedCalls cfg changes) ->
     failureOf issued c = Some error ->
     toleratedOnCreate c error = true) ->
  exists w',
    applyChanges cfg changes w = (Ok tt, w')
    /\ calls w' = calls w ++ plannedCalls cfg changes
    /\ stateDocs w' = stateDocs w.
Proof.
  intros Hkinds Htol.
  pose proof (preserves_applyChanges_state cfg changes w) as Hstate.
  rewrite applyChanges_entities in *.
  destruct (createLoop_tolerant cfg (entitiesOf changes) w) as (w' & Hrun & Hcalls).
  { intros e He.
    assert (exists c, callOf cfg e = Some c) as [c Hc].
    { destruct e as [coll|attr|idx]; simpl; eauto.
      destruct (attrKindOf (ac_type attr)) eqn:Hk; eauto.
      exfalso. apply (Hkinds attr); [|exact Hk].
      unfold entitiesOf in He. rewrite !in_app_iff, !in_map_iff in He.
      destruct He as [(x & Hx & _)|[(x & Hx & Hin)|(x & Hx & _)]];
        try discriminate.
      now injection Hx as ->. }
    exists c. split; [exact Hc|]. intros issued error Hf.
    apply (Htol issued c error); [|exact Hf].
    unfold plannedCalls. apply list_elem_of_In, list_elem_of_omap.
    exists e. split; [now apply list_elem_of_In | exact Hc]. }
  rewrite Hrun in *. exists w'. auto.
Qed.

Lemma applyBody_run (cfg : Config) (schema : Schema) (w : World) :
  schemaFile cfg = Some schema ->
  dryRun cfg = false ->
  isEmptyChanges (calculateChanges schema (remote w)) = false ->
  applyBody cfg w
  = (applyChanges cfg (calculateChanges schema (remote w));;
     recordHistory
       (ApplyPayload (render (databaseId cfg))
          (generateChecksum (calculateChanges schema (remote w)))
          (compactChanges (calculateChanges schema (remote w))))
       "applied";;
     log "Apply completed") (addLine "Applying schema changes..." w).
Proof.
  intros Hschema Hdry Hsome. unfold applyBody, readSchema, isEmptyChanges in *.
  rewrite Hschema, bind_unfold. unfold ret at 1. rewrite bind_unfold.
  unfold describe at 1. cbv zeta. rewrite Hsome, Hdry. now rewrite bind_unfold.
Qed.

(** What a run of the work of [apply] leaves, by how it ends. *)
Lemma applyBody_outcome (cfg : Config) (schema : Schema) (w : World) :
  schemaFile cfg = Some schema ->
  dryRun cfg = false ->
  isEmptyChanges (calculateChanges schema (remote w)) = false ->
  match (applyBody cfg w).1 with
  | Ok _ =>
      exists h,
        stateDocs (applyBody cfg w).2 = h :: stateDocs w
        /\ findDoc (doc_id h) (stateDocs w) = None
        /\ doc_id h = stateDocId "history" (doc_record_id h)
        /\ doc_record_type h = "history"
        /\ doc_status h = Some "applied"
        /\ doc_payload h
           = Some (ApplyPayload (render (databaseId cfg))
                     (generateChecksum (calculateChanges schema (remote w)))
                     (compactChanges (calculateChanges schema (remote w))))
        /\ calls (applyBody cfg w).2
           = calls w ++ plannedCalls cfg (calculateChanges schema (remote w))
  | _ => stateDocs (applyBody cfg w).2 = stateDocs w
  end.
Proof.
  intros Hschema Hdry Hsome. rewrite (applyBody_run cfg schema w Hschema Hdry Hsome).
  set (changes := calculateChanges schema (remote w)).
  set (w0 := addLine "Applying schema changes..." w).
  pose proof (preserves_applyChanges_state cfg changes w0) as Hstate.
  destruct (createLoop_calls cfg (entitiesOf changes) w0)
    as (issued & rest & Hplan & Hissued & Hdone).
  rewrite <- applyChanges_entities in Hissued, Hdone.
  fold (plannedCalls cfg changes) in Hplan.
  rewrite bind_unfold.
  destruct (applyChanges cfg changes w0) as [[[]|e|] w2]; simpl in *; auto.
  rewrite (Hdone eq_refl), app_nil_r in Hplan. subst issued.
  rewrite bind_unfold, recordHistory_run. cbv zeta. rewrite Hstate.
  change (stateDocs w0) with (stateDocs w).
  destruct (findDoc _ (stateDocs w)) eqn:Hfresh; simpl; [exact Hstate|].
  eexists. rewrite Hstate. split; [reflexivity|]. simpl.
  repeat split; auto.
Qed.

(** X18: what [apply] writes to the history.  With changes to make and no
    dry run, a run of [apply] that ends well has issued every planned call
    and put exactly one new entry on top of the history: in state
    [applied], recording the database id, the checksum and the compacted
    change set.  A run that fails records nothing, although the calls
    issued before the failure have taken effect: [rollback] will not undo
    them. *)
Theorem apply_records_history (fuel : nat) (cfg : Config) (schema : Schema)
    (w : World) :
  isConfigured cfg = true ->
  (acquire fuel "schema-apply" (lockOptions cfg) w).1 = Ok tt ->
  schemaFile cfg = Some schema ->
  dryRun cfg = false ->
  isEmptyChanges (calculateChanges schema (remote w)) = false ->
  match (apply fuel cfg w).1 with
  | Ok _ =>
      exists h,
        stateDocs (apply fuel cfg w).2 = h :: stateDocs w
        /\ doc_record_type h = "history"
        /\ doc_status h = Some "applied"
        /\ doc_payload h
           = Some (ApplyPayload (render (databaseId cfg))
                     (generateChecksum (calculateChanges schema (remote w)))
                     (compactChanges (calculateChanges schema (remote w))))
        /\ calls (apply fuel cfg w).2
           = calls w ++ plannedCalls cfg (calculateChanges schema (remote w))
  | _ => stateDocs (apply fuel cfg w).2 = stateDocs w
  end.
Proof.
  intros Hconf Hok Hschema Hdry Hsome.
  destruct (command_lift fuel cfg OpApply w Hconf Hok)
    as (w1 & Hst & Hca & Hre & Hrun).
  change (run fuel cfg OpApply) with (apply fuel cfg) in Hrun. rewrite Hrun.
  simpl bodyOf. rewrite <- Hre in Hsome.
  pose proof (applyBody_outcome cfg schema w1 Hschema Hdry Hsome) as Hbody.
  rewrite Hre, Hst, Hca in Hbody. simpl.
  destruct (applyBody cfg w1).1 as [[]|e|]; auto.
  destruct Hbody as (h & Hdocs & _ & _ & Htype & Hstatus & Hpayload & Hcalls).
  exists h. auto.
Qed.

(** A configured command whose lock is refused ends with the error of
    [acquire], in the world [acquire] leaves. *)
Lemma command_lock_refused (fuel : nat) (cfg : Config) (command : Operation)
    (w w1 : World) (e : Error) :
  isConfigured cfg = true ->
  acquire fuel (lockIdOf command) (lockOptions cfg) w = (Throw e, w1) ->
  run fuel cfg command w = (Throw e, w1).
Proof.
  intros Hconf Hacq. rewrite run_eq.
  pose proof (ensureConfig_run cfg w) as Hcfg. rewrite Hconf in Hcfg.
  rewrite bind_unfold, Hcfg, withLock_configured by exact Hconf.
  now rewrite bind_unfold, Hacq.
Qed.

(** A configured command run on a free lock: the work runs right after the
    lock is taken, and the lock collection ends as it began. *)
Lemma command_free (fuel : nat) (cfg : Config) (command : Operation) (w : World) :
  isConfigured cfg = true ->
  lockDocs w !! lockDocId (lockIdOf command) = None ->
  inDateRange (clock (clockReads w) + 600 * 1000) = true ->
  exists w1,
    stateDocs w1 = stateDocs w /\ calls w1 = calls w /\ remote w1 = remote w
    /\ run fuel cfg command w
       = ((bodyOf cfg command w1).1,
          setLockDocs (delete (lockDocId (lockIdOf command)))
                      (bodyOf cfg command w1).2)
    /\ lockDocs (run fuel cfg command w).2 = lockDocs w.
Proof.
  intros Hconf Hfree Hvalid.
  pose proof (acquire_free fuel (lockIdOf command) (lockOptions cfg) w Hvalid Hfree)
    as Hacq.
  pose proof (command_run fuel cfg command w _ Hconf Hacq) as Hrun.
  eexists. split; [|split; [|split; [|split; [exact Hrun|]]]]; try reflexivity.
  rewrite Hrun. simpl.
  rewrite (proj1 (leaves_bodyOf cfg command _)). simpl.
  now apply delete_insert_id.
Qed.

(** X19: [apply] followed by [rollback].  When an [apply] with changes to
    make has gone through, the next [rollback] succeeds, issues after the
    creation calls one delete command per created index, attribute and
    collection, in that order, leaves the lock collection as it was before
    the two commands, and takes the new entry out of the applied history:
    the entry [latestHistory] finds afterwards is the one it found before
    the [apply].  This supposes that the lock of [rollback] can have its
    expiry, ten minutes after the clock's reading; with a clock so close to
    the last instant a date can hold that it cannot, [rollback] fails with
    the [RangeError] of [acquire] and undoes nothing. *)
Theorem apply_then_rollback (fuel : nat) (cfg : Config) (schema : Schema)
    (w w1 : World) :
  isConfigured cfg = true ->
  schemaFile cfg = Some schema ->
  dryRun cfg = false ->
  lockDocs w !! lockDocId "schema-apply" = None ->
  lockDocs w !! lockDocId "schema-rollback" = None ->
  isEmptyChanges (calculateChanges schema (remote w)) = false ->
  apply fuel cfg w = (Ok tt, w1) ->
  exists w2,
    if inDateRange (clock (clockReads w1) + 600 * 1000) then
      rollback fuel cfg w1 = (Ok tt, w2)
      /\ calls w2
         = calls w ++ plannedCalls cfg (calculateChanges schema (remote w))
           ++ rollbackCalls (render (databaseId cfg))
                (compactChanges (calculateChanges schema (remote w)))
      /\ lockDocs w2 = lockDocs w
      /\ latestHistory "applied" w2
         = (Ok (List.find (isHistoryWithStatus "applied") (stateDocs w)), w2)
    else
      rollback fuel cfg w1 = (Throw (RangeError "Invalid time value"), w2)
      /\ calls w2 = calls w1
      /\ stateDocs w2 = stateDocs w1
      /\ lockDocs w2 = lockDocs w.
Proof.
  intros Hconf Hschema Hdry HfreeA HfreeR Hsome Happly.
  assert (inDateRange (clock (clockReads w) + 600 * 1000) = true) as HvalidA.
  { destruct (inDateRange (clock (clockReads w) + 600 * 1000)) eqn:Hinvalid;
      [reflexivity|].
    pose proof (acquire_out_of_range fuel (lockIdOf OpApply) (lockOptions cfg) w
                  Hinvalid) as Hthrown.
    apply (command_lock_refused fuel cfg OpApply w _ _ Hconf) in Hthrown.
    change (run fuel cfg OpApply) with (apply fuel cfg) in Hthrown. congruence. }
  destruct (command_free fuel cfg OpApply w Hconf HfreeA HvalidA)
    as (wA & HstA & HcaA & HreA & HrunA & HlocksA).
  change (run fuel cfg OpApply) with (apply fuel cfg) in *.
  simpl bodyOf in HrunA. rewrite <- HreA in Hsome.
  pose proof (applyBody_outcome cfg schema wA Hschema Hdry Hsome) as Hbody.
  rewrite Happly in HrunA, HlocksA. simpl in HlocksA.
  injection HrunA as Hr Hw1. rewrite <- Hr in Hbody.
  destruct Hbody as (h & Hdocs & Hfresh & Hid & Htype & Hstatus & Hpayload & Hcalls).
  rewrite HreA, HstA, HcaA in *.
  assert (stateDocs w1 = h :: stateDocs w) as Hdocs1 by (now rewrite Hw1).
  assert (calls w1 = calls w ++ plannedCalls cfg (calculateChanges schema (remote w)))
    as Hcalls1 by (now rewrite Hw1).
  clear Hw1 Hdocs Hcalls Hr.
  assert (lockDocs w1 !! lockDocId (lockIdOf OpRollback) = None) as HfreeR1
    by (now rewrite HlocksA).
  destruct (inDateRange (clock (clockReads w1) + 600 * 1000)) eqn:HvalidR.
  - destruct (command_free fuel cfg OpRollback w1 Hconf HfreeR1 HvalidR)
      as (wR & HstR & HcaR & _ & HrunR & HlocksR).
    change (run fuel cfg OpRollback) with (rollback fuel cfg) in *.
    simpl bodyOf in HrunR.
    assert (List.find (isHistoryWithStatus "applied") (stateDocs wR) = Some h)
      as Hfind.
    { rewrite HstR, Hdocs1. simpl. unfold isHistoryWithStatus.
      now rewrite Htype, Hstatus. }
    destruct (rollbackBody_run cfg wR h _ _ _ Hdry Hfind Hpayload Hid)
      as (w' & Hbody & Hcalls' & Hdocs' & _).
    rewrite Hbody in HrunR. simpl in HrunR. rewrite HrunR in HlocksR.
    eexists. split; [exact HrunR|]. split; [|split].
    + simpl. now rewrite Hcalls', HcaR, Hcalls1, <- app_assoc.
    + now rewrite <- HlocksA.
    + unfold latestHistory. rewrite bind_unfold. unfold listStateDocuments at 1, ret.
      simpl stateDocs. rewrite Hdocs', HstR, Hdocs1, find_after_rollback. simpl.
      rewrite String.eqb_refl. simpl. now rewrite filter_absent.
  - pose proof (acquire_out_of_range fuel (lockIdOf OpRollback) (lockOptions cfg) w1
                  HvalidR) as Hthrown.
    apply (command_lock_refused fuel cfg OpRollback w1 _ _ Hconf) in Hthrown.
    change (run fuel cfg OpRollback) with (rollback fuel cfg) in Hthrown.
    eexists. split; [exact Hthrown|]. repeat split. exact HlocksA.
Qed.

End ApplyRunFacts.

(** ** A run of [relationships] *)

Section RelationshipRunFacts.
Context `{Crypto} `{Env}.

Lemma relationshipsBody_ok (cfg : Config) (schema : Schema) (w w' : World) :
  schemaFile cfg = Some schema ->
  dryRun cfg = false ->
  calculateRelationships schema (remote w) <> [] ->
  relationshipsBody cfg w = (Ok tt, w') ->
  exists h,
    stateDocs w' = h :: stateDocs w
    /\ doc_record_type h = "history"
    /\ doc_status h = Some "applied"
    /\ doc_payload h
       = Some (RelationshipsPayload (render (databaseId cfg))
                 (List.map relationshipRef
                    (calculateRelationships schema (remote w)))).
Proof.
  intros Hschema Hdry Hsome. unfold relationshipsBody, readSchema.
  rewrite Hschema, bind_unfold. unfold ret at 1. rewrite bind_unfold.
  unfold describe at 1. cbv zeta.
  destruct (calculateRelationships schema (remote w)) as [|rel rels] eqn:Hrels;
    [contradiction|].
  change (Nat.eqb (List.length (rel :: rels)) 0) with false. cbv iota.
  rewrite Hdry, bind_unfold. unfold log at 1. rewrite bind_unfold.
  assert (preserves stateDocs
            (forEach (rel :: rels) (createRelationshipStep (render (databaseId cfg)))))
    as Hloop by (unfold createRelationshipStep; frame).
  specialize (Hloop (addLine "Applying relationship attributes..." w)).
  destruct (forEach (rel :: rels) _ _) as [[[]|e|] w2]; try discriminate.
  simpl in Hloop. rewrite bind_unfold, recordHistory_run. cbv zeta. rewrite Hloop.
  destruct (findDoc _ (stateDocs w)); [discriminate|].
  unfold log. intros [= <-].
  eexists. simpl. rewrite Hloop. repeat split.
Qed.

(** X20: a [relationships] run hides the [apply] run before it from
    [rollback].  A run that had relationships to create and went through
    has put one entry in state [applied] on top of the history, recording
    the relationships; as [rollback] looks at the latest applied entry
    only, and that one is no [apply] run, a [rollback] issued next, once it
    has its lock, succeeds without issuing any delete command, and the
    history stays as the [relationships] run left it. *)
Theorem relationships_hide_apply (fuel : nat) (cfg : Config) (schema : Schema)
    (w w1 : World) :
  isConfigured cfg = true ->
  (acquire fuel "schema-relationships" (lockOptions cfg) w).1 = Ok tt ->
  schemaFile cfg = Some schema ->
  dryRun cfg = false ->
  calculateRelationships schema (remote w) <> [] ->
  applyRelationships fuel cfg w = (Ok tt, w1) ->
  (acquire fuel "schema-rollback" (lockOptions cfg) w1).1 = Ok tt ->
  (exists h,
     stateDocs w1 = h :: stateDocs w
     /\ doc_status h = Some "applied"
     /\ doc_payload h
        = Some (RelationshipsPayload (render (databaseId cfg))
                  (List.map relationshipRef
                     (calculateRelationships schema (remote w)))))
  /\ latestAppliedIsApply (stateDocs w1) = false
  /\ exists w2,
       rollback fuel cfg w1 = (Ok tt, w2)
       /\ calls w2 = calls w1
       /\ stateDocs w2 = stateDocs w1.
Proof.
  intros Hconf Hok Hschema Hdry Hsome Hrun Hback.
  destruct (command_lift fuel cfg OpRelationships w Hconf Hok)
    as (wL & Hst & Hca & Hre & Hlift).
  change (run fuel cfg OpRelationships) with (applyRelationships fuel cfg) in Hlift.
  rewrite Hrun in Hlift. simpl bodyOf in Hlift.
  destruct (relationshipsBody cfg wL) as [r w'] eqn:Hbody. simpl in Hlift.
  injection Hlift as Hr Hw1. subst r. rewrite <- Hre in Hsome.
  destruct (relationshipsBody_ok cfg schema wL w' Hschema Hdry Hsome Hbody)
    as (h & Hdocs & Htype & Hstatus & Hpayload).
  rewrite Hre, Hst in *.
  assert (stateDocs w1 = h :: stateDocs w) as Hdocs1 by (now rewrite Hw1).
  assert (latestAppliedIsApply (stateDocs w1) = false) as Hlatest.
  { rewrite Hdocs1. unfold latestAppliedIsApply. simpl.
    unfold isHistoryWithStatus at 1. rewrite Htype, Hstatus. simpl.
    now rewrite Hpayload. }
  split; [eauto|]. split; [exact Hlatest|].
  destruct (command_lift fuel cfg OpRollback w1 Hconf Hback)
    as (wR & HstR & HcaR & _ & HrunR).
  change (run fuel cfg OpRollback) with (rollback fuel cfg) in HrunR.
  simpl bodyOf in HrunR. rewrite <- HstR in Hlatest.
  destruct (rollbackBody_idle cfg wR Hlatest) as (w2 & Hidle & Hca2 & Hst2).
  rewrite Hidle in HrunR. eexists. split; [exact HrunR|]. simpl.
  now rewrite Hca2, Hst2, HcaR, HstR.
Qed.

End RelationshipRunFacts.

(** ** Locks, once more *)

Section LockUseFacts.
Context `{Crypto} `{Env}.

(** The record a successful [acquire] leaves. *)
Lemma acquire_ok_doc (fuel : nat) (lockId : string) (opts : AcquireOptions)
    (w w1 : World) :
  acquire fuel lockId opts w = (Ok tt, w1) ->
  exists previous,
    lockDocs w1 !! lockDocId lockId
    = Some (lockedDoc lockId (acquireOwner opts) (clock (clockReads w))
              (acquireExpiry opts (clock (clockReads w))) previous).
Proof.
  intros Hrun.
  destruct (acquire_cases fuel lockId opts w)
    as [[_ Hacq]|[(_ & _ & Hacq)|(existing & _ & _ & Hacq)]];
    rewrite Hacq in Hrun.
  - discriminate.
  - injection Hrun as <-. eexists. apply lookup_lockedDoc.
  - destruct (opt_force opts || expiredAt existing _ || strictEq _ _);
      [|discriminate].
    injection Hrun as <-. eexists. apply lookup_lockedDoc.
Qed.

(** X21: a lock excludes other owners until it expires.  After [acquire]
    has succeeded for one owner, an [acquire] of the same lock by another
    owner, without [force], never gets the lock while it is held.  Asking
    for an expiry that no date can hold, it throws the [RangeError] of
    [toISOString] before any request.  Otherwise it fails with the
    contention error that names the holder and the instant the lock was
    granted, as long as the clock has not passed the expiry (grant instant
    plus the holder's time to live, 600 seconds unless given; a time to
    live of 0 never expires).  Either way the lock collection stays as it
    is.  Once the clock has passed the expiry, the second [acquire]
    succeeds and the lock changes hands. *)
Theorem lock_excludes_others (fuel fuel' : nat) (lockId : string)
    (holder other : AcquireOptions) (w w1 : World) :
  acquire fuel lockId holder w = (Ok tt, w1) ->
  opt_force other = false ->
  strictEq (acquireOwner holder) (acquireOwner other) = false ->
  let grantedAt := clock (clockReads w) in
  let ttlSeconds := default 600%Z (opt_ttlSeconds holder) in
  let stillHeld :=
    Z.eqb ttlSeconds 0
    || Z.leb (clock (S (clockReads w1))) (grantedAt + ttlSeconds * 1000) in
  exists w2,
    if expiryInRange (acquireExpiry other (clock (clockReads w1))) then
      if stillHeld then
        acquire fuel' lockId other w1
        = (Throw (LockHeldError lockId (orElse (acquireOwner holder) "unknown")
                                grantedAt), w2)
        /\ lockDocs w2 = lockDocs w1
      else
        acquire fuel' lockId other w1 = (Ok tt, w2)
        /\ exists d, lockDocs w2 !! lockDocId lockId = Some d
                     /\ lock_owner d = acquireOwner other
    else
      acquire fuel' lockId other w1
      = (Throw (RangeError "Invalid time value"), w2)
      /\ lockDocs w2 = lockDocs w1.
Proof.
  intros Hheld Hforce Hother. cbv zeta.
  destruct (expiryInRange (acquireExpiry other (clock (clockReads w1))))
    eqn:Hvalid;
    [|eexists; split; [now apply acquire_out_of_range|reflexivity]].
  destruct (acquire_ok_doc fuel lockId holder w w1 Hheld) as [previous Hdoc].
  pose proof (acquire_taken fuel' lockId other w1 _ Hvalid Hdoc) as Hrun.
  cbv zeta in Hrun. rewrite Hforce in Hrun. simpl lock_owner in Hrun.
  rewrite Hother, orb_false_r in Hrun. simpl orb in Hrun.
  assert (expiredAt
            (lockedDoc lockId (acquireOwner holder) (clock (clockReads w))
               (acquireExpiry holder (clock (clockReads w))) previous)
            (clock (S (clockReads w1)))
          = negb (Z.eqb (default 600%Z (opt_ttlSeconds holder)) 0
                  || Z.leb (clock (S (clockReads w1)))
                           (clock (clockReads w)
                            + default 600%Z (opt_ttlSeconds holder) * 1000)))
    as Hexp.
  { unfold expiredAt, acquireExpiry. simpl.
    destruct (Z.eqb _ 0); simpl; [reflexivity|]. apply Z.ltb_antisym. }
  rewrite Hexp in Hrun.
  destruct (Z.eqb _ 0 || Z.leb _ _); simpl in Hrun;
    eexists; (split; [exact Hrun|]).
  - now destruct (acquireExpiry holder _).
  - eexists. split; [apply lookup_lockedDoc|reflexivity].
Qed.

Lemma acquire_other_doc (fuel : nat) (lockId docId : string) (opts : AcquireOptions)
    (w : World) :
  docId <> lockDocId lockId ->
  lockDocs (acquire fuel lockId opts w).2 !! docId = lockDocs w !! docId.
Proof.
  intros Hne.
  destruct (acquire_cases fuel lockId opts w)
    as [[_ Hacq]|[(_ & _ & Hacq)|(existing & _ & _ & Hacq)]];
    rewrite Hacq.
  - reflexivity.
  - simpl. now rewrite lookup_insert_ne by congruence.
  - destruct (opt_force opts || expiredAt existing _ || strictEq _ _);
      destruct (lock_expires_at existing); simpl;
      rewrite ?lookup_insert_ne by congruence; reflexivity.
Qed.

Lemma release_other_doc (lockId docId : string) (owner : jsstr) (w : World) :
  docId <> lockDocId lockId ->
  lockDocs (release lockId owner w).2 !! docId = lockDocs w !! docId.
Proof.
  intros Hne. rewrite release_run.
  destruct (lockDocs w !! lockDocId lockId) as [d|]; [|reflexivity].
  destruct (truthy owner && truthy (lock_owner d) && negb _); simpl;
    [reflexivity|].
  now rewrite lookup_delete_ne by congruence.
Qed.

(** X22: each lock lives in its own document: [acquire], [release] and a
    whole run of a mutating command leave every lock document other than
    their own as it is, however they end.  So commands of different kinds
    never block each other, and none frees another one's lock. *)
Theorem locks_are_independent (fuel : nat) (cfg : Config) (command : Operation)
    (lockId docId : string) (opts : AcquireOptions) (owner : jsstr) (w : World) :
  docId <> lockDocId lockId ->
  docId <> lockDocId (lockIdOf command) ->
  lockDocs (acquire fuel lockId opts w).2 !! docId = lockDocs w !! docId
  /\ lockDocs (release lockId owner w).2 !! docId = lockDocs w !! docId
  /\ lockDocs (run fuel cfg command w).2 !! docId = lockDocs w !! docId.
Proof.
  intros Hother Hne.
  split; [now apply acquire_other_doc|split; [now apply release_other_doc|]].
  clear Hother. rewrite run_eq. pose proof (ensureConfig_run cfg w) as Hcfg.
  destruct (isConfigured cfg) eqn:Hconf.
  - rewrite bind_unfold, Hcfg, withLock_configured by exact Hconf.
    rewrite bind_unfold.
    pose proof (acquire_other_doc fuel (lockIdOf command) docId (lockOptions cfg) w Hne)
      as Hacq.
    destruct (acquire fuel (lockIdOf command) (lockOptions cfg) w)
      as [[[]|e|] w1]; simpl in Hacq; [|exact Hacq..].
    unfold tryFinally.
    destruct (leaves_bodyOf cfg command w1) as [Hlocks Hreturns].
    pose proof (release_other_doc (lockIdOf command) docId (Str (lockOwner cfg))
                  (bodyOf cfg command w1).2 Hne) as Hrel.
    destruct (bodyOf cfg command w1) as [r w2]. simpl in *.
    rewrite Hlocks, Hacq in Hrel.
    destruct r as [[]|e|]; [| |contradiction];
      destruct (release _ _ w2) as [[[]|e'|] w3]; exact Hrel.
  - destruct Hcfg as [e He]. now rewrite bind_unfold, He.
Qed.

End LockUseFacts.

(** ** The relationship decorator *)

Lemma removeQuotes_clean (s : string) :
  Js.forallb (fun c => negb (isQuote c)) (removeQuotes s) = true.
Proof.
  induction s as [|c s IH]; [reflexivity|]. simpl.
  destruct (isQuote c) eqn:Hc; [exact IH|]. simpl. now rewrite Hc.
Qed.

Lemma relationshipPart_spec (part key : string) (value : option string) :
  relationshipPart part = (key, value) ->
  charIs isSpace (headChar key) = false
  /\ charIs isSpace (lastChar key) = false
  /\ match value with
     | Some v => Js.forallb (fun c => negb (isQuote c)) v = true
     | None => True
     end.
Proof.
  unfold relationshipPart.
  destruct (split ":" part) as [|first [|second rest]]; simpl; intros [= <- <-].
  - auto.
  - destruct (trim_ends first). auto.
  - destruct (trim_ends first). split; [|split]; auto. apply removeQuotes_clean.
Qed.

(** X23: whatever stands between the parentheses of [@relationship(...)],
    every property that [parseRelationshipDecorator] sets has a name without
    white space at either end, and every value it sets is free of quote
    characters of both kinds, wherever in the value they were written. *)
Theorem parseRelationshipDecorator_clean (params key value : string) :
  parseRelationshipDecorator params !! key = Some (Some value) ->
  Js.forallb (fun c => negb (isQuote c)) value = true
  /\ charIs isSpace (headChar key) = false
  /\ charIs isSpace (lastChar key) = false.
Proof.
  unfold parseRelationshipDecorator.
  destruct (isEmpty params); [now rewrite lookup_empty|].
  assert (forall parts (rel : gmap string (option string)),
            (forall k v, rel !! k = Some (Some v) ->
               Js.forallb (fun c => negb (isQuote c)) v = true
               /\ charIs isSpace (headChar k) = false
               /\ charIs isSpace (lastChar k) = false) ->
            forall k v,
              fold_left
                (fun rel part =>
                   let '(key, value) := relationshipPart part in
                   setProperty rel key value) parts rel !! k = Some (Some v) ->
              Js.forallb (fun c => negb (isQuote c)) v = true
              /\ charIs isSpace (headChar k) = false
              /\ charIs isSpace (lastChar k) = false) as Hfold.
  { induction parts as [|part parts IH]; intros rel Hrel; [exact Hrel|].
    simpl. apply IH. intros k v.
    destruct (relationshipPart part) as [key' value'] eqn:Hpart.
    apply relationshipPart_spec in Hpart as (Hhead & Hlast & Hvalue).
    unfold setProperty. destruct (String.eqb key' "__proto__"); [apply Hrel|].
    rewrite lookup_insert_Some. intros [[<- ->]|[_ Hold]]; [auto|now apply Hrel]. }
  apply Hfold. intros k v. now rewrite lookup_empty.
Qed.

(** ** Commands that are refused *)

Section RefusalFacts.
Context `{Crypto} `{Env}.

Lemma acquire_refused_locks (fuel : nat) (lockId : string) (opts : AcquireOptions)
    (w : World) (e : Error) :
  (acquire fuel lockId opts w).1 = Throw e ->
  lockDocs (acquire fuel lockId opts w).2 = lockDocs w.
Proof.
  destruct (acquire_cases fuel lockId opts w)
    as [[_ Hacq]|[(_ & _ & Hacq)|(existing & _ & _ & Hacq)]];
    rewrite Hacq.
  - reflexivity.
  - discriminate.
  - destruct (opt_force opts || expiredAt existing _ || strictEq _ _);
      [discriminate|].
    now destruct (lock_expires_at existing).
Qed.

(** X24: a command that is refused has done nothing.  Without a complete
    configuration (project id, API key, database id) every mutating command,
    and [plan], fails at once and the world is exactly as before: no lock
    was asked for.  With it, a mutating command whose lock is refused fails
    with the very error of [acquire], having issued no call and changed
    neither the state collection nor the lock collection. *)
Theorem refused_command_changes_nothing (fuel : nat) (cfg : Config)
    (command : Operation) (w : World) :
  match isConfigured cfg, (acquire fuel (lockIdOf command) (lockOptions cfg) w).1 with
  | false, _ =>
      exists e, run fuel cfg command w = (Throw e, w) /\ plan cfg w = (Throw e, w)
  | true, Throw e =>
      (run fuel cfg command w).1 = Throw e
      /\ calls (run fuel cfg command w).2 = calls w
      /\ stateDocs (run fuel cfg command w).2 = stateDocs w
      /\ lockDocs (run fuel cfg command w).2 = lockDocs w
  | true, _ => True
  end.
Proof.
  pose proof (ensureConfig_run cfg w) as Hcfg. rewrite run_eq.
  destruct (isConfigured cfg) eqn:Hconf.
  - pose proof (acquire_frame fuel (lockIdOf command) (lockOptions cfg) w)
      as (_ & Hst & Hca & _).
    pose proof (acquire_refused_locks fuel (lockIdOf command) (lockOptions cfg) w)
      as Hlocks.
    rewrite bind_unfold, Hcfg, withLock_configured by exact Hconf.
    rewrite bind_unfold.
    destruct (acquire fuel (lockIdOf command) (lockOptions cfg) w)
      as [[[]|e|] w1]; simpl in *; auto.
    repeat split; auto. now apply (Hlocks e).
  - destruct Hcfg as [e He]. exists e. unfold plan.
    now rewrite !bind_unfold, He.
Qed.

End RefusalFacts.

(** ** The properties on the sample run *)

#[local] Existing Instance sampleCrypto.
#[local] Existing Instance sampleEnv.

(** C8 on a key that needs all three steps. *)
Example sanitizeIndexKey_long :
  sanitizeIndexKey (Str "__idx_user name/and a rather long list of fields")
  = "idx_idx_user_name_and_a_rather_l".
Proof. reflexivity. Qed.

Lemma sanitizeIndexKey_fallback_witness :
  Js.existsb isKeyChar (stripLeading (orElse (Str "@@@") "")) = false
  /\ sanitizeIndexKey (Str "@@@") = "idx_hash".
Proof.
  split; [reflexivity|].
  destruct (sanitizeIndexKey_fallback (Str "@@@")) as [Hkey _];
    [reflexivity | exact Hkey].
Defined.

(** C9 as the design document words it fails on a list that opens with an
    order word: the word is kept as a field. *)
Lemma parseIndexFields_leading_order_word :
  In "asc" (indexTokens "asc, name")
  /\ isOrderToken "asc" = true
  /\ In "asc" (parseIndexFields "asc, name").1.
Proof. vm_compute. auto. Qed.

Lemma parseIndexFields_spec_witness :
  indexTokens "asc, name, DESC, age" = ["asc"] ++ "name" :: ["DESC"] ++ ["age"]
  /\ parseIndexFields "asc, name, DESC, age"
     = (["asc"; "name"; "age"], [None; Some "DESC"; None]).
Proof.
  split; [reflexivity|].
  pose proof (parseIndexFields_spec "asc, name, DESC, age"
                ["asc"] "name" ["DESC"] ["age"]) as Hspec.
  destruct (parseIndexFields "asc, name, DESC, age") as [fields orders] eqn:Hrun.
  destruct Hspec as (_ & _ & _ & _);
    [reflexivity | right; reflexivity | repeat constructor | reflexivity |].
  vm_compute in Hrun. now rewrite Hrun.
Defined.

Lemma calculateChanges_spec_witness :
  collections sampleSchema
  = [("UserProfile", userProfileCollection)] ++ ("Post", postCollection) :: []
  /\ cs_collections (calculateChanges sampleSchema sampleRemote)
     = [{| cc_id := "user-profile"; cc_name := "UserProfile";
           cc_attributes := [("email", plainAttribute "String")];
           cc_indexes := [] |}]
  /\ In {| ac_collection_id := "post"; ac_key := "body"; ac_type := "String";
           ac_array := false; ac_required := false; ac_size := None;
           ac_default := None |}
        (cs_attributes (calculateChanges sampleSchema sampleRemote)).
Proof.
  split; [reflexivity|].
  destruct (calculateChanges_spec sampleSchema sampleRemote
              [("UserProfile", userProfileCollection)] "Post" postCollection [])
    as [_ Hpresent]; [reflexivity|].
  destruct (Hpresent {| rc_attributes := [{| ra_key := "title"; ra_type := "string" |}];
                        rc_indexes := [] |}) as [Hcolls Hattrs]; [reflexivity|].
  split; [exact Hcolls|].
  apply (Hattrs "body" (plainAttribute "String")).
  - simpl. auto.
  - reflexivity.
  - simpl. intros [Heq|[]]. discriminate.
Defined.

Lemma relationships_second_phase_witness :
  In ("Post", postCollection) (collections sampleSchema)
  /\ In ("author", authorAttribute) (coll_attributes postCollection)
  /\ relationshipOf authorAttribute = Some authorRelationship
  /\ In (relationshipCreate "post" "author" authorAttribute authorRelationship)
        (calculateRelationships sampleSchema sampleRemote).
Proof.
  assert (Hcoll : In ("Post", postCollection) (collections sampleSchema))
    by (simpl; auto).
  assert (Hattr : In ("author", authorAttribute) (coll_attributes postCollection))
    by (simpl; auto).
  repeat split; [exact Hcoll | exact Hattr |].
  destruct (relationships_second_phase sampleSchema sampleRemote "Post"
              postCollection "author" authorAttribute authorRelationship
              Hcoll Hattr eq_refl) as (_ & _ & Hpending).
  apply Hpending. intros (a & Ha & Htype & _).
  destruct Ha as [<-|[]]. discriminate.
Defined.

(** C1 as the design document words it fails at the very instant of expiry:
    the clock shows 1001, the record expires at 1001, and bob is refused. *)
Lemma acquire_at_expiry_instant_refused :
  lockDocs heldWorld !! lockDocId "schema-apply" = Some aliceLock
  /\ lock_expires_at aliceLock = Some 1001%Z
  /\ (clock (S (clockReads heldWorld)) >= 1001)%Z
  /\ (acquire 1 "schema-apply" bobOptions heldWorld).1
     = Throw (LockHeldError "schema-apply" "alice" 0).
Proof.
  split; [reflexivity|]. split; [reflexivity|]. split; [vm_compute; discriminate|].
  rewrite (acquire_taken 1 "schema-apply" bobOptions heldWorld aliceLock)
    by reflexivity.
  reflexivity.
Qed.

(** A time to live of 8640000000000 seconds puts the expiry past the last
    instant a date can hold: [acquire] throws the [RangeError] of
    [toISOString], on a free lock too, and creates no record. *)
Example acquire_expiry_out_of_range :
  (acquire 1 "schema-apply"
     {| opt_owner := Str "alice"; opt_ttlSeconds := Some 8640000000000%Z;
        opt_force := false |} emptyWorld).1
  = Throw (RangeError "Invalid time value")
  /\ lockDocs (acquire 1 "schema-apply"
                 {| opt_owner := Str "alice"; opt_ttlSeconds := Some 8640000000000%Z;
                    opt_force := false |} emptyWorld).2 = ∅.
Proof. rewrite acquire_out_of_range by reflexivity. split; reflexivity. Qed.

(** C2 as the design document words it fails for a caller that names no
    owner: alice's record is deleted. *)
Lemma release_without_owner_deletes :
  lockDocs heldWorld !! lockDocId "schema-apply" = Some aliceLock
  /\ truthy (lock_owner aliceLock) = true
  /\ strictEq (lock_owner aliceLock) Undefined = false
  /\ (release "schema-apply" Undefined heldWorld).1 = Ok tt
  /\ lockDocs (release "schema-apply" Undefined heldWorld).2
       !! lockDocId "schema-apply" = None.
Proof.
  rewrite release_run.
  change (lockDocs heldWorld !! lockDocId "schema-apply") with (Some aliceLock).
  repeat split.
Qed.

Lemma release_spec_witness :
  acquire 1 "schema-apply" aliceOptions emptyWorld
  = (Ok tt, (acquire 1 "schema-apply" aliceOptions emptyWorld).2)
  /\ exists w2 w3,
       release "schema-apply" (Str "alice")
               (acquire 1 "schema-apply" aliceOptions emptyWorld).2 = (Ok tt, w2)
       /\ lockDocs w2 !! lockDocId "schema-apply" = None
       /\ acquire 1 "schema-apply" bobOptions w2 = (Ok tt, w3).
Proof.
  assert (Hacq : acquire 1 "schema-apply" aliceOptions emptyWorld
                 = (Ok tt, (acquire 1 "schema-apply" aliceOptions emptyWorld).2))
    by (rewrite (acquire_free 1 "schema-apply" aliceOptions emptyWorld);
        reflexivity).
  split; [exact Hacq|].
  destruct (release_spec 1 "schema-apply" aliceOptions bobOptions emptyWorld
              _ Undefined emptyWorld Hacq)
    as (_ & w2 & w3 & Hrel & Hfree & Hacq').
  assert (Hreads : clockReads w2 = 1).
  { apply (f_equal snd) in Hrel. simpl in Hrel. rewrite <- Hrel.
    vm_compute. reflexivity. }
  rewrite Hreads in Hacq'.
  assert (Hvalid : expiryInRange (acquireExpiry bobOptions (clock 1)) = true)
    by reflexivity.
  rewrite Hvalid in Hacq'. destruct Hacq' as [Hacq' _].
  exists w2, w3. auto.
Defined.

(** C3 on the sample configuration: the lock of [reset] is gone after the
    run. *)
Lemma withLock_discipline_witness :
  isConfigured sampleConfig = true
  /\ (run 1 sampleConfig OpReset emptyWorld).1 = Ok tt
  /\ lockDocs (run 1 sampleConfig OpReset emptyWorld).2 !! lockDocId "schema-reset"
     = None.
Proof.
  split; [reflexivity|].
  pose proof (withLock_discipline 1 sampleConfig OpReset emptyWorld) as [_ Hrun].
  cbv zeta in Hrun. change (isConfigured sampleConfig) with true in Hrun.
  cbv iota in Hrun.
  rewrite (acquire_free 1 _ (lockOptions sampleConfig) emptyWorld) in Hrun
    by reflexivity.
  destruct Hrun as (_ & r & w2 & Hbody & _ & _ & -> & Hfree).
  split; [|exact Hfree]. simpl. vm_compute in Hbody. congruence.
Defined.

(** C6 as the design document words it fails under [--force]: the first
    collection cannot be created, the run stops there, and the second one is
    never tried.  It also fails for an index whose creation is refused with
    a message that contains [already exists] but a status other than 409:
    the run stops with that error. *)
Lemma applyChanges_force_still_aborts :
  force sampleConfig = true
  /\ (applyChanges sampleConfig brokenFirst emptyWorld).1
     = Throw (ExecError 1 "connection refused")
  /\ calls (applyChanges sampleConfig brokenFirst emptyWorld).2
     = [CliCall (CreateCollection "main" "broken" "Broken")]
  /\ includes "already exists" "Index already exists" = true
  /\ (applyChanges sampleConfig takenIndex emptyWorld).1
     = Throw (AppwriteError 500 "Index already exists").
Proof. vm_compute. auto 6. Qed.

Lemma applyChanges_spec_witness :
  entitiesOf usersFirst
  = [] ++ CollectionEntity (collectionOf "users" "Users")
          :: [CollectionEntity (collectionOf "posts" "Posts")]
  /\ forEach [] (createStep sampleConfig) emptyWorld = (Ok tt, emptyWorld)
  /\ exists w2,
       calls w2 = [CliCall (CreateCollection "main" "users" "Users")]
       /\ applyChanges sampleConfig usersFirst emptyWorld
          = forEach [CollectionEntity (collectionOf "posts" "Posts")]
                    (createStep sampleConfig) w2.
Proof.
  split; [reflexivity|]. split; [reflexivity|].
  destruct (applyChanges_spec sampleConfig usersFirst emptyWorld emptyWorld []
              (CollectionEntity (collectionOf "users" "Users"))
              [CollectionEntity (collectionOf "posts" "Posts")] eq_refl eq_refl)
    as [_ (w2 & Hcalls & Hrun)].
  exists w2. split; [exact Hcalls | exact Hrun].
Defined.

(** C7 as the design document words it fails on a delete that is denied:
    the denial is not a "not found", yet the rollback goes on and ends
    normally. *)
Lemma rollback_swallows_denied_delete :
  failureOf [] (CliCall (DeleteIndex "main" "posts" "idx_title"))
  = Some (ExecError 1 "permission denied")
  /\ includes "not found" "permission denied" = false
  /\ (rollback 1 sampleConfig historyWorld).1 = Ok tt
  /\ calls (rollback 1 sampleConfig historyWorld).2
     = [CliCall (DeleteIndex "main" "posts" "idx_title");
        CliCall (DeleteAttribute "main" "posts" "title");
        CliCall (DeleteCollection "main" "posts")]
  /\ List.map doc_status (stateDocs (rollback 1 sampleConfig historyWorld).2)
     = [Some "rolled_back"].
Proof. vm_compute. auto 6. Qed.

Lemma rollback_spec_witness :
  isConfigured sampleConfig = true
  /\ dryRun sampleConfig = false
  /\ acquire 1 "schema-rollback" (lockOptions sampleConfig) historyWorld
     = (Ok tt, (acquire 1 "schema-rollback" (lockOptions sampleConfig) historyWorld).2)
  /\ List.find (isHistoryWithStatus "applied") (stateDocs historyWorld)
     = Some appliedEntry
  /\ doc_id appliedEntry = stateDocId "history" (doc_record_id appliedEntry)
  /\ exists w', rollback 1 sampleConfig historyWorld = (Ok tt, w')
                /\ calls w' = rollbackCalls "main" recordedChanges.
Proof.
  assert (Hacq : acquire 1 "schema-rollback" (lockOptions sampleConfig) historyWorld
                 = (Ok tt, (acquire 1 "schema-rollback" (lockOptions sampleConfig)
                                    historyWorld).2))
    by (rewrite (acquire_free 1 "schema-rollback" (lockOptions sampleConfig)
                   historyWorld); reflexivity).
  split; [reflexivity|]. split; [reflexivity|]. split; [exact Hacq|].
  split; [reflexivity|]. split; [reflexivity|].
  destruct (rollback_spec 1 sampleConfig historyWorld _ appliedEntry "main" "c0ffee"
              recordedChanges eq_refl eq_refl Hacq eq_refl eq_refl eq_refl)
    as (w' & Hrun & Hcalls & _).
  exists w'. split; [exact Hrun | exact Hcalls].
Defined.

(** ** The further properties on the sample run *)

Lemma sanitizeIndexKey_valid_witness :
  @digestOfKeyChars hexCrypto
  /\ Js.forallb isKeyChar (@sanitizeIndexKey hexCrypto (Str "__title idx")) = true
  /\ charIs isAlnum (headChar (@sanitizeIndexKey hexCrypto (Str "__title idx"))) = true
  /\ @sanitizeIndexKey hexCrypto (Str (@sanitizeIndexKey hexCrypto (Str "__title idx")))
     = @sanitizeIndexKey hexCrypto (Str "__title idx").
Proof.
  assert (Hdigest : @digestOfKeyChars hexCrypto) by (intros s; reflexivity).
  split; [exact Hdigest|].
  exact (@sanitizeIndexKey_valid hexCrypto (Str "__title idx") Hdigest).
Defined.

Lemma emitted_index_keys_witness :
  In (@indexCreate hexCrypto "post" titleIndex)
     (cs_indexes (@calculateChanges hexCrypto indexedSchema sampleRemote))
  /\ ic_key (@indexCreate hexCrypto "post" titleIndex) = "idx_title"
  /\ ir_key (@indexRequestOf hexCrypto sampleConfig
               (@indexCreate hexCrypto "post" titleIndex)) = "idx_title"
  /\ In {| ref_collection_id := "post"; ref_key := "idx_title" |}
        (cp_indexes (@compactChanges hexCrypto
                       (@calculateChanges hexCrypto indexedSchema sampleRemote))).
Proof.
  assert (Hdigest : @digestOfKeyChars hexCrypto) by (intros s; reflexivity).
  assert (Hin : In (@indexCreate hexCrypto "post" titleIndex)
                   (cs_indexes (@calculateChanges hexCrypto indexedSchema sampleRemote)))
    by (left; reflexivity).
  destruct (@emitted_index_keys hexCrypto sampleConfig indexedSchema sampleRemote
              _ Hin) as (_ & _ & _ & Hkeys).
  destruct (Hkeys Hdigest) as [Hrequest Hrecorded].
  split; [exact Hin|]. split; [reflexivity|]. split; [exact Hrequest|exact Hrecorded].
Defined.

Lemma state_ids_stay_unique_witness :
  uniqueStateIds historyWorld
  /\ uniqueStateIds (run 1 sampleConfig OpRollback historyWorld).2.
Proof.
  assert (Hunique : uniqueStateIds historyWorld) by apply NoDup_singleton.
  split; [exact Hunique|].
  exact (proj2 (proj2 (proj2 (proj2 (proj2
           (state_ids_stay_unique 1 sampleConfig OpRollback "cursor" "r1" "applied"
              None None (ApplyPayload "main" "c0ffee" recordedChanges)
              historyWorld Hunique)))))).
Defined.

Lemma dry_run_changes_nothing_witness :
  dryRun dryConfig = true
  /\ honoursDryRun OpApply = true
  /\ calls (run 1 dryConfig OpApply remoteWorld).2 = []
  /\ stateDocs (run 1 dryConfig OpApply remoteWorld).2 = [].
Proof.
  split; [reflexivity|]. split; [reflexivity|].
  exact (dry_run_changes_nothing 1 dryConfig OpApply remoteWorld eq_refl eq_refl).
Defined.

Lemma reset_clears_state_witness :
  isConfigured sampleConfig = true
  /\ (acquire 1 "schema-reset" (lockOptions sampleConfig) historyWorld).1 = Ok tt
  /\ exists w', reset 1 sampleConfig historyWorld = (Ok tt, w')
                /\ stateDocs w' = [].
Proof.
  assert (Hacq : (acquire 1 "schema-reset" (lockOptions sampleConfig) historyWorld).1
                 = Ok tt)
    by (rewrite (acquire_free 1 "schema-reset" (lockOptions sampleConfig)
                   historyWorld); reflexivity).
  split; [reflexivity|]. split; [exact Hacq|].
  destruct (reset_clears_state 1 sampleConfig historyWorld eq_refl Hacq)
    as (w' & Hrun & Hdocs & _).
  exists w'. split; [exact Hrun | exact Hdocs].
Defined.

Lemma rollback_nothing_to_undo_witness :
  isConfigured sampleConfig = true
  /\ (acquire 1 "schema-rollback" (lockOptions sampleConfig) emptyWorld).1 = Ok tt
  /\ latestAppliedIsApply (stateDocs emptyWorld) = false
  /\ exists w', rollback 1 sampleConfig emptyWorld = (Ok tt, w')
                /\ calls w' = []
                /\ stateDocs w' = [].
Proof.
  assert (Hacq : (acquire 1 "schema-rollback" (lockOptions sampleConfig) emptyWorld).1
                 = Ok tt)
    by (rewrite (acquire_free 1 "schema-rollback" (lockOptions sampleConfig)
                   emptyWorld); reflexivity).
  split; [reflexivity|]. split; [exact Hacq|]. split; [reflexivity|].
  exact (rollback_nothing_to_undo 1 sampleConfig emptyWorld eq_refl Hacq eq_refl).
Defined.

Lemma rollback_moves_on_witness :
  dryRun sampleConfig = false
  /\ List.find (isHistoryWithStatus "applied") (stateDocs historyWorld)
     = Some appliedEntry
  /\ exists w', rollbackBody sampleConfig historyWorld = (Ok tt, w')
                /\ List.length (stateDocs w') = 1
                /\ latestHistory "applied" w' = (Ok None, w').
Proof.
  split; [reflexivity|]. split; [reflexivity|].
  exact (rollback_moves_on sampleConfig historyWorld appliedEntry "main" "c0ffee"
           recordedChanges eq_refl eq_refl eq_refl eq_refl).
Defined.

Lemma applyChanges_rerun_witness :
  failureOf [] (CliCall (CreateCollection "main" "users" "Users"))
  = Some (ExecError 1 "Error: Collection already exists")
  /\ exists w', applyChanges sampleConfig usersFirst emptyWorld = (Ok tt, w')
                /\ calls w' = [CliCall (CreateCollection "main" "users" "Users");
                               CliCall (CreateCollection "main" "posts" "Posts")]
                /\ stateDocs w' = [].
Proof.
  split; [reflexivity|].
  apply (applyChanges_rerun sampleConfig usersFirst emptyWorld).
  - intros a [].
  - intros issued c error [<-|[<-|[]]] Hfails; vm_compute in Hfails.
    + injection Hfails as <-. reflexivity.
    + discriminate Hfails.
Defined.

Lemma apply_records_history_witness :
  isConfigured scriptedConfig = true
  /\ isEmptyChanges (calculateChanges sampleSchema (remote remoteWorld)) = false
  /\ (apply 1 scriptedConfig remoteWorld).1 = Ok tt
  /\ exists h, stateDocs (apply 1 scriptedConfig remoteWorld).2 = [h]
               /\ doc_status h = Some "applied"
               /\ calls (apply 1 scriptedConfig remoteWorld).2
                  = plannedCalls scriptedConfig
                      (calculateChanges sampleSchema (remote remoteWorld)).
Proof.
  assert (Hacq : (acquire 1 "schema-apply" (lockOptions scriptedConfig) remoteWorld).1
                 = Ok tt)
    by (rewrite (acquire_free 1 "schema-apply" (lockOptions scriptedConfig)
                   remoteWorld); reflexivity).
  assert (Hok : (apply 1 scriptedConfig remoteWorld).1 = Ok tt)
    by (vm_compute; reflexivity).
  split; [reflexivity|]. split; [reflexivity|]. split; [exact Hok|].
  pose proof (apply_records_history 1 scriptedConfig sampleSchema remoteWorld
                eq_refl Hacq eq_refl eq_refl eq_refl) as Hrun.
  rewrite Hok in Hrun. destruct Hrun as (h & Hdocs & _ & Hstatus & _ & Hcalls).
  exists h. split; [exact Hdocs|]. split; [exact Hstatus | exact Hcalls].
Defined.

Lemma apply_then_rollback_witness :
  apply 1 scriptedConfig remoteWorld
  = (Ok tt, (apply 1 scriptedConfig remoteWorld).2)
  /\ exists w2,
       rollback 1 scriptedConfig (apply 1 scriptedConfig remoteWorld).2 = (Ok tt, w2)
       /\ lockDocs w2 = ∅
       /\ latestHistory "applied" w2 = (Ok None, w2).
Proof.
  assert (Hok : (apply 1 scriptedConfig remoteWorld).1 = Ok tt)
    by (vm_compute; reflexivity).
  assert (Hrun : apply 1 scriptedConfig remoteWorld
                 = (Ok tt, (apply 1 scriptedConfig remoteWorld).2))
    by (rewrite <- Hok; apply surjective_pairing).
  split; [exact Hrun|].
  destruct (apply_then_rollback 1 scriptedConfig sampleSchema remoteWorld _
              eq_refl eq_refl eq_refl eq_refl eq_refl eq_refl Hrun)
    as (w2 & Hback & _ & Hlocks & Hlatest).
  exists w2. split; [exact Hback|]. split; [exact Hlocks | exact Hlatest].
Defined.

Lemma lock_excludes_others_witness :
  opt_force bobOptions = false
  /\ strictEq (acquireOwner aliceOptions) (acquireOwner bobOptions) = false
  /\ (acquire 1 "schema-apply" aliceOptions emptyWorld).1 = Ok tt
  /\ exists w2,
       acquire 1 "schema-apply" bobOptions
         (acquire 1 "schema-apply" aliceOptions emptyWorld).2
       = (Throw (LockHeldError "schema-apply" "alice" 1000), w2).
Proof.
  assert (Hheld : acquire 1 "schema-apply" aliceOptions emptyWorld
                  = (Ok tt, (acquire 1 "schema-apply" aliceOptions emptyWorld).2))
    by (rewrite (acquire_free 1 "schema-apply" aliceOptions emptyWorld);
        reflexivity).
  split; [reflexivity|]. split; [reflexivity|].
  split; [now rewrite Hheld|].
  destruct (lock_excludes_others 1 1 "schema-apply" aliceOptions bobOptions
              emptyWorld _ Hheld eq_refl eq_refl) as [w2 Hrefused].
  exists w2.
  rewrite (acquire_free 1 "schema-apply" aliceOptions emptyWorld) in Hrefused
    by reflexivity.
  rewrite (acquire_free 1 "schema-apply" aliceOptions emptyWorld) by reflexivity.
  exact (proj1 Hrefused).
Defined.

Lemma locks_are_independent_witness :
  lockDocs heldWorld !! "lock:schema-apply" = Some aliceLock
  /\ lockDocs (run 1 sampleConfig OpReset heldWorld).2 !! "lock:schema-apply"
     = Some aliceLock.
Proof.
  split; [reflexivity|].
  destruct (locks_are_independent 1 sampleConfig OpReset "schema-reset"
              "lock:schema-apply" aliceOptions (Str "alice") heldWorld)
    as (_ & _ & Hrun).
  - vm_compute. discriminate.
  - vm_compute. discriminate.
  - rewrite Hrun. reflexivity.
Defined.

Lemma relationships_hide_apply_witness :
  latestAppliedIsApply (stateDocs appliedWorld) = true
  /\ calculateRelationships sampleSchema (remote appliedWorld) <> []
  /\ (applyRelationships 1 scriptedConfig appliedWorld).1 = Ok tt
  /\ latestAppliedIsApply
       (stateDocs (applyRelationships 1 scriptedConfig appliedWorld).2) = false
  /\ exists w2,
       rollback 1 scriptedConfig (applyRelationships 1 scriptedConfig appliedWorld).2
       = (Ok tt, w2)
       /\ calls w2 = calls (applyRelationships 1 scriptedConfig appliedWorld).2
       /\ List.length (stateDocs w2) = 2.
Proof.
  assert (Hacq : (acquire 1 "schema-relationships" (lockOptions scriptedConfig)
                    appliedWorld).1 = Ok tt)
    by (rewrite (acquire_free 1 "schema-relationships" (lockOptions scriptedConfig)
                   appliedWorld); reflexivity).
  assert (Hsome : calculateRelationships sampleSchema (remote appliedWorld) <> [])
    by (vm_compute; discriminate).
  assert (Hok : (applyRelationships 1 scriptedConfig appliedWorld).1 = Ok tt)
    by (vm_compute; reflexivity).
  assert (Hrun : applyRelationships 1 scriptedConfig appliedWorld
                 = (Ok tt, (applyRelationships 1 scriptedConfig appliedWorld).2))
    by (rewrite <- Hok; apply surjective_pairing).
  assert (Hback : (acquire 1 "schema-rollback" (lockOptions scriptedConfig)
                     (applyRelationships 1 scriptedConfig appliedWorld).2).1 = Ok tt)
    by (vm_compute; reflexivity).
  split; [reflexivity|]. split; [exact Hsome|]. split; [exact Hok|].
  destruct (relationships_hide_apply 1 scriptedConfig sampleSchema appliedWorld
              _ eq_refl Hacq eq_refl eq_refl Hsome Hrun Hback)
    as ((h & Hdocs & _) & Hlatest & w2 & Hrollback & Hcalls & Hstate).
  split; [exact Hlatest|].
  exists w2. split; [exact Hrollback|]. split; [exact Hcalls|].
  now rewrite Hstate, Hdocs.
Defined.

Lemma parseRelationshipDecorator_clean_witness :
  parseRelationshipDecorator "to: 'UserProfile', type: many-to-one" !! "to"
  = Some (Some "UserProfile")
  /\ Js.forallb (fun c => negb (isQuote c)) "UserProfile" = true.
Proof.
  assert (Hto : parseRelationshipDecorator "to: 'UserProfile', type: many-to-one"
                !! "to" = Some (Some "UserProfile")) by (vm_compute; reflexivity).
  split; [exact Hto|].
  exact (proj1 (parseRelationshipDecorator_clean _ "to" "UserProfile" Hto)).
Defined.
